(** * A shallow embedding of the Go BitTorrent client

  The development follows the packages of the repository:

  - [Go]       the fragments of the Go language and of its standard library
               that the packages rely on (64-bit [int], slice expressions,
               [copy], [strconv], [encoding/binary], [io.ReadFull]);
  - [Bencode]  [bencode/decoder.go], in its revision that decodes strings,
               integers and lists (the earlier revision has the string case
               only), and [bencode/encoder.go];
  - [Torrent]  [torrent/torrent.go] ([Parse], [InfoHash], [PieceHash],
               [PieceLength], [TotalLength]);
  - [Peer]     [peer/handshake.go] ([Serialize], [ParseHandshake],
               [PerformHandshake], [SetExtension], [HasExtension]);
  - [Tracker]  [tracker/tracker.go] ([parseTrackerResponse], [parsePeers]);
  - [Message]  [peer/message.go] ([Serialize], [ReadMessage],
               [FormatMessage], [RequestMessage], [ParseHave], [ParsePiece]).

  Go strings are byte strings and are modelled by [string] (a list of 8-bit
  characters); a [[]byte] is a [list ascii].  A reader is the list of the
  bytes it delivers before the end of the stream.  The definitions come
  first, the theorems about them follow in the modules whose names end in
  [Facts]. *)

From Stdlib Require Import ZArith Lia Ascii String List DecimalString.
From Stdlib Require DecimalPos.
From stdpp Require Import base gmap strings list sorting.

Set Warnings "-register-all".

Local Open Scope Z_scope.

(* ===================================================================== *)
(** * Go primitives                                                       *)
(* ===================================================================== *)

Module Go.

(** [[]byte]. *)
Abbreviation bytes := (list ascii).

(** [[]byte(s)] and [string(b)]. *)
Abbreviation bytes_of := String.list_ascii_of_string.
Abbreviation string_of := String.string_of_list_ascii.

(** The numeric value of a byte. *)
Definition byte_val (c : ascii) : Z := Z.of_N (N_of_ascii c).

(** [byte(n)]: conversion of an integer to [uint8] keeps the low 8 bits. *)
Definition byte_of_Z (n : Z) : ascii := ascii_of_N (Z.to_N (n mod 256)).

Definition byte_eqb (a b : ascii) : bool := Ascii.eqb a b.

(** ['0' <= c && c <= '9']. *)
Definition is_digit (c : ascii) : bool :=
  (48 <=? byte_val c) && (byte_val c <=? 57).

(** A call either returns or panics.  [OutOfFuel] only appears in the
    fuelled definition of recursive functions and is proved unreachable for
    the entry points. *)
Inductive outcome (A : Type) : Type :=
| Return (a : A)
| Panic
| OutOfFuel.
Arguments Return {A} a.
Arguments Panic {A}.
Arguments OutOfFuel {A}.

Definition bind {A B} (o : outcome A) (k : A → outcome B) : outcome B :=
  match o with
  | Return a => k a
  | Panic => Panic
  | OutOfFuel => OutOfFuel
  end.

(** An operation that panics where the model has [None]. *)
Definition must {A} (o : option A) : outcome A :=
  match o with
  | Some a => Return a
  | None => Panic
  end.

(** ** 64-bit integers *)

Definition MaxInt64 : Z := 2 ^ 63 - 1.
Definition MinInt64 : Z := - 2 ^ 63.
Definition MaxUint64 : Z := 2 ^ 64 - 1.

(** Two's complement wrap-around of [int] / [int64] arithmetic.  It is
    written out wherever an operand comes from the input (a decoded length,
    a file size).  Positions inside a slice are bounded by its length, which
    fits an [int], and are added without it. *)
Definition wrap64 (z : Z) : Z := (z + 2 ^ 63) mod 2 ^ 64 - 2 ^ 63.

(** [a % b] on integers: truncated remainder, panics on a zero divisor. *)
Definition rem (a b : Z) : outcome Z :=
  if b =? 0 then Panic else Return (Z.rem a b).

(** ** Slices *)

(** [data[i]]: panics when the index is out of range. *)
Definition index {A} (data : list A) (i : Z) : option A :=
  if i <? 0 then None else data !! Z.to_nat i.

(** [data[lo:hi]]: panics unless [0 <= lo <= hi <= len(data)].  (For a
    slice Go allows [hi] up to the capacity; every use below is on a string
    or is guarded by [hi <= len(data)].) *)
Definition slice {A} (data : list A) (lo hi : Z) : option (list A) :=
  if (0 <=? lo) && (lo <=? hi) && (hi <=? Z.of_nat (length data))
  then Some (take (Z.to_nat (hi - lo)) (drop (Z.to_nat lo) data))
  else None.

(** [copy(dst[off:], src)]: the slice expression panics when [off] exceeds
    the length of [dst]; [copy] then overwrites
    [min(len(dst) - off, len(src))] elements and leaves the rest alone. *)
Definition copy_at {A} (dst : list A) (off : nat) (src : list A)
  : option (list A) :=
  if (length dst <? off)%nat then None
  else
    let n := Nat.min (length dst - off) (length src) in
    Some (take off dst ++ take n src ++ drop (off + n) dst).

(** ** strconv *)

Inductive num_err_kind := ErrSyntax | ErrRange.

(** [*strconv.NumError]. *)
Record NumError := {
  Func : string;
  Num : string;
  Err : num_err_kind
}.

(** The digit loop of [ParseUint(s, 10, 64)]: [n] is the value read so far.
    A byte that is not a decimal digit is a syntax error; an overflow of
    [n*10] or of [n*10 + d] is a range error, reported as soon as it
    occurs. *)
Fixpoint ParseUint_loop (s : bytes) (n : Z) : Z + num_err_kind :=
  match s with
  | [] => inl n
  | c :: s' =>
      if is_digit c then
        let d := byte_val c - 48 in
        if MaxUint64 / 10 + 1 <=? n then inr ErrRange
        else
          let n10 := n * 10 in
          let n1 := (n10 + d) mod 2 ^ 64 in
          if (n1 <? n10) || (MaxUint64 <? n1) then inr ErrRange
          else ParseUint_loop s' n1
      else inr ErrSyntax
  end.

Definition ParseUint (s : bytes) : Z + num_err_kind :=
  match s with
  | [] => inr ErrSyntax
  | _ => ParseUint_loop s 0
  end.

(** [strconv.ParseInt(s, 10, 64)], with the name of the reporting function
    as a parameter ([Atoi] reports under its own name). *)
Definition ParseInt_as (fn : string) (s : string) : Z * option NumError :=
  let fail k := {| Func := fn; Num := s; Err := k |} in
  match bytes_of s with
  | [] => (0, Some (fail ErrSyntax))
  | c :: rest =>
      let neg := byte_eqb c "-" in
      let digits := if byte_eqb c "+" || neg then rest else c :: rest in
      match ParseUint digits with
      | inr ErrSyntax => (0, Some (fail ErrSyntax))
      | inr ErrRange =>
          if neg then (MinInt64, Some (fail ErrRange))
          else (MaxInt64, Some (fail ErrRange))
      | inl un =>
          let cutoff := 2 ^ 63 in
          if negb neg && (cutoff <=? un) then (MaxInt64, Some (fail ErrRange))
          else if neg && (cutoff <? un) then (MinInt64, Some (fail ErrRange))
          else (if neg then wrap64 (- un) else un, None)
      end
  end.

Definition ParseInt (s : string) : Z * option NumError :=
  ParseInt_as "ParseInt" s.

(** [strconv.Atoi(s)]: [ParseInt(s, 10, 0)] converted to [int] (64 bits),
    errors carrying the function name ["Atoi"]. *)
Definition Atoi (s : string) : Z * option NumError :=
  ParseInt_as "Atoi" s.

(** [strconv.FormatInt(i, 10)] and [strconv.Itoa(i)]. *)
Definition FormatInt (i : Z) : string := NilZero.string_of_int (Z.to_int i).
Definition Itoa (i : Z) : string := FormatInt i.

(** ** Unsigned 32-bit integers and encoding/binary *)

(** Wrap-around of [uint32] arithmetic and conversion to [uint32]. *)
Definition wrap32 (z : Z) : Z := z mod 2 ^ 32.

(** The four bytes that [binary.BigEndian.PutUint32(b, v)] writes to
    [b[0]], ..., [b[3]]. *)
Definition BigEndian_PutUint32 (v : Z) : bytes :=
  [byte_of_Z (Z.shiftr v 24); byte_of_Z (Z.shiftr v 16);
   byte_of_Z (Z.shiftr v 8); byte_of_Z v].

(** [binary.BigEndian.Uint32(b)]; [None] (a panic) when [b] has fewer than 4
    bytes. *)
Definition BigEndian_Uint32 (b : bytes) : option Z :=
  match b with
  | b0 :: b1 :: b2 :: b3 :: _ =>
      Some (Z.lor (Z.lor (Z.lor (byte_val b3) (Z.shiftl (byte_val b2) 8))
                         (Z.shiftl (byte_val b1) 16))
                  (Z.shiftl (byte_val b0) 24))
  | _ => None
  end.

(** [binary.BigEndian.PutUint32(b[off:off+4], v)] on a buffer whose capacity
    is its length (every buffer below comes from [make] with a length only):
    panics when the buffer ends before [off + 4]. *)
Definition PutUint32_at (b : bytes) (off : nat) (v : Z) : option bytes :=
  if (off + 4 <=? length b)%nat then copy_at b off (BigEndian_PutUint32 v)
  else None.

(** [data[i] = x]: panics when the index is out of range. *)
Definition store {A} (data : list A) (i : nat) (x : A) : option (list A) :=
  if (i <? length data)%nat then Some (<[i := x]> data) else None.

(** ** io *)

Inductive io_error := EOF | ErrUnexpectedEOF.

(** [io.ReadFull(r, buf)] with [len(buf) = n], for a reader that delivers the
    bytes [r] and then reports the end of the stream (a [bytes.Reader], as in
    the tests): the bytes read and the reader afterwards, or [EOF] when no
    byte was read and [ErrUnexpectedEOF] when the stream ended too early. *)
Definition ReadFull (r : bytes) (n : nat) : (bytes * bytes) + io_error :=
  if (n <=? length r)%nat then inl (take n r, drop n r)
  else match r with
       | [] => inr EOF
       | _ => inr ErrUnexpectedEOF
       end.

(** ** Decimal digits *)

(** The number that a string of decimal digits denotes after the prefix
    [acc]. *)
Fixpoint uint_val (d : Decimal.uint) (acc : Z) : Z :=
  match d with
  | Decimal.Nil => acc
  | Decimal.D0 d => uint_val d (10 * acc)
  | Decimal.D1 d => uint_val d (10 * acc + 1)
  | Decimal.D2 d => uint_val d (10 * acc + 2)
  | Decimal.D3 d => uint_val d (10 * acc + 3)
  | Decimal.D4 d => uint_val d (10 * acc + 4)
  | Decimal.D5 d => uint_val d (10 * acc + 5)
  | Decimal.D6 d => uint_val d (10 * acc + 6)
  | Decimal.D7 d => uint_val d (10 * acc + 7)
  | Decimal.D8 d => uint_val d (10 * acc + 8)
  | Decimal.D9 d => uint_val d (10 * acc + 9)
  end.

End Go.

Import Go.

(* ===================================================================== *)
(** * Package bencode                                                     *)
(* ===================================================================== *)

Module Bencode.

(** The dynamically typed values ([interface{}]) that flow through the
    codec.  [VInt] is a Go [int], [VInt64] an [int64], [VList] a
    [[]interface{}], [VDict] a [map[string]interface{}], [VStrings] a
    [[]string]; [VNil] is the nil interface and [VOther] stands for a value
    of any other dynamic type. *)
Inductive value :=
| VNil
| VString (s : string)
| VInt (n : Z)
| VInt64 (n : Z)
| VList (l : list value)
| VDict (m : gmap string value)
| VStrings (l : list string)
| VOther.

(** The errors of the package, one constructor per message. *)
Inductive error :=
| ErrEmptyData                     (* "empty data" *)
| ErrUnknownType (c : ascii)       (* "unkown type: %c" *)
| ErrNoColon                       (* "invalid string format: no colon found" *)
| ErrStringFormat (e : NumError)   (* "invalid string format: %v" *)
| ErrStringTooShort                (* "string data too short" *)
| ErrIntegerFormat                 (* "invalid integer format" *)
| ErrIntegerNoEnd                  (* "invalid integer format: no end marker" *)
| ErrLeadingZeros                  (* "invalid integer format: leading zeros" *)
| ErrNegativeZero                  (* "invalid integer format: negative zero" *)
| ErrInvalidInteger (e : NumError) (* "invalid integer: %v" *)
| ErrListFormat                    (* "invalid list format" *)
| ErrListItem (e : error)          (* "error decoding list item: %v" *)
| ErrListNoEnd                     (* "invalid list format: no end marker" *)
| ErrUnsupportedType (v : value).  (* "unsupported type for encoding: %T" *)

(** What a decoding function returns: the value, the number of bytes
    consumed and the error ([None] is [nil]). *)
Abbreviation decoded A := (A * Z * option error)%type.

(** ** decoder.go *)

(** [for i < len(data) && data[i] != stop { i++ }], started with
    [rest = data[i:]]; the result is the final [i]. *)
Fixpoint scan (stop : ascii) (rest : bytes) (i : nat) : nat :=
  match rest with
  | [] => i
  | c :: rest' => if byte_eqb c stop then i else scan stop rest' (S i)
  end.

Definition decodeString (data : bytes) : outcome (decoded string) :=
  let i := scan ":" data 0 in
  if (length data <=? i)%nat then Return ("", 0, Some ErrNoColon)
  else
    match Atoi (string_of (take i data)) with
    | (_, Some err) => Return ("", 0, Some (ErrStringFormat err))
    | (length_, None) =>
        let lo := Z.of_nat i + 1 in
        let hi := wrap64 (lo + length_) in
        if Z.of_nat (length data) <? hi
        then Return ("", 0, Some ErrStringTooShort)
        else
          match slice data lo hi with
          | None => Panic
          | Some result => Return (string_of result, hi, None)
          end
    end.

(** [len(numStr) > 1 && numStr[0] == '0']. *)
Definition has_leading_zero (numStr : bytes) : bool :=
  match numStr with
  | c0 :: _ :: _ => byte_eqb c0 "0"
  | _ => false
  end.

(** [len(numStr) > 1 && numStr[0] == '-' && numStr[1] == '0']. *)
Definition is_negative_zero (numStr : bytes) : bool :=
  match numStr with
  | c0 :: c1 :: _ => byte_eqb c0 "-" && byte_eqb c1 "0"
  | _ => false
  end.

Definition decodeInteger (data : bytes) : decoded Z :=
  match data with
  | c0 :: _ :: _ =>
      if negb (byte_eqb c0 "i") then (0, 0, Some ErrIntegerFormat)
      else
        let endIndex := scan "e" (drop 1 data) 1 in
        if (length data <=? endIndex)%nat then (0, 0, Some ErrIntegerNoEnd)
        else
          let numStr := take (endIndex - 1) (drop 1 data) in
          if has_leading_zero numStr then (0, 0, Some ErrLeadingZeros)
          else if is_negative_zero numStr then (0, 0, Some ErrNegativeZero)
          else
            match ParseInt (string_of numStr) with
            | (_, Some err) => (0, 0, Some (ErrInvalidInteger err))
            | (num, None) => (num, Z.of_nat endIndex + 1, None)
            end
  | _ => (0, 0, Some ErrIntegerFormat)
  end.

Section DecodeList.

(** The recursive call to [Decode]. *)
Variable Decode : bytes → outcome (decoded value).

(** The loop of [decodeList]; [k] bounds the number of iterations left.
    An error return carries the nil slice. *)
Fixpoint decodeList_loop (data : bytes) (k : nat) (pos : Z)
    (result : list value) : outcome (decoded (list value)) :=
  match k with
  | O => OutOfFuel
  | S k' =>
      if pos <? Z.of_nat (length data) then
        match index data pos with
        | None => Panic
        | Some c =>
            if negb (byte_eqb c "e") then
              match slice data pos (Z.of_nat (length data)) with
              | None => Panic
              | Some rest =>
                  bind (Decode rest) (λ r,
                    match r with
                    | (_, _, Some err) =>
                        Return ([], 0, Some (ErrListItem err))
                    | (item, bytesRead, None) =>
                        decodeList_loop data k' (pos + bytesRead)
                          (result ++ [item])
                    end)
              end
            else Return (result, pos + 1, None)
        end
      else Return ([], 0, Some ErrListNoEnd)
  end.

Definition decodeList (data : bytes) : outcome (decoded (list value)) :=
  match data with
  | c0 :: _ :: _ =>
      if negb (byte_eqb c0 "l") then Return ([], 0, Some ErrListFormat)
      else decodeList_loop data (length data) 1 []
  | _ => Return ([], 0, Some ErrListFormat)
  end.

End DecodeList.

(** The conversion of a typed result to the [(interface{}, int, error)] of
    [Decode]. *)
Definition boxed {A} (f : A → value) (r : decoded A) : decoded value :=
  match r with (a, n, err) => (f a, n, err) end.

(** [Decode]; [fuel] bounds the nesting depth of lists. *)
Fixpoint Decode_fuel (fuel : nat) (data : bytes) : outcome (decoded value) :=
  match data with
  | [] => Return (VNil, 0, Some ErrEmptyData)
  | c :: _ =>
      if is_digit c then bind (decodeString data) (λ r, Return (boxed VString r))
      else if byte_eqb c "i" then Return (boxed VInt64 (decodeInteger data))
      else if byte_eqb c "l" then
        match fuel with
        | O => OutOfFuel
        | S fuel' =>
            bind (decodeList (Decode_fuel fuel') data)
                 (λ r, Return (boxed VList r))
        end
      else Return (VNil, 0, Some (ErrUnknownType c))
  end.

(** A list nested [d] deep takes at least [d] bytes, so the length of the
    input is fuel enough (see [BencodeFacts.Decode_total]). *)
Definition Decode (data : bytes) : outcome (decoded value) :=
  Decode_fuel (length data) data.

(** ** encoder.go *)

(** What has been written to the buffer, and the error. *)
Abbreviation encoded := (bytes * option error)%type.

(** [buf.WriteString(strconv.Itoa(len(s))); buf.WriteByte(':');
    buf.WriteString(s)]. *)
Definition write_string (s : string) : bytes :=
  bytes_of (Itoa (Z.of_nat (String.length s))) ++ ":"%char :: bytes_of s.

(** [for _, item := range v { err := encodeValue(buf, item); ... }]: the
    bytes written by the items, up to the first error. *)
Definition encode_items (encodeValue : value → encoded)
  : list value → encoded :=
  fix go (items : list value) : encoded :=
    match items with
    | [] => ([], None)
    | item :: items' =>
        match encodeValue item with
        | (w, Some err) => (w, Some err)
        | (w, None) =>
            match go items' with (ws, err) => (w ++ ws, err) end
        end
    end.

(** The key loop of [EncodeDict] over the sorted keys.  [values] maps every
    key to what [encodeValue(&buf, dict[key])] writes and returns, and
    [missing] is the same for a key that is not in the dictionary, where
    [dict[key]] is the nil interface (it cannot happen: the keys are those of
    the dictionary).  On an error the function returns [nil, err]. *)
Fixpoint EncodeDict_loop (values : gmap string encoded) (missing : encoded)
    (keys : list string) (buf : bytes) : encoded :=
  match keys with
  | [] => (buf ++ ["e"%char], None)
  | key :: keys' =>
      match default missing (values !! key) with
      | (_, Some err) => ([], Some err)
      | (w, None) =>
          EncodeDict_loop values missing keys' (buf ++ write_string key ++ w)
      end
  end.

(** [keys] after [sort.Strings(keys)]: the keys of the map in ascending
    byte-wise order. *)
Definition sorted_keys {A} (dict : gmap string A) : list string :=
  merge_sort String.le (map fst (map_to_list dict)).

Definition EncodeDict_values (values : gmap string encoded)
    (missing : encoded) : encoded :=
  EncodeDict_loop values missing (sorted_keys values) ["d"%char].

(** [encodeValue]: what it writes to the buffer and the error it returns.
    The dictionary case is the recursive call [EncodeDict(v)]
    (see [EncoderFacts.encodeValue_dict]). *)
Fixpoint encodeValue (v : value) : encoded :=
  match v with
  | VString s => (write_string s, None)
  | VInt i | VInt64 i =>
      ("i"%char :: bytes_of (FormatInt i) ++ ["e"%char], None)
  | VList items =>
      match encode_items encodeValue items with
      | (ws, Some err) => ("l"%char :: ws, Some err)
      | (ws, None) => ("l"%char :: ws ++ ["e"%char], None)
      end
  | VDict dict =>
      match EncodeDict_values (encodeValue <$> dict)
              ([], Some (ErrUnsupportedType VNil)) with
      | (_, Some err) => ([], Some err)
      | (dictBytes, None) => (dictBytes, None)
      end
  | VStrings items =>
      ("l"%char :: concat (map write_string items) ++ ["e"%char], None)
  | VNil | VOther => ([], Some (ErrUnsupportedType v))
  end.

Definition EncodeDict (dict : gmap string value) : encoded :=
  EncodeDict_values (encodeValue <$> dict) (encodeValue VNil).

(** ** Type assertions on a dictionary entry *)

(** [dict[key].(string)], [dict[key].(int64)], [dict[key].([]interface{})]
    and [dict[key].(map[string]interface{})]: [None] when the key is missing
    (the entry is the nil interface) or holds a value of another type. *)
Definition as_string (entry : option value) : option string :=
  match entry with Some (VString s) => Some s | _ => None end.
Definition as_int64 (entry : option value) : option Z :=
  match entry with Some (VInt64 n) => Some n | _ => None end.
Definition as_list (entry : option value) : option (list value) :=
  match entry with Some (VList l) => Some l | _ => None end.
Definition as_dict (entry : option value) : option (gmap string value) :=
  match entry with Some (VDict m) => Some m | _ => None end.

(** The values that [Decode] can give back: strings, [int64]s in range and
    lists of those. *)
Fixpoint plain (v : value) : bool :=
  match v with
  | VString _ => true
  | VInt64 n => (MinInt64 <=? n) && (n <=? MaxInt64)
  | VList items => forallb plain items
  | _ => false
  end.

(** ** Vocabulary of the statements *)

(** The value that accompanies an error: the nil interface, or the zero value
    of the type the failing function returns (the empty string, [int64(0)],
    the nil slice). *)
Definition zero_value (v : value) : Prop :=
  v = VNil ∨ v = VString "" ∨ v = VInt64 0 ∨ v = VList [].

(** The contract on the byte count of a decoding function applied to [len]
    bytes: a success consumed between 1 and [len] bytes, an error comes with a
    count of 0 and a zero value. *)
Definition consumed_ok {A} (is_zero : A → Prop) (len : nat)
    (o : outcome (decoded A)) : Prop :=
  match o with
  | Return (_, n, None) => 0 < n ≤ Z.of_nat len
  | Return (v, n, Some _) => n = 0 ∧ is_zero v
  | Panic | OutOfFuel => True
  end.

End Bencode.

Import Bencode.

(* ===================================================================== *)
(** * Package torrent                                                     *)
(* ===================================================================== *)

Module FileInfo.
Record t := { Length : Z; Path : list string }.
End FileInfo.

Module TorrentInfo.
Record t := {
  PieceLength : Z;
  Pieces : string;
  Name : string;
  Length : Z;
  Files : list FileInfo.t;
  Private : Z
}.
End TorrentInfo.

Module Torrent.

Record TorrentFile := {
  Announce : string;
  AnnounceList : list (list string);
  CreationDate : Z;
  Comment : string;
  CreatedBy : string;
  Encoding : string;
  Info : TorrentInfo.t
}.

Inductive error :=
| ErrPiecesLength                       (* "pieces length is not a multiple of 20" *)
| ErrPieceIndex (index numPieces : Z).  (* "piece index out of range: %d (total: %d)" *)

(** [[20]byte{}]. *)
Definition zero_hash : bytes := replicate 20 zero.

(** [len(t.Info.Pieces)]. *)
Definition pieces_len (t : TorrentFile) : Z :=
  Z.of_nat (String.length (TorrentInfo.Pieces (Info t))).

(** The test [t.Info.Length > 0], which [TotalLength] and [InfoHash] use to
    tell the single-file mode from the multi-file mode. *)
Definition single_file (t : TorrentFile) : bool :=
  0 <? TorrentInfo.Length (Info t).

(** The [fileDict] built for one file. *)
Definition fileDict (file : FileInfo.t) : gmap string value :=
  <["path" := VStrings (FileInfo.Path file)]>
    (<["length" := VInt64 (FileInfo.Length file)]> ∅).

(** The [infoDict] that [InfoHash] rebuilds. *)
Definition infoDict (t : TorrentFile) : gmap string value :=
  let info := Info t in
  let d0 : gmap string value :=
    <["name" := VString (TorrentInfo.Name info)]>
      (<["pieces" := VString (TorrentInfo.Pieces info)]>
         (<["piece length" := VInt64 (TorrentInfo.PieceLength info)]> ∅)) in
  let d1 :=
    if single_file t
    then <["length" := VInt64 (TorrentInfo.Length info)]> d0
    else <["files" :=
             VList (map (λ file, VDict (fileDict file))
                        (TorrentInfo.Files info))]> d0 in
  if TorrentInfo.Private info =? 0 then d1
  else <["private" := VInt64 (TorrentInfo.Private info)]> d1.

Section InfoHash.

(** [sha1.Sum] of the standard library. *)
Variable sha1_Sum : bytes → bytes.

Definition InfoHash (t : TorrentFile) : bytes * option Bencode.error :=
  match EncodeDict (infoDict t) with
  | (_, Some err) => (zero_hash, Some err)
  | (encoded, None) => (sha1_Sum encoded, None)
  end.

End InfoHash.

Definition NumPieces (t : TorrentFile) : Z := Z.quot (pieces_len t) 20.

Definition PieceHash (t : TorrentFile) (index : Z)
  : outcome (bytes * option error) :=
  if negb (Z.rem (pieces_len t) 20 =? 0)
  then Return (zero_hash, Some ErrPiecesLength)
  else
    let numPieces := Z.quot (pieces_len t) 20 in
    if (index <? 0) || (numPieces <=? index)
    then Return (zero_hash, Some (ErrPieceIndex index numPieces))
    else
      bind (must (slice (bytes_of (TorrentInfo.Pieces (Info t)))
                        (index * 20) ((index + 1) * 20)))
        (λ piece,
           bind (must (copy_at zero_hash 0 piece))
             (λ hash, Return (hash, None))).

Definition TotalLength (t : TorrentFile) : Z :=
  if single_file t then TorrentInfo.Length (Info t)
  else
    foldl (λ totalLength file, wrap64 (totalLength + FileInfo.Length file))
          0 (TorrentInfo.Files (Info t)).

Definition PieceLength (t : TorrentFile) (index : Z) : outcome Z :=
  if (index <? 0) || (NumPieces t <=? index) then Return 0
  else if index =? NumPieces t - 1 then
    let totalLength := TotalLength t in
    bind (rem totalLength (TorrentInfo.PieceLength (Info t)))
      (λ r,
         if r =? 0 then Return (TorrentInfo.PieceLength (Info t))
         else rem totalLength (TorrentInfo.PieceLength (Info t)))
  else Return (TorrentInfo.PieceLength (Info t)).

(** ** Parse *)

Inductive parse_error :=
| ErrDecode (err : Bencode.error)
| ErrNotDictionary        (* "torrent file is not a dictionary" *)
| ErrAnnounce             (* "missing or invalid announce URL" *)
| ErrInfo                 (* "missing or invalid info dictionary" *)
| ErrInfoPieceLength      (* "missing or invalid piece length" *)
| ErrInfoPieces           (* "missing or invalid pieces" *)
| ErrInfoName             (* "missing or invalid name" *)
| ErrFileLength           (* "missing or invalid file length" *)
| ErrFilePath             (* "missing or invalid file path" *)
| ErrLengthOrFiles.       (* "torrent must have either length or files" *)

(** The strings of a list, in order; what is not a string is skipped. *)
Definition strings_of (items : list value) : list string :=
  omap (λ item, as_string (Some item)) items.

(** The loop over [announceList]: every tier that is a list gives the list of
    its strings; any other tier is skipped. *)
Definition parse_announce_list (announceList : list value)
  : list (list string) :=
  omap (λ tier, strings_of <$> as_list (Some tier)) announceList.

(** The loop over [files]: an entry that is not a dictionary is skipped; in a
    dictionary the length is checked before the path, and the first failure
    ends the whole parse. *)
Fixpoint parse_files (files : list value) : list FileInfo.t + parse_error :=
  match files with
  | [] => inl []
  | fileDict :: files' =>
      match as_dict (Some fileDict) with
      | None => parse_files files'
      | Some fileMap =>
          match as_int64 (fileMap !! "length") with
          | None => inr ErrFileLength
          | Some fileLength =>
              match as_list (fileMap !! "path") with
              | None => inr ErrFilePath
              | Some pathList =>
                  match parse_files files' with
                  | inr err => inr err
                  | inl rest =>
                      inl ({| FileInfo.Length := fileLength;
                              FileInfo.Path := strings_of pathList |} :: rest)
                  end
              end
          end
      end
  end.

(** [Parse] after the type assertion of the decoded value: the conversion of
    the dictionary [dict] to a [TorrentFile], field by field in the order of
    the source. *)
Definition Parse_dict (dict : gmap string value) : TorrentFile + parse_error :=
  match as_string (dict !! "announce") with
  | None => inr ErrAnnounce
  | Some announce =>
      let announceList :=
        match as_list (dict !! "announce-list") with
        | Some l => parse_announce_list l
        | None => []
        end in
      let creationDate := default 0 (as_int64 (dict !! "creation date")) in
      let comment := default "" (as_string (dict !! "comment")) in
      let createdBy := default "" (as_string (dict !! "created by")) in
      let encoding := default "" (as_string (dict !! "encoding")) in
      match as_dict (dict !! "info") with
      | None => inr ErrInfo
      | Some infoDict =>
          match as_int64 (infoDict !! "piece length") with
          | None => inr ErrInfoPieceLength
          | Some pieceLength =>
              match as_string (infoDict !! "pieces") with
              | None => inr ErrInfoPieces
              | Some pieces =>
                  match as_string (infoDict !! "name") with
                  | None => inr ErrInfoName
                  | Some name =>
                      let finish length files :=
                        inl {| Announce := announce;
                               AnnounceList := announceList;
                               CreationDate := creationDate;
                               Comment := comment;
                               CreatedBy := createdBy;
                               Encoding := encoding;
                               Info :=
                                 {| TorrentInfo.PieceLength := pieceLength;
                                    TorrentInfo.Pieces := pieces;
                                    TorrentInfo.Name := name;
                                    TorrentInfo.Length := length;
                                    TorrentInfo.Files := files;
                                    TorrentInfo.Private :=
                                      default 0
                                        (as_int64 (infoDict !! "private")) |}
                            |} in
                      match as_int64 (infoDict !! "length") with
                      | Some length => finish length []
                      | None =>
                          match as_list (infoDict !! "files") with
                          | Some files =>
                              match parse_files files with
                              | inr err => inr err
                              | inl fileInfos => finish 0 fileInfos
                              end
                          | None => inr ErrLengthOrFiles
                          end
                      end
                  end
              end
          end
      end
  end.

Definition Parse (data : bytes) : outcome (TorrentFile + parse_error) :=
  bind (Decode data) (λ r,
    match r with
    | (_, _, Some err) => Return (inr (ErrDecode err))
    | (decoded, _, None) =>
        match as_dict (Some decoded) with
        | None => Return (inr ErrNotDictionary)
        | Some dict => Return (Parse_dict dict)
        end
    end).

(** A two-file torrent with two pieces of 4 bytes and 7 bytes of content. *)
Definition sample_torrent : TorrentFile :=
  {| Announce := "http://tracker.example/announce";
     AnnounceList := [];
     CreationDate := 0;
     Comment := "";
     CreatedBy := "";
     Encoding := "";
     Info :=
       {| TorrentInfo.PieceLength := 4;
          TorrentInfo.Pieces := "0123456789abcdefghijKLMNOPQRSTUVWXYZ!#$%";
          TorrentInfo.Name := "sample";
          TorrentInfo.Length := 0;
          TorrentInfo.Files :=
            [ {| FileInfo.Length := 5; FileInfo.Path := ["a"; "b"] |};
              {| FileInfo.Length := 2; FileInfo.Path := ["c"] |} ];
          TorrentInfo.Private := 1 |} |}.

(** The info dictionary of a single-file torrent of 7 bytes in two pieces,
    and of the two-file torrent [sample_torrent]; [sample_dict] is the
    decoded torrent file around an info dictionary. *)
Definition sample_info : gmap string value :=
  <["piece length" := VInt64 4]>
    (<["pieces" := VString (string_of (replicate 40 "h"%char))]>
       (<["name" := VString "a.txt"]> (<["length" := VInt64 7]> ∅))).

Definition sample_files_info : gmap string value :=
  <["piece length" := VInt64 4]>
    (<["pieces" := VString (string_of (replicate 40 "h"%char))]>
       (<["name" := VString "dir"]>
          (<["files" :=
               VList [VDict (<["path" := VList [VString "a"]]>
                               (<["length" := VInt64 3]> ∅));
                      VDict (<["path" := VList [VString "b"; VString "c"]]>
                               (<["length" := VInt64 4]> ∅))]]> ∅))).

Definition sample_dict (info : gmap string value) : gmap string value :=
  <["announce" := VString "http://tracker/announce"]>
    (<["info" := VDict info]> ∅).

End Torrent.

(* ===================================================================== *)
(** * Package peer                                                        *)
(* ===================================================================== *)

Module Peer.

Definition ProtocolIdentifier : string := "BitTorrent protocol".
Definition HandshakeLength : nat := 68.

(** [Reserved], [InfoHash] and [PeerID] are arrays of 8, 20 and 20 bytes. *)
Record Handshake := {
  Pstr : string;
  Reserved : bytes;
  InfoHash : bytes;
  PeerID : bytes
}.

Definition well_formed (h : Handshake) : Prop :=
  length (Reserved h) = 8%nat ∧ length (InfoHash h) = 20%nat
  ∧ length (PeerID h) = 20%nat.

Definition Serialize (h : Handshake) : outcome bytes :=
  let n := String.length (Pstr h) in
  let buf := replicate HandshakeLength zero in
  bind (match buf with
        | [] => Panic
        | _ :: buf' => Return (byte_of_Z (Z.of_nat n) :: buf')
        end) (λ buf,
  bind (must (copy_at buf 1 (bytes_of (Pstr h)))) (λ buf,
  bind (must (copy_at buf (1 + n) (Reserved h))) (λ buf,
  bind (must (copy_at buf (1 + n + 8) (InfoHash h))) (λ buf,
  bind (must (copy_at buf (1 + n + 8 + 20) (PeerID h))) (λ buf,
  Return buf))))).

Definition NewHandshake (infoHash peerID : bytes) : Handshake :=
  {| Pstr := ProtocolIdentifier;
     Reserved := replicate 8 zero;
     InfoHash := infoHash;
     PeerID := peerID |}.

(** [ExtensionBit] is a [uint8]. *)
Definition ExtensionBit := N.
Definition ExtensionDHT : ExtensionBit := 0%N.
Definition ExtensionExtensions : ExtensionBit := 5%N.
Definition ExtensionFast : ExtensionBit := 7%N.

(** [b | mask] and [b & mask] on bytes. *)
Definition byte_or (mask : N) (b : ascii) : ascii :=
  ascii_of_N (N.lor (N_of_ascii b) mask).
Definition byte_and (mask : N) (b : ascii) : N :=
  N.land (N_of_ascii b) mask.

(** [h.Reserved[i] |= mask]. *)
Definition or_reserved (i : nat) (mask : N) (h : Handshake) : Handshake :=
  {| Pstr := Pstr h;
     Reserved := alter (byte_or mask) i (Reserved h);
     InfoHash := InfoHash h;
     PeerID := PeerID h |}.

Definition SetExtension (bit : ExtensionBit) (h : Handshake) : Handshake :=
  if (bit =? ExtensionDHT)%N then or_reserved 7 1 h
  else if (bit =? ExtensionExtensions)%N then or_reserved 5 32 h
  else if (bit =? ExtensionFast)%N then or_reserved 7 128 h
  else h.

(** [h.Reserved[i] & mask != 0]. *)
Definition test_reserved (i : nat) (mask : N) (h : Handshake) : bool :=
  negb (byte_and mask (default zero (Reserved h !! i)) =? 0)%N.

Definition HasExtension (bit : ExtensionBit) (h : Handshake) : bool :=
  if (bit =? ExtensionDHT)%N then test_reserved 7 1 h
  else if (bit =? ExtensionExtensions)%N then test_reserved 5 32 h
  else if (bit =? ExtensionFast)%N then test_reserved 7 128 h
  else false.

(** ** ParseHandshake and PerformHandshake *)

Inductive error :=
| ErrRead (err : io_error)
| ErrPstrLenZero          (* "protocol string length is 0" *)
| ErrConnect              (* "failed to connect to peer: %v" *)
| ErrSend                 (* "failed to send handshake: %v" *)
| ErrReadHandshake (err : error)  (* "failed to read handshake: %v" *)
| ErrInfoHashMismatch.    (* "info hash mismatch" *)

(** [ParseHandshake(r)]: the handshake and the reader after it, or the
    error. *)
Definition ParseHandshake (r : bytes) : outcome ((Handshake * bytes) + error) :=
  match ReadFull r 1 with
  | inr err => Return (inr (ErrRead err))
  | inl (lengthBuf, r) =>
      bind (must (index lengthBuf 0)) (λ b,
      let pstrLen := byte_val b in
      if pstrLen =? 0 then Return (inr ErrPstrLenZero)
      else
        match ReadFull r (Z.to_nat (pstrLen + 48)) with
        | inr err => Return (inr (ErrRead err))
        | inl (handshakeBuf, r) =>
            let len := Z.of_nat (length handshakeBuf) in
            bind (must (slice handshakeBuf 0 pstrLen)) (λ pstr,
            bind (must (slice handshakeBuf pstrLen (pstrLen + 8))) (λ s1,
            bind (must (copy_at (replicate 8 zero) 0 s1)) (λ reserved,
            bind (must (slice handshakeBuf (pstrLen + 8) (pstrLen + 28))) (λ s2,
            bind (must (copy_at (replicate 20 zero) 0 s2)) (λ infoHash,
            bind (must (slice handshakeBuf (pstrLen + 28) len)) (λ s3,
            bind (must (copy_at (replicate 20 zero) 0 s3)) (λ peerID,
            Return (inl ({| Pstr := string_of pstr;
                            Reserved := reserved;
                            InfoHash := infoHash;
                            PeerID := peerID |}, r)))))))))
        end)
  end.

(** What [PerformHandshake] meets on the network: whether [net.DialTimeout]
    connects, whether [conn.Write] succeeds, and the bytes that the peer sends
    before it closes the connection. *)
Record Conn := {
  write_ok : bool;
  incoming : bytes
}.

(** What [PerformHandshake] returns, and whether it called [conn.Close]. *)
Record performed := {
  result : Handshake + error;
  closed : bool
}.

(** [bytes.Equal]. *)
Definition bytes_Equal (a b : bytes) : bool := bool_decide (a = b).

(** [PerformHandshake], with the network as a parameter: [dial] is the
    connection that [net.DialTimeout] returns, [None] when it fails. *)
Definition PerformHandshake (dial : option Conn) (infoHash peerID : bytes)
  : outcome performed :=
  match dial with
  | None => Return {| result := inr ErrConnect; closed := false |}
  | Some conn =>
      let outHandshake := NewHandshake infoHash peerID in
      bind (Serialize outHandshake) (λ _,
      if negb (write_ok conn)
      then Return {| result := inr ErrSend; closed := true |}
      else
        bind (ParseHandshake (incoming conn)) (λ parsed,
        match parsed with
        | inr err =>
            Return {| result := inr (ErrReadHandshake err); closed := true |}
        | inl (inHandshake, _) =>
            if negb (bytes_Equal (InfoHash inHandshake) infoHash)
            then Return {| result := inr ErrInfoHashMismatch; closed := true |}
            else Return {| result := inl inHandshake; closed := false |}
        end))
  end.

(** A handshake whose protocol string has 2 bytes. *)
Definition short_handshake : Handshake :=
  {| Pstr := "BT";
     Reserved := replicate 8 zero;
     InfoHash := replicate 20 "h"%char;
     PeerID := replicate 20 "p"%char |}.

End Peer.

(* ===================================================================== *)
(** * Package tracker                                                     *)
(* ===================================================================== *)

Module Tracker.

(** The address built by [net.IPv4(a, b, c, d)]. *)
Inductive net_IP := net_IPv4 (a b c d : ascii).

Record Peer := { IP : net_IP; Port : Z }.

Inductive error :=
| ErrPeerListLength (n : Z).  (* "invalid peer list length: %d" *)

(** [binary.BigEndian.Uint16(b)]; [None] when [b] has fewer than 2 bytes. *)
Definition BigEndian_Uint16 (b : bytes) : option Z :=
  match b with
  | b0 :: b1 :: _ => Some (Z.lor (byte_val b1) (Z.shiftl (byte_val b0) 8))
  | _ => None
  end.

(** The loop [for i := 0; i < len(peerData); i += 6]; [k] bounds the number
    of iterations left. *)
Fixpoint parsePeers_loop (peerData : bytes) (k : nat) (i : Z)
    (peers : list Peer) : outcome (list Peer * option error) :=
  if i <? Z.of_nat (length peerData) then
    match k with
    | O => OutOfFuel
    | S k' =>
        bind (must (index peerData i)) (λ a,
        bind (must (index peerData (i + 1))) (λ b,
        bind (must (index peerData (i + 2))) (λ c,
        bind (must (index peerData (i + 3))) (λ d,
        bind (must (slice peerData (i + 4) (i + 6))) (λ p,
        bind (must (BigEndian_Uint16 p)) (λ port,
          parsePeers_loop peerData k' (i + 6)
            (peers ++ [{| IP := net_IPv4 a b c d; Port := port |}])))))))
    end
  else Return (peers, None).

Definition parsePeers (compactPeers : string)
  : outcome (list Peer * option error) :=
  let peerData := bytes_of compactPeers in
  let n := Z.of_nat (length peerData) in
  if negb (Z.rem n 6 =? 0) then Return ([], Some (ErrPeerListLength n))
  else parsePeers_loop peerData (length peerData) 0 [].

(** ** parseTrackerResponse *)

Record TrackerResponse := {
  Interval : Z;
  MinInterval : Z;
  Complete : Z;
  Incomplete : Z;
  Peers : string
}.

Inductive response_error :=
| ErrDecode (err : Bencode.error)
| ErrNotDictionary        (* "tracker response is not a dictionary" *)
| ErrInterval             (* "missing or invalid interval" *)
| ErrPeers.               (* "missing or invalid peers" *)

(** [parseTrackerResponse] after the type assertion of the decoded value. *)
Definition parseTrackerResponse_dict (dict : gmap string value)
  : TrackerResponse + response_error :=
  match as_int64 (dict !! "interval") with
  | None => inr ErrInterval
  | Some interval =>
      match as_string (dict !! "peers") with
      | None => inr ErrPeers
      | Some peers =>
          inl {| Interval := interval;
                 MinInterval := default 0 (as_int64 (dict !! "min interval"));
                 Complete := default 0 (as_int64 (dict !! "complete"));
                 Incomplete := default 0 (as_int64 (dict !! "incomplete"));
                 Peers := peers |}
      end
  end.

Definition parseTrackerResponse (body : bytes)
  : outcome (TrackerResponse + response_error) :=
  bind (Decode body) (λ r,
    match r with
    | (_, _, Some err) => Return (inr (ErrDecode err))
    | (decoded, _, None) =>
        match as_dict (Some decoded) with
        | None => Return (inr ErrNotDictionary)
        | Some dict => Return (parseTrackerResponse_dict dict)
        end
    end).

(** The peers a compact peer list denotes, in the words of the specification:
    every 6-byte group is 4 bytes of IPv4 address followed by 2 bytes of
    big-endian port, in order. *)
Fixpoint peers_of (peerData : bytes) : list Peer :=
  match peerData with
  | a :: b :: c :: d :: e :: f :: rest =>
      {| IP := net_IPv4 a b c d; Port := 256 * byte_val e + byte_val f |}
      :: peers_of rest
  | _ => []
  end.

(** The 12 bytes [{0x7f,0,0,1,0x1a,0xe1, 0xc0,0xa8,0,1,0x1a,0xe1}] of the
    tracker test. *)
Definition example_peers : string :=
  string_of ["127"; "000"; "000"; "001"; "026"; "225";
             "192"; "168"; "000"; "001"; "026"; "225"]%char.

End Tracker.

(* ===================================================================== *)
(** * Peer wire messages (package [peer], message.go)                     *)
(* ===================================================================== *)

Module Message.

(** [MessageType] is a [uint8]. *)
Definition MessageType := Z.
Definition MsgChoke : MessageType := 0.
Definition MsgUnchoke : MessageType := 1.
Definition MsgInterested : MessageType := 2.
Definition MsgNotInterested : MessageType := 3.
Definition MsgHave : MessageType := 4.
Definition MsgBitfield : MessageType := 5.
Definition MsgRequest : MessageType := 6.
Definition MsgPiece : MessageType := 7.
Definition MsgCancel : MessageType := 8.
Definition MsgPort : MessageType := 9.

(** [Length] is a [uint32]; the field [Type] is spelled [Type_].  A nil
    payload is the empty list: the code reads a payload through [len], [copy]
    and slicing only, which treat nil and empty alike. *)
Record t := {
  Length : Z;
  Type_ : MessageType;
  Payload : bytes
}.

Definition KeepAliveMessage : t :=
  {| Length := 0; Type_ := 0; Payload := [] |}.

Definition Serialize (m : t) : outcome bytes :=
  if Length m =? 0 then Return (replicate 4 zero)
  else
    let buffer := replicate (4 + 1 + length (Payload m)) zero in
    bind (must (PutUint32_at buffer 0 (Length m))) (λ buffer,
    bind (must (store buffer 4 (byte_of_Z (Type_ m)))) (λ buffer,
    if (0 <? length (Payload m))%nat
    then bind (must (copy_at buffer 5 (Payload m))) (λ buffer, Return buffer)
    else Return buffer)).

(** [ReadMessage(r)]: the message and the reader after it, or the error of
    [io.ReadFull]. *)
Definition ReadMessage (r : bytes) : outcome ((t * bytes) + io_error) :=
  match ReadFull r 4 with
  | inr err => Return (inr err)
  | inl (lengthBuf, r) =>
      bind (must (BigEndian_Uint32 lengthBuf)) (λ length,
      if length =? 0 then Return (inl (KeepAliveMessage, r))
      else
        match ReadFull r (Z.to_nat length) with
        | inr err => Return (inr err)
        | inl (messageBuf, r) =>
            bind (must (index messageBuf 0)) (λ messageType,
            bind (if 1 <? length
                  then must (slice messageBuf 1
                               (Z.of_nat (List.length messageBuf)))
                  else Return []) (λ payload,
            Return (inl ({| Length := length;
                            Type_ := byte_val messageType;
                            Payload := payload |}, r))))
        end)
  end.

(** For a nil payload the source skips the addition; [len] of a nil slice is
    0, so the sum below is the same number. *)
Definition FormatMessage (messageType : MessageType) (payload : bytes) : t :=
  let length := wrap32 1 in
  let length := wrap32 (length + wrap32 (Z.of_nat (List.length payload))) in
  {| Length := length; Type_ := messageType; Payload := payload |}.

Definition RequestMessage (index begin length : Z) : outcome t :=
  let payload := replicate 12 zero in
  bind (must (PutUint32_at payload 0 index)) (λ payload,
  bind (must (PutUint32_at payload 4 begin)) (λ payload,
  bind (must (PutUint32_at payload 8 length)) (λ payload,
  Return (FormatMessage MsgRequest payload)))).

Inductive error :=
| ErrNotHave              (* "not a HAVE message" *)
| ErrHaveLength           (* "invalid HAVE message payload length" *)
| ErrNotPiece             (* "not a PIECE message" *)
| ErrPieceLength          (* "invalid PIECE message payload length" *)
| ErrPieceIndex (expected got : Z).
                          (* "unexpected piece index: expected %d, got %d" *)

Definition ParseHave (msg : t) : outcome (Z * option error) :=
  if negb (Type_ msg =? MsgHave) then Return (0, Some ErrNotHave)
  else if negb (List.length (Payload msg) =? 4)%nat
  then Return (0, Some ErrHaveLength)
  else bind (must (BigEndian_Uint32 (Payload msg))) (λ index,
       Return (index, None)).

Definition ParsePiece (pieceIndex : Z) (msg : t)
  : outcome (Z * bytes * option error) :=
  if negb (Type_ msg =? MsgPiece) then Return (0, [], Some ErrNotPiece)
  else if (List.length (Payload msg) <? 8)%nat
  then Return (0, [], Some ErrPieceLength)
  else
    bind (must (slice (Payload msg) 0 4)) (λ b,
    bind (must (BigEndian_Uint32 b)) (λ index,
    if negb (index =? pieceIndex)
    then Return (0, [], Some (ErrPieceIndex pieceIndex index))
    else
      bind (must (slice (Payload msg) 4 8)) (λ b,
      bind (must (BigEndian_Uint32 b)) (λ begin,
      bind (must (slice (Payload msg) 8
                    (Z.of_nat (List.length (Payload msg))))) (λ data,
      Return (begin, data, None)))))).

End Message.

(* ===================================================================== *)
(** * Proof automation                                                    *)
(* ===================================================================== *)

(** Closes a goal [is_zero a → zero_value (f a)] for the zero of a type. *)
Ltac zero_value_tac := intros ? <-; unfold zero_value; auto.

(** Rewrites a boolean test to the constant that arithmetic gives it. *)
Ltac decide_test b v :=
  replace b with v
    by (symmetry;
        rewrite ?andb_true_iff, ?orb_true_iff, ?orb_false_iff, ?negb_true_iff,
          ?negb_false_iff, ?Z.leb_le, ?Z.ltb_lt, ?Z.leb_gt, ?Z.ltb_ge,
          ?Z.eqb_eq, ?Z.eqb_neq, ?Nat.leb_le, ?Nat.ltb_lt, ?Nat.leb_gt,
          ?Nat.ltb_ge;
        lia).

(* ===================================================================== *)
(** * Facts about the Go primitives                                       *)
(* ===================================================================== *)

Module GoFacts.

Lemma bytes_of_length s : length (bytes_of s) = String.length s.
Proof. induction s; simpl; auto. Qed.

Lemma byte_val_range c : 0 ≤ byte_val c < 256.
Proof. unfold byte_val. pose proof (N_ascii_bounded c). lia. Qed.

Lemma byte_of_Z_val n : 0 ≤ n < 256 → byte_val (byte_of_Z n) = n.
Proof.
  intros H. unfold byte_val, byte_of_Z.
  rewrite Z.mod_small by lia.
  rewrite N_ascii_embedding; lia.
Qed.

Lemma index_Some {A} (data : list A) pos :
  0 ≤ pos < Z.of_nat (length data) → is_Some (index data pos).
Proof.
  intros H. unfold index. decide_test (pos <? 0) false.
  apply lookup_lt_is_Some. lia.
Qed.

Lemma slice_Some {A} (data : list A) lo hi s :
  slice data lo hi = Some s →
  0 ≤ lo ∧ lo ≤ hi ∧ hi ≤ Z.of_nat (length data)
  ∧ s = take (Z.to_nat (hi - lo)) (drop (Z.to_nat lo) data).
Proof.
  unfold slice. case_match eqn:E; [|done]. intros [= <-].
  rewrite !andb_true_iff, !Z.leb_le in E. destruct E as [[? ?] ?]. auto.
Qed.

Lemma slice_suffix {A} (data : list A) pos :
  0 ≤ pos ≤ Z.of_nat (length data) →
  slice data pos (Z.of_nat (length data)) = Some (drop (Z.to_nat pos) data).
Proof.
  intros H. unfold slice.
  decide_test ((0 <=? pos) && (pos <=? Z.of_nat (length data))
               && (Z.of_nat (length data) <=? Z.of_nat (length data))) true.
  f_equal. apply take_ge. rewrite length_drop. lia.
Qed.

(** Copying into the zero tail of a buffer, right after what was written. *)
Lemma copy_at_fill {A} (z : A) pre k src off :
  off = length pre → (length src ≤ k)%nat →
  copy_at (pre ++ replicate k z) off src =
    Some ((pre ++ src) ++ replicate (k - length src) z).
Proof.
  intros -> H. unfold copy_at. rewrite length_app, length_replicate.
  decide_test (length pre + k <? length pre)%nat false.
  replace (length pre + k - length pre)%nat with k by lia.
  rewrite Nat.min_r by lia.
  rewrite take_app_length, firstn_all, drop_app_add, drop_replicate.
  by rewrite <- app_assoc.
Qed.

(** [b1 | b0<<8] is the big-endian value of the two bytes. *)
Lemma lor_shiftl_8 x y :
  0 ≤ x < 256 → 0 ≤ y → Z.lor x (Z.shiftl y 8) = 256 * y + x.
Proof.
  intros Hx Hy.
  assert (Z.land x (Z.shiftl y 8) = 0) as Hland.
  { apply Z.bits_inj'. intros i Hi.
    rewrite Z.land_spec, Z.bits_0.
    destruct (Z.lt_ge_cases i 8).
    - rewrite Z.shiftl_spec_low by lia. apply andb_false_r.
    - replace (Z.testbit x i) with false; [done|].
      symmetry. destruct (decide (x = 0)) as [->|]; [apply Z.bits_0|].
      apply Z.bits_above_log2; [lia|].
      apply Z.log2_lt_pow2; [lia|].
      replace (2 ^ i) with (2 ^ 8 * 2 ^ (i - 8)).
      + assert (0 < 2 ^ (i - 8)) by (apply Z.pow_pos_nonneg; lia). nia.
      + rewrite <- Z.pow_add_r by lia. f_equal. lia. }
  pose proof (Z.add_lor_land x (Z.shiftl y 8)) as H.
  rewrite Hland, Z.shiftl_mul_pow2 in * by lia. lia.
Qed.

Lemma bind_fuel {A B} (o : outcome A) (k : A → outcome B) :
  o ≠ OutOfFuel → (∀ a, k a ≠ OutOfFuel) → bind o k ≠ OutOfFuel.
Proof. destruct o; simpl; auto. Qed.

End GoFacts.

(* ===================================================================== *)
(** * Facts about the decoder                                             *)
(* ===================================================================== *)

Module BencodeFacts.

Import GoFacts.

(** ** The scanning loops *)

Lemma scan_ge stop rest i : (i ≤ scan stop rest i)%nat.
Proof.
  revert i; induction rest as [|c rest IH]; intros i; simpl; [lia|].
  destruct (byte_eqb c stop); [lia|]. specialize (IH (S i)). lia.
Qed.

Lemma scan_le stop rest i : (scan stop rest i ≤ i + length rest)%nat.
Proof.
  revert i; induction rest as [|c rest IH]; intros i; simpl; [lia|].
  destruct (byte_eqb c stop); [lia|]. specialize (IH (S i)). lia.
Qed.

(** Where the scan stops short of the end, it stops on [stop]. *)
Lemma scan_found stop rest i :
  (scan stop rest i < i + length rest)%nat →
  rest !! (scan stop rest i - i)%nat = Some stop.
Proof.
  revert i; induction rest as [|c rest IH]; intros i; simpl; [lia|].
  destruct (byte_eqb c stop) eqn:E.
  - intros _. replace (i - i)%nat with 0%nat by lia. simpl.
    apply Ascii.eqb_eq in E. by subst.
  - intros H. pose proof (scan_ge stop rest (S i)).
    replace (scan stop rest (S i) - i)%nat
      with (S (scan stop rest (S i) - S i)) by lia.
    simpl. apply IH. lia.
Qed.

Lemma scan_absent stop body rest i :
  stop ∉ body → scan stop (body ++ stop :: rest) i = (i + length body)%nat.
Proof.
  revert i. induction body as [|c body IH]; intros i Hn; simpl.
  - unfold byte_eqb. rewrite Ascii.eqb_refl. lia.
  - apply not_elem_of_cons in Hn as [Hc Hn].
    destruct (byte_eqb c stop) eqn:E.
    + apply Ascii.eqb_eq in E. congruence.
    + rewrite IH by done. lia.
Qed.

Lemma scan_none stop body i :
  stop ∉ body → scan stop body i = (i + length body)%nat.
Proof.
  revert i. induction body as [|c body IH]; intros i Hn; simpl; [lia|].
  apply not_elem_of_cons in Hn as [Hc Hn].
  destruct (byte_eqb c stop) eqn:E.
  - apply Ascii.eqb_eq in E. congruence.
  - rewrite IH by done. lia.
Qed.

(** ** The byte count of the leaf decoders *)

Lemma decodeString_consumed data :
  consumed_ok (eq "") (length data) (decodeString data).
Proof.
  unfold decodeString.
  destruct (length data <=? scan ":" data 0)%nat; [done|].
  destruct (Atoi _) as [n [e|]]; [done|].
  case_match; [done|].
  destruct (slice _ _ _) as [s|] eqn:Hs; [|done].
  apply slice_Some in Hs. simpl. lia.
Qed.

Lemma decodeString_fuel data : decodeString data ≠ OutOfFuel.
Proof. unfold decodeString. by repeat case_match. Qed.

Lemma decodeInteger_consumed data :
  consumed_ok (eq 0) (length data) (Return (decodeInteger data)).
Proof.
  unfold decodeInteger.
  destruct data as [|c0 [|c1 data]]; [done..|].
  destruct (negb _); [done|].
  destruct (_ <=? _)%nat eqn:E; [done|].
  destruct (has_leading_zero _); [done|].
  destruct (is_negative_zero _); [done|].
  destruct (ParseInt _) as [n [e|]]; [done|].
  apply Nat.leb_gt in E. simpl in *. lia.
Qed.

Lemma boxed_consumed {A} (f : A → value) (is_zero : A → Prop) len r :
  (∀ a, is_zero a → zero_value (f a)) →
  consumed_ok is_zero len (Return r) →
  consumed_ok zero_value len (Return (boxed f r)).
Proof.
  destruct r as [[a n] [e|]]; simpl; [|done]. intros H [-> ?]. auto.
Qed.

(** ** The list loop, for any decoder of the items that keeps the contract *)

Section ListLoop.

Variable D : bytes → outcome (decoded value).
Hypothesis D_consumed : ∀ rest, consumed_ok zero_value (length rest) (D rest).

Lemma decodeList_loop_consumed data k pos result :
  1 ≤ pos ≤ Z.of_nat (length data) →
  consumed_ok (eq []) (length data) (decodeList_loop D data k pos result).
Proof.
  revert pos result. induction k as [|k IH]; intros pos result Hpos; [done|].
  simpl. destruct (pos <? _) eqn:Hlt; [|done].
  apply Z.ltb_lt in Hlt.
  destruct (index_Some data pos) as [c ->]; [lia|].
  destruct (negb _); [|simpl; lia].
  rewrite slice_suffix by lia.
  pose proof (D_consumed (drop (Z.to_nat pos) data)) as HD.
  rewrite length_drop in HD.
  destruct (D _) as [[[item n] [e|]]| |]; simpl in *; [done| |done..].
  apply IH. lia.
Qed.

Lemma decodeList_consumed data :
  consumed_ok (eq []) (length data) (decodeList D data).
Proof.
  unfold decodeList. destruct data as [|c0 [|c1 data]]; [done..|].
  destruct (negb _); [done|].
  apply decodeList_loop_consumed. simpl. lia.
Qed.

(** Every iteration consumes at least one byte, so [k] iterations are enough
    once [pos + k] is past the end. *)
Lemma decodeList_loop_fuel data k pos result :
  (∀ rest, (length rest < length data)%nat → D rest ≠ OutOfFuel) →
  1 ≤ pos ≤ Z.of_nat (length data) →
  Z.of_nat (length data) < pos + Z.of_nat k →
  decodeList_loop D data k pos result ≠ OutOfFuel.
Proof.
  intros HD. revert pos result.
  induction k as [|k IH]; intros pos result Hpos Hk; [lia|].
  simpl. destruct (pos <? _) eqn:Hlt; [|done].
  apply Z.ltb_lt in Hlt.
  destruct (index_Some data pos) as [c ->]; [lia|].
  destruct (negb _); [|done].
  rewrite slice_suffix by lia.
  pose proof (D_consumed (drop (Z.to_nat pos) data)) as HC.
  pose proof (HD (drop (Z.to_nat pos) data)) as HF.
  rewrite length_drop in HC, HF.
  destruct (D _) as [[[item n] [e|]]| |]; simpl in *; [done| |done|].
  - apply IH; lia.
  - exfalso. apply HF; [lia|done].
Qed.

End ListLoop.

(** The loop only calls the item decoder on proper suffixes of [data]. *)
Lemma decodeList_loop_ext D1 D2 data k pos result :
  (∀ rest, consumed_ok zero_value (length rest) (D1 rest)) →
  (∀ rest, (length rest < length data)%nat → D1 rest = D2 rest) →
  1 ≤ pos ≤ Z.of_nat (length data) →
  decodeList_loop D1 data k pos result = decodeList_loop D2 data k pos result.
Proof.
  intros HC HD. revert pos result.
  induction k as [|k IH]; intros pos result Hpos; [done|].
  simpl. destruct (pos <? _) eqn:Hlt; [|done].
  apply Z.ltb_lt in Hlt.
  destruct (index_Some data pos) as [c ->]; [lia|].
  destruct (negb _); [|done].
  rewrite slice_suffix by lia.
  pose proof (HC (drop (Z.to_nat pos) data)) as HC1.
  rewrite <- HD by (rewrite length_drop; lia).
  rewrite length_drop in HC1.
  destruct (D1 _) as [[[item n] [e|]]| |]; simpl in *; [done| |done..].
  apply IH. lia.
Qed.

Lemma decodeList_ext D1 D2 data :
  (∀ rest, consumed_ok zero_value (length rest) (D1 rest)) →
  (∀ rest, (length rest < length data)%nat → D1 rest = D2 rest) →
  decodeList D1 data = decodeList D2 data.
Proof.
  intros HC HD. unfold decodeList.
  destruct data as [|c0 [|c1 data]]; [done..|].
  destruct (negb _); [done|].
  apply decodeList_loop_ext; [done..|]. simpl length. lia.
Qed.

(** ** [Decode] *)

Lemma Decode_fuel_unfold fuel data :
  Decode_fuel fuel data =
  match data with
  | [] => Return (VNil, 0, Some ErrEmptyData)
  | c :: _ =>
      if is_digit c
      then bind (decodeString data) (λ r, Return (boxed VString r))
      else if byte_eqb c "i" then Return (boxed VInt64 (decodeInteger data))
      else if byte_eqb c "l" then
        match fuel with
        | O => OutOfFuel
        | S fuel' =>
            bind (decodeList (Decode_fuel fuel') data)
                 (λ r, Return (boxed VList r))
        end
      else Return (VNil, 0, Some (ErrUnknownType c))
  end.
Proof. destruct fuel; reflexivity. Qed.

Lemma Decode_fuel_consumed fuel data :
  consumed_ok zero_value (length data) (Decode_fuel fuel data).
Proof.
  revert data. induction fuel as [|fuel IH]; intros data;
    rewrite Decode_fuel_unfold;
    (destruct data as [|c data']; [cbn; unfold zero_value; auto|]);
    set (data := c :: data') in *.
  all: destruct (is_digit c);
    [ pose proof (decodeString_consumed data) as H;
      destruct (decodeString data) as [r| |]; [|done..];
      by eapply boxed_consumed; [|exact H]; zero_value_tac |].
  all: destruct (byte_eqb c "i");
    [ by eapply boxed_consumed; [|apply decodeInteger_consumed];
         zero_value_tac |].
  all: destruct (byte_eqb c "l"); [|cbn; unfold zero_value; auto].
  { done. }
  pose proof (decodeList_consumed _ IH data) as H.
  destruct (decodeList _ data) as [r| |]; [|done..].
  by eapply boxed_consumed; [|exact H]; zero_value_tac.
Qed.

Lemma Decode_fuel_enough fuel data :
  (length data ≤ fuel)%nat → Decode_fuel fuel data ≠ OutOfFuel.
Proof.
  revert data. induction fuel as [|fuel IH]; intros data Hlen;
    rewrite Decode_fuel_unfold; (destruct data as [|c data']; [done|]).
  { simpl in Hlen. lia. }
  set (data := c :: data') in *.
  destruct (is_digit c).
  { apply bind_fuel; [apply decodeString_fuel|done]. }
  destruct (byte_eqb c "i"); [done|].
  destruct (byte_eqb c "l"); [|done].
  apply bind_fuel; [|done].
  unfold decodeList, data. destruct data' as [|c1 data'']; [done|].
  destruct (negb _); [done|].
  apply decodeList_loop_fuel.
  - apply Decode_fuel_consumed.
  - intros rest Hrest. apply IH. simpl in *. lia.
  - simpl. lia.
  - simpl length. lia.
Qed.

Lemma Decode_fuel_irrelevant fuel fuel' data :
  (length data ≤ fuel)%nat → (length data ≤ fuel')%nat →
  Decode_fuel fuel data = Decode_fuel fuel' data.
Proof.
  revert fuel' data. induction fuel as [|fuel IH]; intros fuel' data H H';
    rewrite !(Decode_fuel_unfold _ data); (destruct data as [|c data']; [done|]).
  { simpl in H. lia. }
  destruct fuel' as [|fuel']; [simpl in H'; lia|].
  repeat (case_match; [done|]). case_match; [|done].
  f_equal. apply decodeList_ext; [apply Decode_fuel_consumed|].
  intros rest Hrest. simpl in *. apply IH; lia.
Qed.

(** [Decode] is total: the fuel never runs out. *)
Theorem Decode_total data : Decode data ≠ OutOfFuel.
Proof. by apply Decode_fuel_enough. Qed.

(** [Decode] satisfies the defining equation of the source, in which the
    recursive call of [decodeList] is [Decode] itself.  This is the dispatch
    on the first byte: a digit goes to [decodeString], ['i'] to
    [decodeInteger], ['l'] to [decodeList], anything else is the
    unknown-type error. *)
Theorem Decode_unfold data :
  Decode data =
  match data with
  | [] => Return (VNil, 0, Some ErrEmptyData)
  | c :: _ =>
      if is_digit c
      then bind (decodeString data) (λ r, Return (boxed VString r))
      else if byte_eqb c "i" then Return (boxed VInt64 (decodeInteger data))
      else if byte_eqb c "l"
      then bind (decodeList Decode data) (λ r, Return (boxed VList r))
      else Return (VNil, 0, Some (ErrUnknownType c))
  end.
Proof.
  unfold Decode at 1. rewrite Decode_fuel_unfold.
  destruct data as [|c data']; [done|].
  repeat (case_match; [done|]). case_match; [|done].
  simpl length. f_equal.
  apply decodeList_ext; [apply Decode_fuel_consumed|].
  intros rest Hrest. simpl in Hrest.
  apply Decode_fuel_irrelevant; lia.
Qed.

(** X1.  Whenever [Decode] returns, a success has consumed between 1 and
    [len(data)] bytes and an error comes with a count of 0 and a zero value,
    never with a partly decoded one. The remaining outcome is the panic of
    [decodeString_panic]. *)
Theorem Decode_consumed data :
  match Decode data with
  | Return (_, n, None) => 0 < n ≤ Z.of_nat (length data)
  | Return (v, n, Some _) => n = 0 ∧ zero_value v
  | Panic => True
  | OutOfFuel => False
  end.
Proof.
  pose proof (Decode_fuel_consumed (length data) data) as H.
  pose proof (Decode_total data) as T. unfold Decode in *.
  destruct (Decode_fuel _ _) as [[[v n] [e|]]| |]; done.
Qed.

(** [decodeString] panics only when the decoded length is negative (which
    [Decode] excludes: it calls [decodeString] on a leading digit) or when
    the bounds check overflows, the length added to the position after the
    colon exceeding [MaxInt64]. *)
Lemma decodeString_panic data :
  decodeString data = Panic →
  let i := scan ":" data 0 in
  ∃ n, Atoi (string_of (take i data)) = (n, None)
       ∧ (n < 0 ∨ MaxInt64 < Z.of_nat i + 1 + n).
Proof.
  unfold decodeString. intros H.
  destruct (_ <=? _)%nat eqn:Hi; [done|]. apply Nat.leb_gt in Hi.
  destruct (Atoi _) as [n [e|]] eqn:HA; [done|].
  destruct (_ <? _) eqn:Hhi; [done|]. apply Z.ltb_ge in Hhi.
  destruct (slice _ _ _) eqn:Hs; [done|]. clear H.
  exists n. split; [done|].
  unfold slice in Hs. case_match eqn:E; [done|]. clear Hs.
  apply not_true_iff_false in E.
  rewrite !andb_true_iff, !Z.leb_le in E.
  unfold MaxInt64.
  destruct (decide (n < 0)) as [|Hn]; [by left|right].
  destruct (decide (Z.of_nat (scan ":" data 0) + 1 + n ≤ 2 ^ 63 - 1))
    as [Hle|]; [|lia].
  exfalso. apply E.
  unfold wrap64 in *.
  rewrite Z.mod_small in * by lia. lia.
Qed.

(** ** Panics *)

Lemma ParseUint_loop_nonneg s n un :
  0 ≤ n → ParseUint_loop s n = inl un → 0 ≤ un.
Proof.
  revert n. induction s as [|c s IH]; intros n Hn; simpl.
  - by intros [= <-].
  - destruct (is_digit c); [|done].
    destruct (_ <=? n); [done|].
    destruct (_ || _); [done|].
    apply IH. apply Z.mod_pos_bound. lia.
Qed.

(** A string that starts with a digit has no sign: what [Atoi] makes of it is
    not negative. *)
Lemma Atoi_digit_nonneg c s n :
  is_digit c = true → Atoi (string_of (c :: s)) = (n, None) → 0 ≤ n.
Proof.
  intros Hc. unfold Atoi, ParseInt_as.
  rewrite String.list_ascii_of_string_of_list_ascii.
  assert (byte_eqb c "-" = false) as ->.
  { destruct (byte_eqb c "-") eqn:E; [|done].
    apply Ascii.eqb_eq in E. subst. by vm_compute in Hc. }
  assert (byte_eqb c "+" = false) as ->.
  { destruct (byte_eqb c "+") eqn:E; [|done].
    apply Ascii.eqb_eq in E. subst. by vm_compute in Hc. }
  cbn [orb negb andb].
  destruct (ParseUint (c :: s)) as [un|[]] eqn:HU; [|done..].
  destruct (_ <=? un); [done|]. intros [= <-].
  unfold ParseUint in HU. by eapply ParseUint_loop_nonneg in HU.
Qed.

(** Through [Decode], which calls [decodeString] on a leading digit, the
    overflow of the bounds check is the only way to a panic. *)
Lemma decodeString_digit_panic c rest :
  is_digit c = true →
  decodeString (c :: rest) = Panic →
  let i := scan ":" (c :: rest) 0 in
  ∃ n, Atoi (string_of (take i (c :: rest))) = (n, None)
       ∧ MaxInt64 < Z.of_nat i + 1 + n.
Proof.
  intros Hc Hp. destruct (decodeString_panic _ Hp) as (n & HA & Hn).
  exists n. split; [done|].
  destruct Hn as [Hn|Hn]; [|done]. exfalso.
  assert (byte_eqb c ":" = false) as Hcolon.
  { destruct (byte_eqb c ":") eqn:E; [|done].
    apply Ascii.eqb_eq in E. subst. by vm_compute in Hc. }
  cbn [scan] in HA. rewrite Hcolon in HA.
  pose proof (scan_ge ":" rest 1).
  destruct (scan ":" rest 1) as [|i] eqn:Hi; [lia|].
  cbn [take] in HA. apply Atoi_digit_nonneg in HA; [lia|done].
Qed.

(** A panic of the list loop is a panic of the decoder of an item. *)
Section ListPanic.

Variable D : bytes → outcome (decoded value).
Hypothesis D_consumed : ∀ rest, consumed_ok zero_value (length rest) (D rest).

Lemma decodeList_loop_panic data k pos result :
  1 ≤ pos ≤ Z.of_nat (length data) →
  decodeList_loop D data k pos result = Panic →
  ∃ p, D (drop p data) = Panic.
Proof.
  revert pos result. induction k as [|k IH]; intros pos result Hpos; [done|].
  simpl. destruct (pos <? _) eqn:Hlt; [|done].
  apply Z.ltb_lt in Hlt.
  destruct (index_Some data pos) as [c ->]; [lia|].
  destruct (negb _); [|done].
  rewrite slice_suffix by lia.
  pose proof (D_consumed (drop (Z.to_nat pos) data)) as HD.
  rewrite length_drop in HD.
  destruct (D _) as [[[item n] [e|]]| |] eqn:E; simpl in *; [done| | |done].
  - apply IH. lia.
  - eauto.
Qed.

End ListPanic.

Lemma Decode_fuel_panic fuel data :
  Decode_fuel fuel data = Panic →
  ∃ c rest, (c :: rest) `suffix_of` data ∧ is_digit c = true
            ∧ decodeString (c :: rest) = Panic.
Proof.
  revert data. induction fuel as [|fuel IH]; intros data;
    rewrite Decode_fuel_unfold; (destruct data as [|c data']; [done|]).
  all: destruct (is_digit c) eqn:Hc;
    [ intros H; exists c, data'; split_and!; [done..|];
      by destruct (decodeString (c :: data')) |].
  all: destruct (byte_eqb c "i"); [done|].
  all: destruct (byte_eqb c "l"); [|done].
  { done. }
  intros H.
  assert (decodeList (Decode_fuel fuel) (c :: data') = Panic) as HL
    by (by destruct (decodeList _ _)).
  clear H. unfold decodeList in HL.
  destruct data' as [|c1 data'']; [done|].
  destruct (negb _); [done|].
  apply decodeList_loop_panic in HL;
    [|apply Decode_fuel_consumed|simpl length; lia].
  destruct HL as [p HL]. apply IH in HL as (c' & rest & Hs & Hd & Hp).
  exists c', rest. split_and!; [|done..].
  etrans; [exact Hs|]. apply suffix_drop.
Qed.

(** X2.  [Decode] panics only on an input that holds, at the place of a
    string, a length so large that the bounds check of [decodeString]
    overflows. *)
Theorem Decode_panic data :
  Decode data = Panic →
  ∃ rest n,
    rest `suffix_of` data
    ∧ Atoi (string_of (take (scan ":" rest 0) rest)) = (n, None)
    ∧ MaxInt64 < Z.of_nat (scan ":" rest 0) + 1 + n.
Proof.
  intros (c & rest & Hs & Hc & Hp)%Decode_fuel_panic.
  destruct (decodeString_digit_panic c rest Hc Hp) as (n & HA & Hn).
  by exists (c :: rest), n.
Qed.

(** The panic inside a list: the string that overflows is the suffix after
    the ['l']. *)
Lemma Decode_panic_witness :
  ∃ rest n,
    rest `suffix_of` bytes_of "l9223372036854775807:e"
    ∧ Atoi (string_of (take (scan ":" rest 0) rest)) = (n, None)
    ∧ MaxInt64 < Z.of_nat (scan ":" rest 0) + 1 + n.
Proof.
  apply (Decode_panic (bytes_of "l9223372036854775807:e")). by vm_compute.
Defined.

(** ** Integers *)

Lemma Decode_integer data :
  Decode ("i"%char :: data)
  = Return (boxed VInt64 (decodeInteger ("i"%char :: data))).
Proof. by rewrite Decode_unfold. Qed.

(** What [decodeInteger] does on [i<body>e<rest>], where [body] is the part
    before the first ['e']: the checks in the order of the source. *)
Lemma decodeInteger_body body rest :
  "e"%char ∉ body →
  decodeInteger ("i"%char :: body ++ "e"%char :: rest) =
    if has_leading_zero body then (0, 0, Some ErrLeadingZeros)
    else if is_negative_zero body then (0, 0, Some ErrNegativeZero)
    else
      match ParseInt (string_of body) with
      | (_, Some err) => (0, 0, Some (ErrInvalidInteger err))
      | (num, None) => (num, Z.of_nat (length body) + 2, None)
      end.
Proof.
  intros Hbody. unfold decodeInteger.
  destruct (body ++ "e"%char :: rest) as [|c1 tl] eqn:Heq.
  { by destruct body. }
  rewrite <- Heq. clear c1 tl Heq.
  replace (negb (byte_eqb "i" "i")) with false by done.
  replace (drop 1 ("i"%char :: body ++ "e"%char :: rest))
    with (body ++ "e"%char :: rest) by done.
  rewrite scan_absent by done.
  replace (length ("i"%char :: body ++ "e"%char :: rest) <=? 1 + length body)%nat
    with false.
  2:{ symmetry. apply Nat.leb_gt. simpl. rewrite length_app. simpl. lia. }
  replace (1 + length body - 1)%nat with (length body) by lia.
  rewrite take_app_length.
  repeat case_match; try done.
  do 2 f_equal. lia.
Qed.

Lemma decodeInteger_unterminated body :
  body ≠ [] → "e"%char ∉ body →
  decodeInteger ("i"%char :: body) = (0, 0, Some ErrIntegerNoEnd).
Proof.
  intros Hne Hbody. unfold decodeInteger.
  destruct body as [|c1 tl] eqn:Heq; [done|]. rewrite <- Heq in *.
  replace (negb (byte_eqb "i" "i")) with false by done.
  replace (drop 1 ("i"%char :: body)) with body by done.
  rewrite scan_none by done.
  replace (length ("i"%char :: body) <=? 1 + length body)%nat with true; [done|].
  symmetry. apply Nat.leb_le. simpl. lia.
Qed.

(** ** The claims about the decoder *)

(** C1.  [Decode] dispatches a leading digit to [decodeString], ['i'] to
    [decodeInteger] and ['l'] to [decodeList] ([Decode_unfold]), but it has
    no case for ['d']: the well-formed dictionary ["d3:foo3:bare"], and every
    other input that starts with ['d'], falls to the default case and is
    answered with the unknown-type error instead of a dictionary. *)
Theorem Decode_dictionary_unknown_type :
  Decode (bytes_of "d3:foo3:bare")
  = Return (VNil, 0, Some (ErrUnknownType "d"))
  ∧ ∀ rest, Decode ("d"%char :: rest)
            = Return (VNil, 0, Some (ErrUnknownType "d")).
Proof. split; [|intros rest]; by rewrite Decode_unfold. Qed.

(** C10.  On the 20 bytes ["9223372036854775807:"] the decoded length is
    [MaxInt64]; [i+1+length] wraps around to a negative number, the test
    [i+1+length > len(data)] lets it through and the slice expression
    [data[i+1 : i+1+length]] panics: [Decode] neither succeeds nor fails with
    a count of 0.  On every input on which it returns, the counts are as
    claimed ([Decode_consumed]), and this overflow is its only panic
    ([Decode_panic]). *)
Theorem Decode_length_overflow_panics :
  Decode (bytes_of "9223372036854775807:") = Panic.
Proof. by vm_compute. Qed.

(** C5, as stated, fails on two inputs.  The body ["0a"] is not a decimal
    number, yet ["i0ae"] fails with the leading-zero error, because that check
    comes before the digits are parsed; and the one-byte input ["i"], which
    has no terminating ['e'], fails with the generic invalid-integer-format
    error of the length guard. *)
Lemma decodeInteger_check_order :
  ((ParseInt "0a").2 ≠ None)
  ∧ Decode (bytes_of "i0ae") = Return (VInt64 0, 0, Some ErrLeadingZeros)
  ∧ ("e"%char ∉ bytes_of "i")
  ∧ Decode (bytes_of "i") = Return (VInt64 0, 0, Some ErrIntegerFormat).
Proof.
  split_and!.
  - by vm_compute.
  - by vm_compute.
  - apply (bool_decide_unpack _). by vm_compute.
  - by vm_compute.
Qed.

(** C5, amended.  ["i0e"] decodes to 0, ["i042e"] fails with the leading-zero
    error, ["i-0e"] with the negative-zero error and ["i-5e"] decodes to -5.
    For an input [i<body>e<rest>] whose [body] holds no ['e']: a body of more
    than one byte that starts with ['0'] fails with the leading-zero error; a
    body that starts with ["-0"] fails with the negative-zero error; a body
    that passes both checks fails with the invalid-digits error when
    [ParseInt] rejects it (it is not an optionally signed decimal number in
    the [int64] range) and decodes to its value, consuming the body and the
    two markers, otherwise.  An input [i<body>] with a non-empty body and no
    ['e'] fails with the unterminated-integer error. *)
Theorem decodeInteger_cases (body rest : bytes) :
  "e"%char ∉ body →
  let data := "i"%char :: body ++ "e"%char :: rest in
  Decode (bytes_of "i0e") = Return (VInt64 0, 3, None)
  ∧ Decode (bytes_of "i042e") = Return (VInt64 0, 0, Some ErrLeadingZeros)
  ∧ Decode (bytes_of "i-0e") = Return (VInt64 0, 0, Some ErrNegativeZero)
  ∧ Decode (bytes_of "i-5e") = Return (VInt64 (-5), 4, None)
  ∧ (∀ c tl, body = "0"%char :: c :: tl →
       Decode data = Return (VInt64 0, 0, Some ErrLeadingZeros))
  ∧ (∀ tl, body = "-"%char :: "0"%char :: tl →
       Decode data = Return (VInt64 0, 0, Some ErrNegativeZero))
  ∧ (has_leading_zero body = false → is_negative_zero body = false →
     match ParseInt (string_of body) with
     | (_, Some err) =>
         Decode data = Return (VInt64 0, 0, Some (ErrInvalidInteger err))
     | (num, None) =>
         Decode data = Return (VInt64 num, Z.of_nat (length body) + 2, None)
     end)
  ∧ (body ≠ [] →
     Decode ("i"%char :: body) = Return (VInt64 0, 0, Some ErrIntegerNoEnd)).
Proof.
  intros Hbody data.
  assert (Decode data
          = Return (boxed VInt64
              (if has_leading_zero body then (0, 0, Some ErrLeadingZeros)
               else if is_negative_zero body then (0, 0, Some ErrNegativeZero)
               else
                 match ParseInt (string_of body) with
                 | (_, Some err) => (0, 0, Some (ErrInvalidInteger err))
                 | (num, None) => (num, Z.of_nat (length body) + 2, None)
                 end))) as HD.
  { unfold data. by rewrite Decode_integer, decodeInteger_body. }
  split_and!.
  - by vm_compute.
  - by vm_compute.
  - by vm_compute.
  - by vm_compute.
  - intros c tl ->. by rewrite HD.
  - intros tl ->. by rewrite HD.
  - intros H0 H1. rewrite HD, H0, H1.
    by destruct (ParseInt _) as [num [err|]].
  - intros Hne. by rewrite Decode_integer, decodeInteger_unterminated.
Qed.

(** The cases at the body ["4a2"]: it holds no ['e'], passes both checks and
    is rejected by [ParseInt]. *)
Lemma decodeInteger_cases_witness :
  ("e"%char ∉ bytes_of "4a2")
  ∧ Decode (bytes_of "i4a2e")
    = Return (VInt64 0, 0,
              Some (ErrInvalidInteger
                      {| Func := "ParseInt"; Num := "4a2"; Err := ErrSyntax |}))
  ∧ Decode (bytes_of "i4a2")
    = Return (VInt64 0, 0, Some ErrIntegerNoEnd).
Proof.
  assert ("e"%char ∉ bytes_of "4a2") as H
    by (apply (bool_decide_unpack _); by vm_compute).
  split; [exact H|].
  destruct (decodeInteger_cases (bytes_of "4a2") [] H)
    as (_ & _ & _ & _ & _ & _ & H7 & H8).
  split; [|by apply H8].
  specialize (H7 eq_refl eq_refl).
  vm_compute in H7. exact H7.
Defined.

End BencodeFacts.

(* ===================================================================== *)
(** * Facts about the encoder                                             *)
(* ===================================================================== *)

Module EncoderFacts.

(** The keys are emitted in ascending byte-wise order, each exactly once. *)
Lemma sorted_keys_sorted {A} (dict : gmap string A) :
  StronglySorted String.le (sorted_keys dict).
Proof. apply (StronglySorted_merge_sort _). Qed.

Lemma sorted_keys_elem {A} (dict : gmap string A) key :
  key ∈ sorted_keys dict ↔ is_Some (dict !! key).
Proof.
  unfold sorted_keys. rewrite merge_sort_Permutation.
  rewrite list_elem_of_fmap. split.
  - intros [[k v] [-> H]]. apply elem_of_map_to_list in H. by exists v.
  - intros [v H]. exists (key, v). split; [done|]. by apply elem_of_map_to_list.
Qed.

Lemma sorted_keys_NoDup {A} (dict : gmap string A) : NoDup (sorted_keys dict).
Proof.
  unfold sorted_keys. rewrite merge_sort_Permutation.
  apply NoDup_fst_map_to_list.
Qed.

Lemma sorted_keys_fmap {A B} (f : A → B) (dict : gmap string A) :
  sorted_keys (f <$> dict) = sorted_keys dict.
Proof.
  unfold sorted_keys. rewrite map_to_list_fmap.
  f_equal. rewrite <- list_fmap_compose. by apply list_fmap_ext; intros ? [].
Qed.

(** Every buffer the key loop returns without an error extends the buffer it
    was started with. *)
Lemma EncodeDict_loop_prefix values missing keys buf out :
  EncodeDict_loop values missing keys buf = (out, None) →
  ∃ tail, out = buf ++ tail.
Proof.
  revert buf. induction keys as [|key keys IH]; intros buf; simpl.
  - intros [= <-]. eauto.
  - destruct (default missing (values !! key)) as [w [err|]]; [done|].
    intros [tail ->]%IH. rewrite <- !app_assoc. eauto.
Qed.

Lemma EncodeDict_first dict out :
  EncodeDict dict = (out, None) → ∃ tail, out = "d"%char :: tail.
Proof. intros [tail ->]%EncodeDict_loop_prefix. eauto. Qed.

(** The loop, when no value fails: the keys in order, each followed by its
    value, then the closing ['e']. *)
Lemma EncodeDict_loop_ok values missing keys buf :
  Forall (λ key, ∃ w, values !! key = Some (w, None)) keys →
  EncodeDict_loop values missing keys buf =
    (buf ++ concat (map (λ key, write_string key
                                ++ (default missing (values !! key)).1) keys)
         ++ ["e"%char], None).
Proof.
  intros H. revert buf. induction H as [|key keys [w Hw] _ IH]; intros buf.
  - done.
  - cbn [EncodeDict_loop map concat]. rewrite Hw.
    cbn [default from_option fst id].
    rewrite IH. by rewrite <- !app_assoc.
Qed.

(** The dictionary case of [encodeValue] is the recursive call of
    [EncodeDict]. *)
Lemma encodeValue_dict dict :
  encodeValue (VDict dict) =
    match EncodeDict dict with
    | (_, Some err) => ([], Some err)
    | (dictBytes, None) => (dictBytes, None)
    end.
Proof. done. Qed.

(** [EncodeDict] never fails on a dictionary whose values all encode, and
    then produces the canonical form. *)
Lemma EncodeDict_ok dict :
  map_Forall (λ _ v, (encodeValue v).2 = None) dict →
  EncodeDict dict =
    ("d"%char ::
       concat (map (λ key, write_string key
                           ++ (encodeValue (default VNil (dict !! key))).1)
                   (sorted_keys dict))
       ++ ["e"%char], None).
Proof.
  intros H. unfold EncodeDict, EncodeDict_values.
  rewrite EncodeDict_loop_ok.
  - rewrite sorted_keys_fmap. simpl. do 4 f_equal.
    apply map_ext_in. intros key Hk%list_elem_of_In%sorted_keys_elem.
    destruct Hk as [v Hv]. by rewrite lookup_fmap, Hv.
  - apply Forall_forall. intros key Hk%sorted_keys_elem.
    rewrite lookup_fmap in *.
    destruct (dict !! key) as [v|] eqn:Hv; [|by destruct Hk].
    specialize (H _ _ Hv). simpl in *.
    destruct (encodeValue v) as [w e]. simpl in *. subst. eauto.
Qed.

Lemma encode_items_ok items :
  Forall (λ v, (encodeValue v).2 = None) items →
  (encode_items encodeValue items).2 = None.
Proof.
  induction 1 as [|v items Hv _ IH]; [done|]. simpl.
  destruct (encodeValue v) as [w e]. simpl in *. subst.
  by destruct (encode_items encodeValue items).
Qed.

Lemma encodeValue_list_ok items :
  Forall (λ v, (encodeValue v).2 = None) items →
  (encodeValue (VList items)).2 = None.
Proof.
  intros H%encode_items_ok. simpl.
  by destruct (encode_items encodeValue items) as [w [e|]].
Qed.

Lemma encodeValue_dict_ok dict :
  map_Forall (λ _ v, (encodeValue v).2 = None) dict →
  (encodeValue (VDict dict)).2 = None.
Proof. intros H%EncodeDict_ok. by rewrite encodeValue_dict, H. Qed.

(** C2.  The round trip fails on every dictionary: what [EncodeDict] produces
    starts with ['d'], and [Decode], which has no dictionary case, answers it
    with the unknown-type error instead of the original dictionary. *)
Theorem EncodeDict_not_decoded dict out :
  EncodeDict dict = (out, None) →
  Decode out = Return (VNil, 0, Some (ErrUnknownType "d")).
Proof.
  intros [tail ->]%EncodeDict_first.
  by rewrite BencodeFacts.Decode_unfold.
Qed.

(** The dictionary [{"foo": "bar"}] of the decoder tests. *)
Lemma EncodeDict_not_decoded_witness :
  EncodeDict {[ "foo" := VString "bar" ]} = (bytes_of "d3:foo3:bare", None)
  ∧ Decode (bytes_of "d3:foo3:bare")
    = Return (VNil, 0, Some (ErrUnknownType "d")).
Proof.
  assert (EncodeDict {[ "foo" := VString "bar" ]}
          = (bytes_of "d3:foo3:bare", None)) as H by (by vm_compute).
  split; [exact H|].
  exact (EncodeDict_not_decoded _ _ H).
Defined.

End EncoderFacts.

(* ===================================================================== *)
(** * Facts about the torrent metadata                                    *)
(* ===================================================================== *)

Module TorrentFacts.

Import Torrent GoFacts EncoderFacts.

Lemma fileDict_dom file : dom (fileDict file) = {["length"; "path"]}.
Proof. unfold fileDict. rewrite !dom_insert_L. set_solver. Qed.

Lemma fileDict_encodes file : (encodeValue (VDict (fileDict file))).2 = None.
Proof.
  apply encodeValue_dict_ok. unfold fileDict.
  intros key v. rewrite !lookup_insert_Some, lookup_empty.
  intros [[_ <-]|[_ [[_ <-]|[_ ?]]]]; done.
Qed.

Lemma infoDict_encodes t :
  map_Forall (λ _ v, (encodeValue v).2 = None) (infoDict t).
Proof.
  unfold infoDict. intros key v.
  destruct (_ =? 0), (single_file t);
    rewrite !lookup_insert_Some, lookup_empty; intros H;
    repeat (destruct H as [[_ <-]|[_ H]]; [try done|]); try done.
  all: apply encodeValue_list_ok, Forall_forall; intros x Hx%list_elem_of_fmap.
  all: destruct Hx as [file [-> _]]; apply fileDict_encodes.
Qed.

Lemma infoDict_dom t :
  dom (infoDict t) =
    {["piece length"; "pieces"; "name"]}
    ∪ (if single_file t then {["length"]} else {["files"]})
    ∪ (if TorrentInfo.Private (Info t) =? 0 then ∅ else {["private"]}).
Proof.
  unfold infoDict.
  destruct (_ =? 0), (single_file t); rewrite !dom_insert_L; set_solver.
Qed.

(** ** Piece arithmetic *)

(** C6.  With a positive piece length, [PieceLength] returns the piece length
    for every index before the last one; for the last index it returns
    [TotalLength() % PieceLength] (Go's remainder, which is the mathematical
    [mod] for a total length that is not negative) when that is not 0 and the
    piece length when it is; and 0 for an index that is negative or not below
    [NumPieces()]. *)
Theorem PieceLength_spec t index :
  let pieceLength := TorrentInfo.PieceLength (Info t) in
  0 < pieceLength →
  (0 ≤ index < NumPieces t - 1 → PieceLength t index = Return pieceLength)
  ∧ (0 < NumPieces t →
     PieceLength t (NumPieces t - 1) =
       Return (if Z.rem (TotalLength t) pieceLength =? 0 then pieceLength
               else Z.rem (TotalLength t) pieceLength))
  ∧ (index < 0 ∨ NumPieces t ≤ index → PieceLength t index = Return 0)
  ∧ (0 ≤ TotalLength t →
     Z.rem (TotalLength t) pieceLength = TotalLength t mod pieceLength).
Proof.
  intros pieceLength Hpos. unfold PieceLength. fold pieceLength.
  split_and!.
  - intros H.
    decide_test ((index <? 0) || (NumPieces t <=? index)) false.
    by decide_test (index =? NumPieces t - 1) false.
  - intros H.
    decide_test ((NumPieces t - 1 <? 0) || (NumPieces t <=? NumPieces t - 1))
                false.
    rewrite Z.eqb_refl. unfold rem.
    decide_test (pieceLength =? 0) false. simpl.
    by destruct (_ =? 0).
  - intros H.
    by decide_test ((index <? 0) || (NumPieces t <=? index)) true.
  - intros H. apply Z.rem_mod_nonneg; lia.
Qed.

(** [sample_torrent] has two pieces of 4 bytes for 7 bytes of content. *)
Lemma PieceLength_spec_witness :
  0 < TorrentInfo.PieceLength (Info sample_torrent)
  ∧ PieceLength sample_torrent 0 = Return 4
  ∧ PieceLength sample_torrent 1 = Return 3
  ∧ PieceLength sample_torrent 2 = Return 0.
Proof.
  assert (0 < TorrentInfo.PieceLength (Info sample_torrent)) as H
    by (by vm_compute).
  split; [exact H|].
  destruct (PieceLength_spec sample_torrent 0 H) as (H1 & H2 & _ & _).
  destruct (PieceLength_spec sample_torrent 2 H) as (_ & _ & H3 & _).
  split_and!.
  - apply H1. by vm_compute.
  - apply H2. by vm_compute.
  - apply H3. right. by vm_compute.
Defined.

(** C7.  [PieceHash] first checks that the length of [pieces] is a multiple
    of 20 and fails with the corrupt-piece-list error for every index when it
    is not; otherwise an index that is negative or not below [len(pieces)/20]
    fails with the index-out-of-range error, and any other index yields the
    20 bytes at offset [index*20]. *)
Theorem PieceHash_spec t index :
  let n := pieces_len t in
  (n mod 20 ≠ 0 → PieceHash t index = Return (zero_hash, Some ErrPiecesLength))
  ∧ (n mod 20 = 0 → index < 0 ∨ n / 20 ≤ index →
     PieceHash t index
     = Return (zero_hash, Some (ErrPieceIndex index (n / 20))))
  ∧ (n mod 20 = 0 → 0 ≤ index < n / 20 →
     let hash := take 20 (drop (Z.to_nat (index * 20))
                               (bytes_of (TorrentInfo.Pieces (Info t)))) in
     PieceHash t index = Return (hash, None) ∧ length hash = 20%nat).
Proof.
  intros n. unfold PieceHash. fold n.
  assert (0 ≤ n) as Hn by (unfold n, pieces_len; lia).
  rewrite Z.rem_mod_nonneg, Z.quot_div_nonneg by lia.
  split_and!.
  - intros H. by decide_test (n mod 20 =? 0) false.
  - intros H0 H. rewrite H0. simpl.
    by decide_test ((index <? 0) || (n / 20 <=? index)) true.
  - intros H0 H. set (hash := take 20 _). rewrite H0. simpl.
    decide_test ((index <? 0) || (n / 20 <=? index)) false.
    assert ((index + 1) * 20 ≤ n) as Hle.
    { pose proof (Z.mul_div_le n 20). nia. }
    assert (length hash = 20%nat) as Hlen.
    { unfold hash. rewrite length_take, length_drop, bytes_of_length.
      unfold n, pieces_len in *. lia. }
    split; [|done].
    unfold slice. rewrite bytes_of_length.
    replace ((0 <=? index * 20) && (index * 20 <=? (index + 1) * 20)
             && ((index + 1) * 20 <=? _)) with true
      by (symmetry; rewrite !andb_true_iff, !Z.leb_le;
          unfold n, pieces_len in *; lia).
    replace (Z.to_nat ((index + 1) * 20 - index * 20)) with 20%nat by lia.
    fold hash. simpl must. cbn [bind]. unfold copy_at.
    rewrite Hlen. simpl. rewrite app_nil_r.
    by rewrite <- Hlen, firstn_all.
Qed.

(** The second piece hash of [sample_torrent], and an index past the end. *)
Lemma PieceHash_spec_witness :
  PieceHash sample_torrent 1 = Return (bytes_of "KLMNOPQRSTUVWXYZ!#$%", None)
  ∧ PieceHash sample_torrent 2 = Return (zero_hash, Some (ErrPieceIndex 2 2)).
Proof.
  destruct (PieceHash_spec sample_torrent 1) as (_ & _ & H1).
  destruct (PieceHash_spec sample_torrent 2) as (_ & H2 & _).
  split.
  - refine (proj1 (H1 _ _)); by vm_compute.
  - apply H2; [by vm_compute|]. right. by vm_compute.
Defined.

End TorrentFacts.

(* ===================================================================== *)
(** * Facts about the handshake                                           *)
(* ===================================================================== *)

Module PeerFacts.

Import Peer GoFacts.

(** C3, as stated, fails for a protocol string of 2 bytes: the buffer has the
    68 bytes of [HandshakeLength], not [1 + 2 + 48]. *)
Lemma Serialize_short_pstr :
  well_formed short_handshake
  ∧ ∃ buf, Serialize short_handshake = Return buf
           ∧ length buf = 68%nat
           ∧ length buf ≠ (1 + String.length (Pstr short_handshake) + 48)%nat.
Proof.
  split; [by vm_compute|].
  eexists. split; [by vm_compute|]. split; [by vm_compute|].
  vm_compute. discriminate.
Qed.

(** C3, amended.  For a protocol string of at most 19 bytes, [Serialize]
    returns a buffer of exactly [HandshakeLength] = 68 bytes: byte 0 is the
    length of the protocol string, then come the protocol string, the 8
    reserved bytes, the 20-byte info-hash and the 20-byte peer-id, and zero
    bytes fill the buffer up to 68.  The length is [1 + pstrlen + 48] exactly
    when [pstrlen] is 19. *)
Theorem Serialize_layout h :
  well_formed h → (String.length (Pstr h) ≤ 19)%nat →
  let n := String.length (Pstr h) in
  let buf := byte_of_Z (Z.of_nat n) :: bytes_of (Pstr h) ++ Reserved h
             ++ InfoHash h ++ PeerID h ++ replicate (19 - n) zero in
  Serialize h = Return buf
  ∧ byte_val (byte_of_Z (Z.of_nat n)) = Z.of_nat n
  ∧ length buf = HandshakeLength
  ∧ (length buf = (1 + n + 48)%nat ↔ n = 19%nat).
Proof.
  intros (HR & HI & HP) Hn n buf.
  assert (length (bytes_of (Pstr h)) = n) as Hs by apply bytes_of_length.
  assert (length buf = 68%nat) as Hlen.
  { unfold buf. simpl. rewrite !length_app, length_replicate. lia. }
  split_and!;
    [|apply byte_of_Z_val; lia|done|unfold HandshakeLength in *; lia].
  unfold Serialize. fold n.
  change (replicate HandshakeLength zero) with (zero :: replicate 67 zero).
  cbn [bind].
  change (?b :: replicate 67 zero) with ([b] ++ replicate 67 zero).
  do 4 (rewrite copy_at_fill by (rewrite ?length_app; simpl; lia);
        cbn [must bind]).
  unfold buf. f_equal. simpl. rewrite <- !app_assoc.
  rewrite Hs, HR, HI, HP. do 6 f_equal. lia.
Qed.

(** The handshake of [NewHandshake]: 68 bytes and no padding. *)
Lemma Serialize_layout_witness :
  well_formed (NewHandshake (replicate 20 "h"%char) (replicate 20 "p"%char))
  ∧ (String.length ProtocolIdentifier ≤ 19)%nat
  ∧ Serialize (NewHandshake (replicate 20 "h"%char) (replicate 20 "p"%char))
    = Return ("019"%char :: bytes_of "BitTorrent protocol"
              ++ replicate 8 zero ++ replicate 20 "h"%char
              ++ replicate 20 "p"%char).
Proof.
  assert (well_formed (NewHandshake (replicate 20 "h"%char)
                                    (replicate 20 "p"%char))) as Hwf
    by (by vm_compute).
  assert (String.length ProtocolIdentifier ≤ 19)%nat as Hlen
    by (vm_compute; lia).
  split_and!; [exact Hwf|exact Hlen|].
  exact (proj1 (Serialize_layout _ Hwf Hlen)).
Defined.

(** C9.  On a handshake whose reserved bytes are all 0, setting
    [ExtensionDHT] makes byte 7 equal to 1 and leaves the other bytes 0;
    setting [ExtensionExtensions] as well makes byte 5 equal to 32 and changes
    nothing else; and setting an extension bit other than the three known
    ones changes no handshake at all. *)
Theorem SetExtension_reserved h :
  Reserved h = replicate 8 zero →
  byte_val <$> Reserved (SetExtension ExtensionDHT h)
  = [0; 0; 0; 0; 0; 0; 0; 1]
  ∧ byte_val <$> Reserved (SetExtension ExtensionExtensions
                             (SetExtension ExtensionDHT h))
    = [0; 0; 0; 0; 0; 32; 0; 1]
  ∧ ∀ (bit : ExtensionBit) (h' : Handshake),
      bit ≠ ExtensionDHT → bit ≠ ExtensionExtensions → bit ≠ ExtensionFast →
      SetExtension bit h' = h'.
Proof.
  intros H. split_and!.
  - simpl. by rewrite H.
  - simpl. by rewrite H.
  - intros bit h' H1 H2 H3. unfold SetExtension.
    by rewrite !(proj2 (N.eqb_neq _ _)).
Qed.

(** The handshake of the extension-bit test, and the unknown bit 3. *)
Lemma SetExtension_reserved_witness :
  Reserved (NewHandshake [] []) = replicate 8 zero
  ∧ byte_val <$> Reserved (SetExtension ExtensionExtensions
                             (SetExtension ExtensionDHT (NewHandshake [] [])))
    = [0; 0; 0; 0; 0; 32; 0; 1]
  ∧ SetExtension 3%N short_handshake = short_handshake.
Proof.
  assert (Reserved (NewHandshake [] []) = replicate 8 zero) as H by reflexivity.
  split; [exact H|].
  destruct (SetExtension_reserved _ H) as (_ & H2 & H3).
  split; [exact H2|].
  apply H3; discriminate.
Defined.

End PeerFacts.

(* ===================================================================== *)
(** * Facts about the compact peer list                                   *)
(* ===================================================================== *)

Module TrackerFacts.

Import Tracker GoFacts.

Lemma BigEndian_Uint16_val e f rest :
  BigEndian_Uint16 (e :: f :: rest) = Some (256 * byte_val e + byte_val f).
Proof. simpl. f_equal. apply lor_shiftl_8; apply byte_val_range. Qed.

Lemma peers_of_length peerData :
  Z.of_nat (length (peers_of peerData)) = Z.of_nat (length peerData) / 6.
Proof.
  remember (length peerData) as m eqn:Hm. revert peerData Hm.
  induction m as [m IH] using lt_wf_ind. intros peerData ->.
  destruct peerData as [|a [|b [|c [|d [|e [|f rest]]]]]]; try done.
  cbn [peers_of length].
  rewrite Nat2Z.inj_succ, (IH (length rest)) by (simpl; lia).
  replace (Z.of_nat (S (S (S (S (S (S (length rest))))))))
    with (Z.of_nat (length rest) + 1 * 6) by lia.
  rewrite Z.div_add by lia. lia.
Qed.

(** The loop, started at the beginning of group [j], appends the peers of
    the remaining groups; one unit of fuel per group is enough. *)
Lemma parsePeers_loop_spec peerData k j peers :
  (Z.of_nat (length peerData) mod 6 = 0) →
  (6 * j ≤ length peerData)%nat →
  (length peerData ≤ 6 * (j + k))%nat →
  parsePeers_loop peerData k (Z.of_nat (6 * j)) peers =
    Return (peers ++ peers_of (drop (6 * j) peerData), None).
Proof.
  intros Hmod. revert j peers.
  induction k as [|k IH]; intros j peers Hj Hk.
  - assert (length peerData = 6 * j)%nat as E by lia.
    cbn [parsePeers_loop].
    destruct (Z.of_nat (6 * j) <? _) eqn:Hlt; [apply Z.ltb_lt in Hlt; lia|].
    rewrite drop_ge by lia. by rewrite app_nil_r.
  - cbn [parsePeers_loop].
    destruct (Z.of_nat (6 * j) <? _) eqn:Hlt.
    2:{ apply Z.ltb_ge in Hlt. rewrite drop_ge by lia. by rewrite app_nil_r. }
    apply Z.ltb_lt in Hlt.
    assert (6 * j + 6 ≤ length peerData)%nat as Hfull.
    { apply Nat2Z.inj_le.
      pose proof (Z.div_mod (Z.of_nat (length peerData)) 6 ltac:(lia)). lia. }
    pose proof (length_drop peerData (6 * j)) as Hd.
    destruct (drop (6 * j) peerData) as [|a [|b [|c [|d [|e [|f rest]]]]]]
      eqn:Hdrop; simpl in Hd; try lia.
    assert (∀ (t : nat) (i : Z), i = Z.of_nat (6 * j) + Z.of_nat t →
              index peerData i = (a :: b :: c :: d :: e :: f :: rest) !! t)
      as Hidx.
    { intros t i ->. unfold index.
      destruct (_ <? 0) eqn:E; [apply Z.ltb_lt in E; lia|].
      rewrite <- Hdrop, lookup_drop. f_equal. lia. }
    rewrite (Hidx 0%nat (Z.of_nat (6 * j))) by lia.
    rewrite (Hidx 1%nat (Z.of_nat (6 * j) + 1)) by lia.
    rewrite (Hidx 2%nat (Z.of_nat (6 * j) + 2)) by lia.
    rewrite (Hidx 3%nat (Z.of_nat (6 * j) + 3)) by lia.
    cbn [lookup list_lookup must bind].
    assert (slice peerData (Z.of_nat (6 * j) + 4) (Z.of_nat (6 * j) + 6)
            = Some [e; f]) as ->.
    { unfold slice.
      decide_test ((0 <=? Z.of_nat (6 * j) + 4)
                   && (Z.of_nat (6 * j) + 4 <=? Z.of_nat (6 * j) + 6)
                   && (Z.of_nat (6 * j) + 6 <=? Z.of_nat (length peerData)))
                  true.
      replace (Z.to_nat (Z.of_nat (6 * j) + 4)) with (6 * j + 4)%nat by lia.
      rewrite <- drop_drop, Hdrop. f_equal.
      replace (Z.to_nat _) with 2%nat by lia. done. }
    cbn [must bind]. rewrite BigEndian_Uint16_val. cbn [must bind].
    replace (Z.of_nat (6 * j) + 6) with (Z.of_nat (6 * (S j))) by lia.
    rewrite IH by lia.
    replace (6 * S j)%nat with (6 * j + 6)%nat by lia.
    rewrite <- drop_drop, Hdrop. cbn [drop peers_of].
    by rewrite <- app_assoc.
Qed.

(** C8.  On a string whose length is a multiple of 6, [parsePeers] returns
    the peers of its 6-byte groups, in order: as many as there are groups,
    each with the first 4 bytes as the address and the last 2 as the
    big-endian port.  On any other string it fails with the
    invalid-peer-list-length error.  The 12 bytes of the tracker test decode
    to 127.0.0.1:6881 and then 192.168.0.1:6881. *)
Theorem parsePeers_spec compactPeers :
  let peerData := bytes_of compactPeers in
  let n := Z.of_nat (length peerData) in
  (n mod 6 = 0 →
   parsePeers compactPeers = Return (peers_of peerData, None)
   ∧ Z.of_nat (length (peers_of peerData)) = n / 6)
  ∧ (n mod 6 ≠ 0 →
     parsePeers compactPeers = Return ([], Some (ErrPeerListLength n)))
  ∧ parsePeers example_peers =
      Return ([ {| IP := net_IPv4 "127" "000" "000" "001"; Port := 6881 |};
                {| IP := net_IPv4 "192" "168" "000" "001"; Port := 6881 |} ],
              None).
Proof.
  intros peerData n. split_and!.
  - intros H. split; [|apply peers_of_length].
    unfold parsePeers. fold peerData. fold n.
    rewrite Z.rem_mod_nonneg by lia. rewrite H. simpl negb. cbv iota.
    apply (parsePeers_loop_spec peerData (length peerData) 0 []); [done|lia..].
  - intros H. unfold parsePeers. fold peerData. fold n.
    rewrite Z.rem_mod_nonneg by lia.
    by decide_test (n mod 6 =? 0) false.
  - by vm_compute.
Qed.

(** One group of 6 bytes, and a string of 5 bytes. *)
Lemma parsePeers_spec_witness :
  parsePeers "abcdef"
  = Return ([ {| IP := net_IPv4 "a" "b" "c" "d"; Port := 25958 |} ], None)
  ∧ parsePeers "abcde" = Return ([], Some (ErrPeerListLength 5)).
Proof.
  split.
  - refine (proj1 (proj1 (parsePeers_spec "abcdef") _)). by vm_compute.
  - refine (proj1 (proj2 (parsePeers_spec "abcde")) _). by vm_compute.
Defined.

End TrackerFacts.

(* ===================================================================== *)
(** * Facts about encoding/binary and io                                *)
(* ===================================================================== *)

Module BinaryFacts.

Import GoFacts.

Lemma byte_of_Z_mod n : byte_val (byte_of_Z n) = n mod 256.
Proof.
  unfold byte_val, byte_of_Z.
  pose proof (Z.mod_pos_bound n 256).
  rewrite N_ascii_embedding; lia.
Qed.

Lemma BigEndian_PutUint32_length v : length (BigEndian_PutUint32 v) = 4%nat.
Proof. done. Qed.

(** [x | y<<k] is [x + 2^k * y] when [x] has fewer than [k] bits. *)
Lemma lor_shiftl_add x y k :
  0 ≤ x < 2 ^ k → 0 ≤ k → 0 ≤ y → Z.lor x (Z.shiftl y k) = x + 2 ^ k * y.
Proof.
  intros Hx Hk Hy.
  assert (Z.land x (Z.shiftl y k) = 0) as Hland.
  { apply Z.bits_inj'. intros i Hi.
    rewrite Z.land_spec, Z.bits_0.
    destruct (Z.lt_ge_cases i k).
    - rewrite Z.shiftl_spec_low by lia. apply andb_false_r.
    - replace (Z.testbit x i) with false; [done|].
      symmetry. destruct (decide (x = 0)) as [->|]; [apply Z.bits_0|].
      apply Z.bits_above_log2; [lia|].
      apply Z.log2_lt_pow2; [lia|].
      assert (2 ^ k ≤ 2 ^ i) by (apply Z.pow_le_mono_r; lia). lia. }
  pose proof (Z.add_lor_land x (Z.shiftl y k)) as H.
  rewrite Hland, Z.shiftl_mul_pow2 in * by lia. lia.
Qed.

(** Reading back what [PutUint32] wrote, whatever follows the four bytes. *)
Lemma BigEndian_Uint32_PutUint32 v rest :
  0 ≤ v < 2 ^ 32 →
  BigEndian_Uint32 (BigEndian_PutUint32 v ++ rest) = Some v.
Proof.
  intros Hv. unfold BigEndian_PutUint32. cbn [app BigEndian_Uint32].
  f_equal. rewrite !byte_of_Z_mod, !Z.shiftr_div_pow2 by lia.
  set (b3 := v mod 256). set (b2 := (v / 2 ^ 8) mod 256).
  set (b1 := (v / 2 ^ 16) mod 256). set (b0 := (v / 2 ^ 24) mod 256).
  assert (0 ≤ b3 < 256 ∧ 0 ≤ b2 < 256 ∧ 0 ≤ b1 < 256 ∧ 0 ≤ b0 < 256)
    as (H3 & H2 & H1 & H0)
    by (subst b0 b1 b2 b3; split_and!; apply Z.mod_pos_bound; lia).
  assert (v = b3 + 256 * (b2 + 256 * (b1 + 256 * b0))) as Hsum.
  { subst b0 b1 b2 b3.
    change (2 ^ 8) with 256. change (2 ^ 16) with (256 * 256).
    change (2 ^ 24) with (256 * 256 * 256).
    rewrite <- !Z.div_div by lia.
    pose proof (Z.div_mod v 256). pose proof (Z.div_mod (v / 256) 256).
    pose proof (Z.div_mod (v / 256 / 256) 256).
    assert (v / 256 / 256 / 256 < 256).
    { rewrite !Z.div_div by lia. apply Z.div_lt_upper_bound; lia. }
    assert (0 ≤ v / 256 / 256 / 256).
    { rewrite !Z.div_div by lia. apply Z.div_pos; lia. }
    rewrite (Z.mod_small (v / 256 / 256 / 256)) by lia. lia. }
  rewrite (lor_shiftl_add b3 b2 8), (lor_shiftl_add _ b1 16),
    (lor_shiftl_add _ b0 24) by lia.
  lia.
Qed.

Lemma PutUint32_at_fill pre k off v :
  off = length pre → (4 ≤ k)%nat →
  PutUint32_at (pre ++ replicate k zero) off v =
    Some ((pre ++ BigEndian_PutUint32 v) ++ replicate (k - 4) zero).
Proof.
  intros -> Hk. unfold PutUint32_at.
  rewrite length_app, length_replicate.
  decide_test (length pre + 4 <=? length pre + k)%nat true.
  by rewrite (copy_at_fill zero pre k) by done.
Qed.

Lemma ReadFull_app (buf rest : bytes) n :
  n = length buf → ReadFull (buf ++ rest) n = inl (buf, rest).
Proof.
  intros ->. unfold ReadFull. rewrite length_app.
  decide_test (length buf <=? length buf + length rest)%nat true.
  by rewrite take_app_length, drop_app_length.
Qed.

Lemma BigEndian_Uint32_sum b0 b1 b2 b3 rest :
  BigEndian_Uint32 (b0 :: b1 :: b2 :: b3 :: rest) =
    Some (byte_val b3 + 256 * (byte_val b2
            + 256 * (byte_val b1 + 256 * byte_val b0))).
Proof.
  cbn [BigEndian_Uint32]. f_equal.
  pose proof (byte_val_range b0). pose proof (byte_val_range b1).
  pose proof (byte_val_range b2). pose proof (byte_val_range b3).
  rewrite (lor_shiftl_add _ _ 8), (lor_shiftl_add _ _ 16),
    (lor_shiftl_add _ _ 24) by lia.
  lia.
Qed.

Lemma byte_of_Z_byte_val c : byte_of_Z (byte_val c) = c.
Proof.
  unfold byte_of_Z, byte_val. pose proof (N_ascii_bounded c).
  rewrite Z.mod_small, N2Z.id by lia. apply ascii_N_embedding.
Qed.

Lemma byte_of_Z_add c k : byte_of_Z (byte_val c + 256 * k) = c.
Proof.
  rewrite <- (byte_of_Z_byte_val c) at 2. unfold byte_of_Z.
  by rewrite (Z.mul_comm 256), Z.mod_add by lia.
Qed.

(** [PutUint32] writes back the four bytes that [Uint32] has read. *)
Lemma BigEndian_PutUint32_Uint32 b0 b1 b2 b3 rest v :
  BigEndian_Uint32 (b0 :: b1 :: b2 :: b3 :: rest) = Some v →
  BigEndian_PutUint32 v = [b0; b1; b2; b3] ∧ 0 ≤ v < 2 ^ 32.
Proof.
  rewrite BigEndian_Uint32_sum. intros [= <-].
  pose proof (byte_val_range b0). pose proof (byte_val_range b1).
  pose proof (byte_val_range b2). pose proof (byte_val_range b3).
  split; [|lia]. unfold BigEndian_PutUint32.
  set (v := _ + _). rewrite !Z.shiftr_div_pow2 by lia.
  assert (v / 2 ^ 8 = byte_val b2 + 256 * (byte_val b1 + 256 * byte_val b0))
    as -> by (symmetry; apply (Z.div_unique _ _ _ (byte_val b3)); lia).
  assert (v / 2 ^ 16 = byte_val b1 + 256 * byte_val b0) as ->
    by (symmetry;
        apply (Z.div_unique _ _ _ (byte_val b3 + 256 * byte_val b2)); lia).
  assert (v / 2 ^ 24 = byte_val b0) as ->
    by (symmetry;
        apply (Z.div_unique _ _ _
                 (byte_val b3 + 256 * (byte_val b2 + 256 * byte_val b1)));
        lia).
  subst v. by rewrite !byte_of_Z_add, byte_of_Z_byte_val.
Qed.

Lemma ReadFull_inl r n buf r' :
  ReadFull r n = inl (buf, r') → r = buf ++ r' ∧ length buf = n.
Proof.
  unfold ReadFull. destruct (n <=? length r)%nat eqn:E.
  - intros [= <- <-]. apply Nat.leb_le in E.
    by rewrite take_drop, length_take_le.
  - by destruct r.
Qed.

Lemma ReadFull_short (r : bytes) n :
  (length r < n)%nat →
  ReadFull r n = inr (match r with [] => EOF | _ => ErrUnexpectedEOF end).
Proof.
  intros H. unfold ReadFull. decide_test (n <=? length r)%nat false.
  by destruct r.
Qed.

Lemma slice_app_mid {A} (a b c : list A) lo hi :
  lo = Z.of_nat (length a) → hi = Z.of_nat (length a + length b) →
  slice (a ++ b ++ c) lo hi = Some b.
Proof.
  intros -> ->. unfold slice. rewrite !length_app.
  decide_test ((0 <=? Z.of_nat (length a))
     && (Z.of_nat (length a) <=? Z.of_nat (length a + length b))
     && (Z.of_nat (length a + length b)
           <=? Z.of_nat (length a + (length b + length c)))) true.
  rewrite Nat2Z.id, drop_app_length.
  replace (Z.to_nat _) with (length b) by lia.
  by rewrite take_app_length.
Qed.

Lemma string_of_bytes_of s : string_of (bytes_of s) = s.
Proof. apply string_of_list_ascii_of_string. Qed.

Lemma bytes_of_string_of l : bytes_of (string_of l) = l.
Proof. apply list_ascii_of_string_of_list_ascii. Qed.

End BinaryFacts.

(* ===================================================================== *)
(** * The peer wire messages                                            *)
(* ===================================================================== *)

Module MessageFacts.

Import Message GoFacts BinaryFacts.

Lemma Serialize_message_buffer m :
  Length m ≠ 0 →
  Serialize m =
    Return (BigEndian_PutUint32 (Length m)
              ++ byte_of_Z (Type_ m) :: Payload m).
Proof.
  intros H. unfold Serialize. decide_test (Length m =? 0) false.
  cbv zeta.
  rewrite (PutUint32_at_fill [] (4 + 1 + length (Payload m))) by (done || lia).
  cbn [must bind app]. unfold store. cbn [length replicate Nat.add Nat.sub].
  rewrite length_app, BigEndian_PutUint32_length. cbn [length].
  decide_test (4 <? 4 + S (length (replicate (length (Payload m)) zero)))%nat
    true.
  cbn [must bind]. rewrite (insert_app_r_alt _ _ 4) by done.
  rewrite BigEndian_PutUint32_length. cbn [Nat.sub insert list_insert].
  destruct (0 <? length (Payload m))%nat eqn:E.
  2:{ apply Nat.ltb_ge in E. by destruct (Payload m); [|cbn in E; lia]. }
  replace (BigEndian_PutUint32 (Length m)
             ++ byte_of_Z (Type_ m) :: replicate (length (Payload m)) zero)
    with ((BigEndian_PutUint32 (Length m) ++ [byte_of_Z (Type_ m)])
            ++ replicate (length (Payload m)) zero)
    by by rewrite <- app_assoc.
  rewrite (copy_at_fill zero
             (BigEndian_PutUint32 (Length m) ++ [byte_of_Z (Type_ m)])
             (length (Payload m)) (Payload m) 5)
    by (rewrite ?length_app; done).
  rewrite Nat.sub_diag. cbn [must bind replicate].
    by rewrite app_nil_r, <- app_assoc.
Qed.

Lemma FormatMessage_Length ty payload :
  Z.of_nat (length payload) < 2 ^ 32 - 1 →
  Length (FormatMessage ty payload) = 1 + Z.of_nat (length payload).
Proof.
  intros H. unfold FormatMessage, wrap32. cbn [Length].
  rewrite (Z.mod_small 1), (Z.mod_small (Z.of_nat _)), Z.mod_small; lia.
Qed.

(** What [ReadMessage] makes of a length prefix [n > 0] followed by the type
    byte and [n - 1] payload bytes. *)
Lemma ReadMessage_frame n c payload rest :
  0 < n < 2 ^ 32 → n = 1 + Z.of_nat (length payload) →
  ReadMessage (BigEndian_PutUint32 n ++ c :: payload ++ rest) =
    Return (inl ({| Length := n; Type_ := byte_val c; Payload := payload |},
                 rest)).
Proof.
  intros Hn Hlen. unfold ReadMessage.
  rewrite ReadFull_app by done.
  rewrite <- (app_nil_r (BigEndian_PutUint32 n)),
    BigEndian_Uint32_PutUint32 by lia.
  cbn [must bind]. decide_test (n =? 0) false.
  rewrite (ReadFull_app (c :: payload) rest)
    by (cbn [length]; lia).
  cbn [index]. cbn [must bind lookup list_lookup Z.ltb Z.compare Z.to_nat].
  destruct (1 <? n) eqn:E.
  - rewrite slice_suffix by (cbn [length]; lia). by cbn.
  - apply Z.ltb_ge in E. destruct payload; [done|]. cbn [length] in Hlen. lia.
Qed.

(** X3.  [Serialize] always returns, and the wire format is four zero bytes
    for a message whose [Length] is 0 and otherwise the big-endian [Length],
    the type byte and the payload. The size of the output follows the
    payload, not the [Length] field. *)
Theorem Serialize_wire m :
  Serialize m =
    Return (if Length m =? 0 then replicate 4 zero
            else BigEndian_PutUint32 (Length m)
                   ++ byte_of_Z (Type_ m) :: Payload m).
Proof.
  destruct (Length m =? 0) eqn:E.
  - unfold Serialize. by rewrite E.
  - apply Z.eqb_neq in E. by apply Serialize_message_buffer.
Qed.

(** X4.  A message built by [FormatMessage] from a type and a payload of
    fewer than [2^32 - 1] bytes, serialized and followed by any bytes, is
    read back by [ReadMessage] as the same message, and the reader is left
    at the bytes that followed. *)
Theorem ReadMessage_Serialize ty payload rest :
  0 ≤ ty < 256 → Z.of_nat (length payload) < 2 ^ 32 - 1 →
  ∃ buf, Serialize (FormatMessage ty payload) = Return buf
         ∧ ReadMessage (buf ++ rest)
           = Return (inl (FormatMessage ty payload, rest)).
Proof.
  intros Hty Hlen. pose proof (FormatMessage_Length ty payload Hlen) as HL.
  eexists. split; [apply Serialize_message_buffer; lia|].
  change (Payload (FormatMessage ty payload)) with payload.
  change (Type_ (FormatMessage ty payload)) with ty.
  rewrite <- app_assoc. cbn [app].
  rewrite ReadMessage_frame by (rewrite ?HL; lia).
  rewrite byte_of_Z_val by done.
  reflexivity.
Qed.

Lemma ReadMessage_Serialize_witness :
  ∃ buf, Serialize (FormatMessage MsgHave (BigEndian_PutUint32 7)) = Return buf
         ∧ ReadMessage (buf ++ ["x"%char])
           = Return (inl (FormatMessage MsgHave (BigEndian_PutUint32 7),
                          ["x"%char])).
Proof.
  apply (ReadMessage_Serialize MsgHave (BigEndian_PutUint32 7) ["x"%char]).
  - by vm_compute.
  - by vm_compute.
Defined.

(** X5.  [ReadMessage] never panics. A message that it returns is the
    keep-alive message or has a [Length] of one plus the size of its
    payload, and serializing it gives back exactly the bytes that were
    consumed from the reader. *)
Theorem ReadMessage_sound r :
  ReadMessage r ≠ Panic
  ∧ ∀ m r', ReadMessage r = Return (inl (m, r')) →
      (m = KeepAliveMessage
       ∨ (Length m = 1 + Z.of_nat (length (Payload m)) ∧ Length m < 2 ^ 32
          ∧ 0 ≤ Type_ m < 256))
      ∧ ∃ buf, Serialize m = Return buf ∧ r = buf ++ r'.
Proof.
  unfold ReadMessage.
  destruct (ReadFull r 4) as [[lengthBuf r1]|err] eqn:E1; [|done].
  apply ReadFull_inl in E1 as [-> Hlen].
  destruct lengthBuf as [|b0 [|b1 [|b2 [|b3 [|]]]]]; try done.
  destruct (BigEndian_Uint32 [b0; b1; b2; b3]) as [n|] eqn:En;
    [|by rewrite BigEndian_Uint32_sum in En].
  apply BigEndian_PutUint32_Uint32 in En as [Hput Hn].
  cbn [must bind]. destruct (n =? 0) eqn:E0.
  { apply Z.eqb_eq in E0 as ->. split; [done|]. intros m r' [= <- <-].
    split; [by left|]. exists (replicate 4 zero). split; [done|].
    by rewrite <- Hput. }
  apply Z.eqb_neq in E0.
  destruct (ReadFull r1 (Z.to_nat n)) as [[messageBuf r2]|err] eqn:E2; [|done].
  apply ReadFull_inl in E2 as [-> Hlen2].
  destruct messageBuf as [|c payload]; [cbn in Hlen2; lia|].
  cbn [length] in Hlen2.
  cbn [index]. cbn [must bind lookup list_lookup Z.ltb Z.compare Z.to_nat].
  assert ((if 1 <? n
           then must (slice (c :: payload) 1 (Z.of_nat (length (c :: payload))))
           else Return []) = Return payload) as ->.
  { destruct (1 <? n) eqn:E.
    - by rewrite slice_suffix by (cbn [length]; lia).
    - apply Z.ltb_ge in E. destruct payload; [done|].
      cbn [length] in Hlen2. lia. }
  cbn [bind]. split; [done|]. intros m r' [= <- <-].
  pose proof (byte_val_range c). split.
  - right. cbn [Length Payload Type_]. lia.
  - eexists. split; [apply Serialize_message_buffer; done|].
    cbn [Length Payload Type_]. by rewrite Hput, byte_of_Z_byte_val.
Qed.

(** X6.  On a stream that ends inside a message, [ReadMessage] returns an
    error and no message: [io.EOF] when the stream ends before the first
    byte or right after the four length bytes, and [io.ErrUnexpectedEOF] at
    any other place. *)
Theorem ReadMessage_truncated ty payload buf n :
  Z.of_nat (length payload) < 2 ^ 32 - 1 →
  Serialize (FormatMessage ty payload) = Return buf →
  (n < length buf)%nat →
  ReadMessage (take n buf) =
    Return (inr (if bool_decide (n = 0 ∨ n = 4)%nat then EOF
                 else ErrUnexpectedEOF)).
Proof.
  intros Hlen Hbuf Hn.
  pose proof (FormatMessage_Length ty payload Hlen) as HL.
  rewrite Serialize_message_buffer in Hbuf by lia.
  change (Payload (FormatMessage ty payload)) with payload in *.
  set (L := Length (FormatMessage ty payload)) in *.
  set (c := byte_of_Z _) in *.
  assert (buf = BigEndian_PutUint32 L ++ c :: payload) as -> by congruence.
  clear Hbuf. rewrite length_app, BigEndian_PutUint32_length in Hn.
  cbn [length] in Hn.
  unfold ReadMessage.
  destruct (decide (n < 4)%nat) as [Hlt|Hge].
  - rewrite ReadFull_short
      by (rewrite length_take, length_app, BigEndian_PutUint32_length; lia).
    destruct n as [|n]; [by rewrite bool_decide_eq_true_2 by lia|].
    rewrite bool_decide_eq_false_2 by lia. done.
  - rewrite take_app_ge by (rewrite BigEndian_PutUint32_length; lia).
    rewrite BigEndian_PutUint32_length.
    rewrite ReadFull_app by done.
    rewrite <- (app_nil_r (BigEndian_PutUint32 L)),
      BigEndian_Uint32_PutUint32 by lia.
    cbn [must bind]. decide_test (L =? 0) false.
    rewrite ReadFull_short by (rewrite length_take; cbn [length]; lia).
    destruct (decide (n = 4)%nat) as [->|Hne].
    + by rewrite bool_decide_eq_true_2 by lia.
    + rewrite bool_decide_eq_false_2 by lia.
      destruct (n - 4)%nat as [|k] eqn:E; [lia|]. done.
Qed.

Lemma ReadMessage_truncated_witness :
  ReadMessage (take 4 (BigEndian_PutUint32 2 ++ ["005"; "001"]%char)) =
    Return (inr EOF).
Proof.
  apply (ReadMessage_truncated MsgBitfield ["001"%char]
           (BigEndian_PutUint32 2 ++ ["005"; "001"]%char) 4).
  - by vm_compute.
  - by vm_compute.
  - cbn. lia.
Defined.

(** X7.  [ParseHave] returns the index [index] without error exactly for the
    messages of type [MsgHave] whose payload is the four-byte big-endian
    encoding of [index]; the [Length] field is not looked at. *)
Theorem ParseHave_spec msg index :
  ParseHave msg = Return (index, None) ↔
  Type_ msg = MsgHave ∧ 0 ≤ index < 2 ^ 32
  ∧ Payload msg = BigEndian_PutUint32 index.
Proof.
  unfold ParseHave. split.
  - destruct (Type_ msg =? MsgHave) eqn:Et; [|done].
    apply Z.eqb_eq in Et. cbn [negb].
    destruct (length (Payload msg) =? 4)%nat eqn:El; [|done].
    apply Nat.eqb_eq in El. cbn [negb].
    destruct (Payload msg) as [|b0 [|b1 [|b2 [|b3 [|]]]]]; try done.
    destruct (BigEndian_Uint32 _) as [v|] eqn:Ev; [|done].
    intros [= ->]. by apply BigEndian_PutUint32_Uint32 in Ev as [-> ?].
  - intros (-> & Hi & ->). cbn [negb Z.eqb MsgHave].
    change (length (BigEndian_PutUint32 index) =? 4)%nat with true.
    cbn [negb].
    rewrite <- (app_nil_r (BigEndian_PutUint32 index)),
      BigEndian_Uint32_PutUint32 by done.
    done.
Qed.

(** X8.  [ParsePiece] returns [begin] and [data] without error exactly for
    the messages of type [MsgPiece] whose payload is the big-endian expected
    piece index, the big-endian [begin] and then [data]. *)
Theorem ParsePiece_spec pieceIndex msg begin data :
  ParsePiece pieceIndex msg = Return (begin, data, None) ↔
  Type_ msg = MsgPiece ∧ 0 ≤ pieceIndex < 2 ^ 32 ∧ 0 ≤ begin < 2 ^ 32
  ∧ Payload msg =
      BigEndian_PutUint32 pieceIndex ++ BigEndian_PutUint32 begin ++ data.
Proof.
  unfold ParsePiece. split.
  - destruct (Type_ msg =? MsgPiece) eqn:Et; [|done].
    apply Z.eqb_eq in Et. cbn [negb].
    destruct (length (Payload msg) <? 8)%nat eqn:El; [done|].
    apply Nat.ltb_ge in El.
    destruct (Payload msg)
      as [|b0 [|b1 [|b2 [|b3 [|b4 [|b5 [|b6 [|b7 rest]]]]]]]];
      try (cbn [length] in El; lia).
    rewrite slice_suffix by (cbn [length]; lia).
    unfold slice. cbn [length].
    decide_test ((0 <=? 0) && (0 <=? 4)
       && (4 <=? Z.of_nat (S (S (S (S (S (S (S (S (length rest)))))))))))
      true.
    decide_test ((0 <=? 4) && (4 <=? 8)
       && (8 <=? Z.of_nat (S (S (S (S (S (S (S (S (length rest)))))))))))
      true.
    change (take (Z.to_nat (4 - 0)) (drop (Z.to_nat 0) ?l)) with (take 4 l).
    cbn [must bind Z.sub Z.opp Z.add Z.pos_sub Z.to_nat Pos.to_nat
         Pos.iter_op Nat.add Pos.pred_double take drop].
    destruct (BigEndian_Uint32 [b0; b1; b2; b3]) as [v|] eqn:Ev; [|done].
    cbn [must bind]. destruct (v =? pieceIndex) eqn:E; [|done].
    apply Z.eqb_eq in E as ->. cbn [negb].
    change (take (Z.to_nat (8 - 4)) (drop (Z.to_nat 4) ?l))
      with (take 4 (drop 4 l)).
    change (drop (Z.to_nat 8) ?l) with (drop 8 l). cbn [firstn skipn].
    rewrite take_0, drop_0.
    destruct (BigEndian_Uint32 [b4; b5; b6; b7]) as [w|] eqn:Ew; [|done].
    cbn [must bind]. intros [= -> ->].
    apply BigEndian_PutUint32_Uint32 in Ev as [-> ?].
    apply BigEndian_PutUint32_Uint32 in Ew as [-> ?]. done.
  - intros (-> & Hi & Hb & ->). cbn [negb Z.eqb MsgPiece].
    rewrite slice_suffix
      by (rewrite !length_app, !BigEndian_PutUint32_length; lia).
    unfold slice. rewrite !length_app, !BigEndian_PutUint32_length.
    decide_test (4 + (4 + length data) <? 8)%nat false.
    decide_test ((0 <=? 0) && (0 <=? 4)
                 && (4 <=? Z.of_nat (4 + (4 + length data)))) true.
    decide_test ((0 <=? 4) && (4 <=? 8)
                 && (8 <=? Z.of_nat (4 + (4 + length data)))) true.
    change (take (Z.to_nat (4 - 0)) (drop (Z.to_nat 0) ?l)) with (take 4 l).
    change (take (Z.to_nat (8 - 4)) (drop (Z.to_nat 4) ?l))
      with (take 4 (drop 4 l)).
    change (drop (Z.to_nat 8) ?l) with (drop 8 l).
    cbn [must bind app BigEndian_PutUint32 firstn skipn].
    pose proof (BigEndian_Uint32_PutUint32 pieceIndex [] Hi) as H1.
    pose proof (BigEndian_Uint32_PutUint32 begin [] Hb) as H2.
    cbn [app BigEndian_PutUint32] in H1, H2. rewrite H1. cbn [must bind].
    rewrite Z.eqb_refl. cbn [negb]. rewrite take_0, drop_0, H2. done.
Qed.

(** X9.  [RequestMessage] returns a message of length 13 and type
    [MsgRequest] whose 12-byte payload holds the index, the offset and the
    block length in this order, each read back by [binary.BigEndian.Uint32]. *)
Theorem RequestMessage_fields index begin length :
  0 ≤ index < 2 ^ 32 → 0 ≤ begin < 2 ^ 32 → 0 ≤ length < 2 ^ 32 →
  ∃ m, RequestMessage index begin length = Return m
       ∧ Length m = 13 ∧ Type_ m = MsgRequest
       ∧ Payload m = BigEndian_PutUint32 index ++ BigEndian_PutUint32 begin
                       ++ BigEndian_PutUint32 length
       ∧ (slice (Payload m) 0 4 ≫= BigEndian_Uint32) = Some index
       ∧ (slice (Payload m) 4 8 ≫= BigEndian_Uint32) = Some begin
       ∧ (slice (Payload m) 8 12 ≫= BigEndian_Uint32) = Some length.
Proof.
  intros Hi Hb Hl. eexists. split_and!.
  - unfold RequestMessage. cbv zeta.
    rewrite (PutUint32_at_fill [] 12) by (done || lia).
    cbn [must bind app Nat.sub].
    rewrite (PutUint32_at_fill (BigEndian_PutUint32 index) 8) by (done || lia).
    cbn [must bind Nat.sub].
    rewrite (PutUint32_at_fill (_ ++ _) 4) by (done || lia).
    cbn [must bind Nat.sub replicate]. rewrite app_nil_r, <- app_assoc.
    reflexivity.
  - done.
  - done.
  - done.
  - cbn [Payload FormatMessage].
    pose proof (slice_app_mid [] (BigEndian_PutUint32 index)
                  (BigEndian_PutUint32 begin ++ BigEndian_PutUint32 length)
                  0 4 eq_refl eq_refl) as H.
    cbn [app] in H. rewrite H.
    apply (BigEndian_Uint32_PutUint32 index []), Hi.
  - cbn [Payload FormatMessage].
    rewrite (slice_app_mid (BigEndian_PutUint32 index)
               (BigEndian_PutUint32 begin)) by done.
    apply (BigEndian_Uint32_PutUint32 begin []), Hb.
  - cbn [Payload FormatMessage]. rewrite app_assoc.
    rewrite <- (app_nil_r (BigEndian_PutUint32 length)) at 1.
    rewrite (slice_app_mid (_ ++ _) (BigEndian_PutUint32 length) []) by done.
    apply (BigEndian_Uint32_PutUint32 length []), Hl.
Qed.

Lemma RequestMessage_fields_witness :
  ∃ m, RequestMessage 1 16384 16384 = Return m
       ∧ Length m = 13 ∧ Type_ m = MsgRequest
       ∧ Payload m = BigEndian_PutUint32 1 ++ BigEndian_PutUint32 16384
                       ++ BigEndian_PutUint32 16384
       ∧ (slice (Payload m) 0 4 ≫= BigEndian_Uint32) = Some 1
       ∧ (slice (Payload m) 4 8 ≫= BigEndian_Uint32) = Some 16384
       ∧ (slice (Payload m) 8 12 ≫= BigEndian_Uint32) = Some 16384.
Proof. apply (RequestMessage_fields 1 16384 16384); lia. Defined.

End MessageFacts.

(* ===================================================================== *)
(** * The handshake: parsing and the connection                         *)
(* ===================================================================== *)

Module HandshakeFacts.

Import Peer GoFacts BinaryFacts.

(** The buffer that [Serialize] fills for a protocol string of at most 19
    bytes. *)
Lemma Serialize_handshake_buffer h :
  well_formed h → (String.length (Pstr h) ≤ 19)%nat →
  Serialize h =
    Return (byte_of_Z (Z.of_nat (String.length (Pstr h)))
              :: bytes_of (Pstr h) ++ Reserved h ++ InfoHash h ++ PeerID h
              ++ replicate (19 - String.length (Pstr h)) zero).
Proof.
  intros (HR & HI & HP) Hn.
  assert (length (bytes_of (Pstr h)) = String.length (Pstr h)) as Hs
    by apply bytes_of_length.
  unfold Serialize.
  change (replicate HandshakeLength zero) with (zero :: replicate 67 zero).
  cbn [bind].
  change (?b :: replicate 67 zero) with ([b] ++ replicate 67 zero).
  do 4 (rewrite copy_at_fill by (rewrite ?length_app; simpl; lia);
        cbn [must bind]).
  f_equal. simpl. rewrite <- !app_assoc.
  rewrite Hs, HR, HI, HP. do 6 f_equal. lia.
Qed.

(** Copying a full array: [copy(a[:], src)] with [len(src) = len(a)]. *)
Lemma copy_at_full {A} (z : A) n (src : list A) :
  length src = n → copy_at (replicate n z) 0 src = Some src.
Proof.
  intros <-.
  rewrite <- (app_nil_l (replicate _ _)), (copy_at_fill z []) by done.
  by rewrite Nat.sub_diag, app_nil_r.
Qed.

(** What [ParseHandshake] makes of a length byte [p > 0] followed by [p]
    bytes of protocol string and the three arrays. *)
Lemma ParseHandshake_frame c pstr reserved infoHash peerID rest :
  byte_val c = Z.of_nat (length pstr) → pstr ≠ [] →
  length reserved = 8%nat → length infoHash = 20%nat →
  length peerID = 20%nat →
  ParseHandshake (c :: pstr ++ reserved ++ infoHash ++ peerID ++ rest) =
    Return (inl ({| Pstr := string_of pstr; Reserved := reserved;
                    InfoHash := infoHash; PeerID := peerID |}, rest)).
Proof.
  intros Hc Hne HR HI HP. unfold ParseHandshake.
  pose proof (ReadFull_app [c] (pstr ++ reserved ++ infoHash ++ peerID ++ rest)
                1 eq_refl) as H0.
  cbn [app] in H0. rewrite H0. clear H0.
  cbn [index must bind lookup list_lookup Z.ltb Z.compare Z.to_nat].
  change ([c] !! Z.to_nat 0) with (Some c). cbn [must bind]. rewrite Hc.
  assert (0 < length pstr)%nat by (destruct pstr; [done|cbn; lia]).
  decide_test (Z.of_nat (length pstr) =? 0) false.
  replace (pstr ++ reserved ++ infoHash ++ peerID ++ rest)
    with ((pstr ++ reserved ++ infoHash ++ peerID) ++ rest)
    by (by rewrite <- !app_assoc).
  rewrite ReadFull_app by (rewrite !length_app; lia).
  pose proof (slice_app_mid [] pstr (reserved ++ infoHash ++ peerID)
                0 (Z.of_nat (length pstr)) eq_refl eq_refl) as H1.
  cbn [app] in H1. rewrite H1. clear H1. cbn [must bind].
  rewrite (slice_app_mid pstr reserved) by lia. cbn [must bind].
  rewrite copy_at_full by done. cbn [must bind].
  rewrite (app_assoc pstr reserved).
  rewrite (slice_app_mid (pstr ++ reserved) infoHash)
    by (rewrite ?length_app; lia).
  cbn [must bind]. rewrite copy_at_full by done. cbn [must bind].
  rewrite (app_assoc (pstr ++ reserved) infoHash).
  rewrite <- (app_nil_r peerID) at 1 2.
  rewrite (slice_app_mid _ peerID [])
    by (rewrite ?length_app; cbn [length]; lia).
  cbn [must bind]. rewrite copy_at_full by done. done.
Qed.

Lemma split_handshake (buf : bytes) p :
  length buf = (p + 48)%nat →
  ∃ pstr reserved infoHash peerID,
    buf = pstr ++ reserved ++ infoHash ++ peerID
    ∧ length pstr = p ∧ length reserved = 8%nat
    ∧ length infoHash = 20%nat ∧ length peerID = 20%nat.
Proof.
  intros H.
  exists (take p buf), (take 8 (drop p buf)), (take 20 (drop (p + 8) buf)),
    (drop (p + 28) buf).
  split_and!.
  - rewrite <- (take_drop p buf) at 1. f_equal.
    rewrite <- (take_drop 8 (drop p buf)) at 1. f_equal.
    rewrite drop_drop.
    rewrite <- (take_drop 20 (drop (p + 8) buf)) at 1. f_equal.
    rewrite drop_drop. f_equal. lia.
  - rewrite length_take. lia.
  - rewrite length_take, length_drop. lia.
  - rewrite length_take, length_drop. lia.
  - rewrite length_drop. lia.
Qed.

(** X10.  A handshake with a protocol string of 1 to 19 bytes, serialized
    and followed by any bytes, is parsed back by [ParseHandshake] as the
    same handshake; the reader is left at the [19 - pstrlen] zero bytes that
    pad the 68-byte buffer (none for the protocol string of [NewHandshake]),
    then at the bytes that followed. *)
Theorem ParseHandshake_Serialize h rest :
  well_formed h → (1 ≤ String.length (Pstr h) ≤ 19)%nat →
  ∃ buf, Serialize h = Return buf
         ∧ ParseHandshake (buf ++ rest) =
             Return (inl (h, replicate (19 - String.length (Pstr h)) zero
                             ++ rest)).
Proof.
  intros Hwf Hn. eexists.
  split; [apply Serialize_handshake_buffer; [done|lia]|].
  destruct Hwf as (HR & HI & HP).
  cbn [app]. rewrite <- !app_assoc.
  rewrite ParseHandshake_frame; try done.
  - rewrite string_of_bytes_of. by destruct h.
  - rewrite byte_of_Z_val, bytes_of_length by lia. done.
  - intros E. apply (f_equal length) in E. rewrite bytes_of_length in E.
    cbn in E. lia.
Qed.

Lemma ParseHandshake_Serialize_witness :
  ∃ buf,
    Serialize (NewHandshake (replicate 20 "h"%char) (replicate 20 "p"%char))
      = Return buf
    ∧ ParseHandshake (buf ++ ["x"%char]) =
        Return (inl (NewHandshake (replicate 20 "h"%char)
                                  (replicate 20 "p"%char), ["x"%char])).
Proof.
  apply (ParseHandshake_Serialize
           (NewHandshake (replicate 20 "h"%char) (replicate 20 "p"%char))
           ["x"%char]).
  - by vm_compute.
  - vm_compute. lia.
Defined.

(** [ParseHandshake] returns an error, or has read a length byte, a protocol
    string of that length and the three arrays. *)
Lemma ParseHandshake_cases r :
  (∃ err, ParseHandshake r = Return (inr err))
  ∨ ∃ c pstr reserved infoHash peerID r',
      r = c :: pstr ++ reserved ++ infoHash ++ peerID ++ r'
      ∧ byte_val c = Z.of_nat (length pstr) ∧ pstr ≠ []
      ∧ length reserved = 8%nat ∧ length infoHash = 20%nat
      ∧ length peerID = 20%nat
      ∧ ParseHandshake r =
          Return (inl ({| Pstr := string_of pstr; Reserved := reserved;
                          InfoHash := infoHash; PeerID := peerID |}, r')).
Proof.
  destruct (ReadFull r 1) as [[lengthBuf r1]|err] eqn:E1;
    [|left; eexists; unfold ParseHandshake; by rewrite E1].
  apply ReadFull_inl in E1 as [-> Hlen].
  destruct lengthBuf as [|c [|]]; try done. cbn [app].
  pose proof (ReadFull_app [c] r1 1 eq_refl) as H0. cbn [app] in H0.
  destruct (decide (byte_val c = 0)) as [E0|E0].
  { left. eexists. unfold ParseHandshake.
    rewrite H0. change (index [c] 0) with (Some c). cbn [must bind].
    by rewrite E0. }
  destruct (ReadFull r1 (Z.to_nat (byte_val c + 48)))
    as [[handshakeBuf r2]|err] eqn:E2.
  2:{ left. eexists. unfold ParseHandshake.
      rewrite H0. change (index [c] 0) with (Some c). cbn [must bind].
      decide_test (byte_val c =? 0) false. by rewrite E2. }
  apply ReadFull_inl in E2 as [-> Hlen2].
  pose proof (byte_val_range c) as Hc.
  destruct (split_handshake handshakeBuf (Z.to_nat (byte_val c)))
    as (pstr & reserved & infoHash & peerID & -> & Hp & HR & HI & HP);
    [lia|].
  assert (pstr ≠ []) by (intros ->; cbn in Hp; lia).
  right. exists c, pstr, reserved, infoHash, peerID, r2.
  rewrite <- !app_assoc. split_and!; try done; [lia|].
  apply ParseHandshake_frame; done || lia.
Qed.

(** X11.  [ParseHandshake] never panics. A handshake that it returns has a
    protocol string of 1 to 255 bytes, and the bytes consumed from the
    reader are exactly the length byte, the protocol string, the 8 reserved
    bytes, the 20-byte info-hash and the 20-byte peer-id of that handshake. *)
Theorem ParseHandshake_sound r :
  ParseHandshake r ≠ Panic
  ∧ ∀ h r', ParseHandshake r = Return (inl (h, r')) →
      well_formed h ∧ (1 ≤ String.length (Pstr h) ≤ 255)%nat
      ∧ r = byte_of_Z (Z.of_nat (String.length (Pstr h)))
              :: bytes_of (Pstr h) ++ Reserved h ++ InfoHash h ++ PeerID h
              ++ r'.
Proof.
  destruct (ParseHandshake_cases r)
    as [[err ->]
       |(c & pstr & reserved & infoHash & peerID & r2 & -> & Hc & Hne & HR
         & HI & HP & ->)]; [done|].
  split; [done|]. intros h r' [= <- <-].
  cbn [Pstr Reserved InfoHash PeerID].
  assert (String.length (string_of pstr) = length pstr) as ->
    by (by rewrite <- bytes_of_length, bytes_of_string_of).
  pose proof (byte_val_range c).
  assert (0 < length pstr)%nat by (destruct pstr; [done|cbn; lia]).
  split; [done|]. split; [lia|].
  by rewrite bytes_of_string_of, <- Hc, byte_of_Z_byte_val.
Qed.

(** X12.  On a stream that ends inside a serialized handshake,
    [ParseHandshake] returns an error and no handshake: [io.EOF] when the
    stream is empty or ends right after the length byte, and
    [io.ErrUnexpectedEOF] at any later place. *)
Theorem ParseHandshake_truncated h buf k :
  well_formed h → (1 ≤ String.length (Pstr h) ≤ 19)%nat →
  Serialize h = Return buf →
  (k < 1 + String.length (Pstr h) + 48)%nat →
  ParseHandshake (take k buf) =
    Return (inr (ErrRead (if bool_decide (k = 0 ∨ k = 1)%nat then EOF
                          else ErrUnexpectedEOF))).
Proof.
  intros Hwf Hn Hbuf Hk.
  rewrite Serialize_handshake_buffer in Hbuf by (done || lia).
  set (c := byte_of_Z _) in Hbuf. set (body := _ ++ _) in Hbuf.
  assert (buf = c :: body) as -> by congruence. clear Hbuf.
  assert (byte_val c = Z.of_nat (String.length (Pstr h))) as Hc
    by (apply byte_of_Z_val; lia).
  unfold ParseHandshake.
  destruct k as [|k]; [by rewrite bool_decide_eq_true_2 by lia|].
  cbn [take firstn].
  pose proof (ReadFull_app [c] (take k body) 1 eq_refl) as H0.
  cbn [app] in H0. rewrite H0. clear H0.
  change (index [c] 0) with (Some c). cbn [must bind]. rewrite Hc.
  decide_test (Z.of_nat (String.length (Pstr h)) =? 0) false.
  rewrite ReadFull_short by (rewrite length_take; lia).
  destruct k as [|k]; [by rewrite bool_decide_eq_true_2 by lia|].
  rewrite bool_decide_eq_false_2 by lia.
  destruct (take (S k) body) eqn:E; [|done].
  apply (f_equal length) in E. rewrite length_take in E.
  destruct Hwf as (HR & HI & HP). subst body.
  rewrite !length_app, bytes_of_length, HR, HI, HP, length_replicate in E.
  cbn [length] in E. lia.
Qed.

Lemma ParseHandshake_truncated_witness :
  ParseHandshake
    (take 1 ("019"%char :: bytes_of "BitTorrent protocol"
             ++ replicate 8 zero ++ replicate 20 "h"%char
             ++ replicate 20 "p"%char)) =
    Return (inr (ErrRead EOF)).
Proof.
  apply (ParseHandshake_truncated
           (NewHandshake (replicate 20 "h"%char) (replicate 20 "p"%char))
           _ 1%nat).
  - by vm_compute.
  - vm_compute. lia.
  - by vm_compute.
  - vm_compute. lia.
Defined.

(** The bits that [SetExtension] and [HasExtension] know. *)
Lemma byte_and_or mask mask' (b : ascii) :
  mask ∈ [1; 32; 128]%N → mask' ∈ [1; 32; 128]%N →
  negb (byte_and mask (byte_or mask' b) =? 0)%N =
    negb (byte_and mask b =? 0)%N || (mask =? mask')%N.
Proof.
  intros H H'.
  repeat (apply elem_of_cons in H as [->|H]);
    [| | |by apply elem_of_nil in H];
    (repeat (apply elem_of_cons in H' as [->|H']);
     [| | |by apply elem_of_nil in H']);
    destruct b as [[] [] [] [] [] [] [] []]; by vm_compute.
Qed.

(** X13.  After [SetExtension(bit)], [HasExtension] reports [bit] if it is
    one of the three known extensions, and reports every other extension as
    it did before: setting an extension never clears or sets another one,
    and an unknown bit is never reported. *)
Theorem HasExtension_SetExtension bit bit' h :
  well_formed h →
  HasExtension bit' (SetExtension bit h) =
    HasExtension bit' h
    || ((bit =? bit')%N
        && bool_decide
             (bit ∈ [ExtensionDHT; ExtensionExtensions; ExtensionFast])).
Proof.
  intros (HR & _ & _).
  destruct (Reserved h) as [|r0 [|r1 [|r2 [|r3 [|r4 [|r5 [|r6 [|r7 [|]]]]]]]]]
    eqn:E; try done. clear HR.
  assert (∀ i mask mask' j,
            test_reserved i mask (or_reserved j mask' h) =
              if decide (i = j ∧ (i < 8)%nat)
              then negb (byte_and mask
                           (byte_or mask' (default zero (Reserved h !! i)))
                         =? 0)%N
              else test_reserved i mask h) as Htest.
  { intros i mask mask' j. unfold test_reserved, or_reserved.
    cbn [Reserved]. rewrite E.
    destruct (decide (i = j ∧ (i < 8)%nat)) as [[-> Hi]|Hne].
    - rewrite list_lookup_alter_eq.
      do 8 (destruct j as [|j]; [done|]). cbn in Hi. lia.
    - destruct (decide (i = j)) as [->|Hij].
      + rewrite list_lookup_alter_eq.
        do 8 (destruct j as [|j]; [exfalso; apply Hne; split; [done|lia]|]).
        done.
      + by rewrite list_lookup_alter_ne. }
  unfold SetExtension, HasExtension.
  destruct (bit =? ExtensionDHT)%N eqn:B0;
    [apply N.eqb_eq in B0 as ->
    |destruct (bit =? ExtensionExtensions)%N eqn:B5;
     [apply N.eqb_eq in B5 as ->
     |destruct (bit =? ExtensionFast)%N eqn:B7;
      [apply N.eqb_eq in B7 as ->|]]].
  4:{ apply N.eqb_neq in B0, B5, B7.
      rewrite bool_decide_eq_false_2, andb_false_r, orb_false_r; [done|].
      intros Hin. repeat (apply elem_of_cons in Hin as [->|Hin]); try done.
      by apply elem_of_nil in Hin. }
  all: rewrite bool_decide_eq_true_2, andb_true_r
    by (repeat constructor).
  all: destruct (bit' =? ExtensionDHT)%N eqn:B0';
    [apply N.eqb_eq in B0' as ->
    |destruct (bit' =? ExtensionExtensions)%N eqn:B5';
     [apply N.eqb_eq in B5' as ->
     |destruct (bit' =? ExtensionFast)%N eqn:B7';
      [apply N.eqb_eq in B7' as ->|]]].
  all: rewrite ?Htest.
  all: try (rewrite decide_True by (split; [done|lia]);
            rewrite byte_and_or by (repeat constructor); done).
  all: try (rewrite decide_False by (intros [? ?]; done);
            try done).
  all: try (apply N.eqb_neq in B0', B5', B7';
            symmetry; apply orb_false_iff; split; [done|];
            apply N.eqb_neq; congruence).
  all: try by rewrite orb_false_r.
Qed.

Lemma HasExtension_SetExtension_witness :
  HasExtension ExtensionFast
    (SetExtension ExtensionFast
       (SetExtension ExtensionDHT (NewHandshake (replicate 20 zero)
                                                (replicate 20 zero)))) = true
  ∧ HasExtension ExtensionExtensions
      (SetExtension ExtensionFast
         (SetExtension ExtensionDHT (NewHandshake (replicate 20 zero)
                                                  (replicate 20 zero))))
    = false.
Proof.
  assert (well_formed
            (SetExtension ExtensionDHT (NewHandshake (replicate 20 zero)
                                                     (replicate 20 zero))))
    as Hwf by (by vm_compute).
  split.
  - by rewrite (HasExtension_SetExtension ExtensionFast ExtensionFast _ Hwf).
  - by rewrite (HasExtension_SetExtension ExtensionFast ExtensionExtensions
                  _ Hwf).
Defined.

Lemma NewHandshake_Serialize infoHash peerID :
  length infoHash = 20%nat → length peerID = 20%nat →
  ∃ buf, Serialize (NewHandshake infoHash peerID) = Return buf.
Proof.
  intros HI HP. eexists. apply Serialize_handshake_buffer; [done|]. cbn. lia.
Qed.

(** X14.  [PerformHandshake] never panics. When it returns a handshake, the
    connection was made, is left open, and the info-hash of the peer equals
    the one requested; when it returns an error, the connection has been
    closed if one was made. *)
Theorem PerformHandshake_outcome dial infoHash peerID :
  length infoHash = 20%nat → length peerID = 20%nat →
  ∃ p, PerformHandshake dial infoHash peerID = Return p
       ∧ match result p with
         | inl inHandshake =>
             closed p = false ∧ InfoHash inHandshake = infoHash
             ∧ ∃ conn, dial = Some conn ∧ write_ok conn = true
         | inr _ => closed p = bool_decide (is_Some dial)
         end.
Proof.
  intros HI HP. unfold PerformHandshake.
  destruct dial as [conn|].
  2:{ eexists. split; [done|]. by cbn. }
  destruct (NewHandshake_Serialize infoHash peerID HI HP) as [buf ->].
  cbn [bind]. destruct (write_ok conn) eqn:Ew; cbn [negb].
  2:{ eexists. split; [done|]. by cbn. }
  destruct (ParseHandshake_cases (incoming conn))
    as [[err ->]
       |(c & pstr & reserved & inHash & inPeerID & r2 & _ & _ & _ & _ & _ & _
         & ->)].
  { eexists. split; [done|]. by cbn. }
  cbn [bind]. unfold bytes_Equal. cbn [InfoHash].
  destruct (bool_decide (inHash = infoHash)) eqn:Eh; cbn [negb].
  - apply bool_decide_eq_true in Eh. eexists. split; [done|]. cbn. eauto.
  - eexists. split; [done|]. by cbn.
Qed.

Lemma PerformHandshake_outcome_witness :
  ∃ p, PerformHandshake
         (Some {| write_ok := true;
                  incoming := "001"%char :: "X"%char :: replicate 8 zero
                              ++ replicate 20 "i"%char
                              ++ replicate 20 "q"%char |})
         (replicate 20 "h"%char) (replicate 20 "p"%char) = Return p
       ∧ result p = inr ErrInfoHashMismatch ∧ closed p = true.
Proof.
  destruct (PerformHandshake_outcome
              (Some {| write_ok := true;
                       incoming := "001"%char :: "X"%char :: replicate 8 zero
                                   ++ replicate 20 "i"%char
                                   ++ replicate 20 "q"%char |})
              (replicate 20 "h"%char) (replicate 20 "p"%char)
              eq_refl eq_refl) as (p & Hp & _).
  exists p. split; [exact Hp|].
  vm_compute in Hp. injection Hp as <-. by vm_compute.
Defined.

(** X15.  [PerformHandshake] accepts the answer of a peer whatever its
    protocol string (of 1 to 255 bytes), reserved bytes and peer-id are, as
    long as the info-hash is the one requested: the protocol identifier is
    not compared with [ProtocolIdentifier]. *)
Theorem PerformHandshake_any_protocol conn c pstr reserved infoHash peerID
    inPeerID rest :
  length infoHash = 20%nat → length peerID = 20%nat →
  write_ok conn = true →
  incoming conn = c :: pstr ++ reserved ++ infoHash ++ inPeerID ++ rest →
  byte_val c = Z.of_nat (length pstr) → pstr ≠ [] →
  length reserved = 8%nat → length inPeerID = 20%nat →
  PerformHandshake (Some conn) infoHash peerID =
    Return {| result := inl {| Pstr := string_of pstr; Reserved := reserved;
                               InfoHash := infoHash; PeerID := inPeerID |};
              closed := false |}.
Proof.
  intros HI HP Hw Hin Hc Hne HR HP'. unfold PerformHandshake.
  destruct (NewHandshake_Serialize infoHash peerID HI HP) as [buf ->].
  cbn [bind]. rewrite Hw, Hin. cbn [negb].
  rewrite ParseHandshake_frame by done. cbn [bind InfoHash].
  unfold bytes_Equal. by rewrite bool_decide_eq_true_2.
Qed.

Lemma PerformHandshake_any_protocol_witness :
  PerformHandshake
    (Some {| write_ok := true;
             incoming := "001"%char :: "X"%char :: replicate 8 "255"%char
                         ++ replicate 20 "h"%char
                         ++ replicate 20 "q"%char |})
    (replicate 20 "h"%char) (replicate 20 "p"%char) =
    Return {| result := inl {| Pstr := "X";
                               Reserved := replicate 8 "255"%char;
                               InfoHash := replicate 20 "h"%char;
                               PeerID := replicate 20 "q"%char |};
              closed := false |}.
Proof.
  apply (PerformHandshake_any_protocol _ "001"%char ["X"%char]
           (replicate 8 "255"%char) (replicate 20 "h"%char)
           (replicate 20 "p"%char) (replicate 20 "q"%char) []);
    try reflexivity.
  discriminate.
Defined.

End HandshakeFacts.

(* ===================================================================== *)
(** * Facts about strconv                                               *)
(* ===================================================================== *)

Module StrconvFacts.

Import GoFacts.

Lemma uint_val_ge d acc : 0 ≤ acc → acc ≤ uint_val d acc.
Proof.
  revert acc. induction d; intros acc H; cbn [uint_val]; [lia|..].
  all: etransitivity; [|apply IHd]; lia.
Qed.

Lemma of_uint_acc_val d acc :
  Z.pos (Pos.of_uint_acc d acc) = uint_val d (Z.pos acc).
Proof.
  revert acc. induction d; intros acc; cbn [Pos.of_uint_acc uint_val];
    [done|..]; rewrite IHd; f_equal; lia.
Qed.

Lemma of_uint_val d : Z.of_N (Pos.of_uint d) = uint_val d 0.
Proof.
  induction d; cbn [Pos.of_uint uint_val]; [done|done|..];
    cbn [Z.of_N]; by rewrite of_uint_acc_val.
Qed.

Lemma to_uint_val p : uint_val (Pos.to_uint p) 0 = Z.pos p.
Proof. by rewrite <- of_uint_val, DecimalPos.Unsigned.of_to. Qed.

(** The digit loop of [ParseUint] on the digits of [d]. *)
Lemma ParseUint_loop_digits d acc :
  0 ≤ acc → uint_val d acc ≤ MaxUint64 →
  ParseUint_loop (bytes_of (NilEmpty.string_of_uint d)) acc
  = inl (uint_val d acc).
Proof.
  revert acc. induction d; intros acc Hacc H; [done|..].
  all: cbn [NilEmpty.string_of_uint list_ascii_of_string ParseUint_loop
            uint_val] in *.
  all: match goal with
       | H : uint_val ?d ?a ≤ _ |- _ =>
           pose proof (uint_val_ge d a ltac:(lia)) as Hge
       end.
  all: change (is_digit _) with true; cbv iota.
  all: unfold MaxUint64 in *.
  all: match goal with
       | |- context [byte_val ?c - 48] =>
           let v := eval vm_compute in (byte_val c - 48) in
           change (byte_val c - 48) with v
       end.
  all: change (2 ^ 64 - 1) with 18446744073709551615 in *.
  all: change (18446744073709551615 / 10 + 1) with 1844674407370955162.
  all: change (2 ^ 64) with 18446744073709551616.
  all: decide_test (1844674407370955162 <=? acc) false.
  all: cbv zeta; rewrite Z.mod_small by lia.
  all: match goal with
       | |- context [(?a <? ?b) || (?c <? ?d)] =>
           decide_test ((a <? b) || (c <? d)) false
       end.
  all: rewrite ?Z.add_0_r, (Z.mul_comm acc 10); apply IHd; lia.
Qed.

Lemma digits_is_digit d :
  Forall (λ c, is_digit c = true) (bytes_of (NilEmpty.string_of_uint d)).
Proof. induction d; cbn; constructor; done. Qed.

Lemma nzhead_not_D0 d d' : Decimal.nzhead d ≠ Decimal.D0 d'.
Proof. induction d; cbn; done. Qed.

(** The digits of a positive number: at least one, and the first is not
    ['0']. *)
Lemma to_uint_digits p :
  ∃ c rest,
    bytes_of (NilEmpty.string_of_uint (Pos.to_uint p)) = c :: rest
    ∧ is_digit c = true ∧ c ≠ "0"%char
    ∧ Forall (λ c, is_digit c = true) rest.
Proof.
  pose proof (digits_is_digit (Pos.to_uint p)) as Hd.
  assert (∀ d', Pos.to_uint p ≠ Decimal.D0 d') as H0.
  { intros d' E.
    pose proof (DecimalPos.Unsigned.to_of (Pos.to_uint p)) as H.
    rewrite DecimalPos.Unsigned.of_to in H. cbn [N.to_uint] in H.
    rewrite E in H at 1. unfold Decimal.unorm in H.
    pose proof (nzhead_not_D0 (Pos.to_uint p)) as Hn.
    destruct (Decimal.nzhead (Pos.to_uint p)) eqn:En.
    - injection H as ->. by apply (DecimalPos.Unsigned.to_uint_nonzero p).
    - by apply (Hn d').
    - done. - done. - done. - done. - done. - done. - done. - done. - done. }
  pose proof (DecimalPos.Unsigned.to_uint_nonnil p) as Hnil.
  destruct (Pos.to_uint p) eqn:E; [done|by destruct (H0 u)|..].
  all: cbn in *; inversion_clear Hd; eauto 10.
Qed.

Lemma FormatInt_pos p :
  FormatInt (Z.pos p) = NilEmpty.string_of_uint (Pos.to_uint p).
Proof.
  unfold FormatInt. cbn [Z.to_int NilZero.string_of_int].
  unfold NilZero.string_of_uint.
  pose proof (DecimalPos.Unsigned.to_uint_nonnil p).
  by destruct (Pos.to_uint p).
Qed.

Lemma FormatInt_neg p :
  FormatInt (Z.neg p) =
    String "-" (NilEmpty.string_of_uint (Pos.to_uint p)).
Proof.
  unfold FormatInt. cbn [Z.to_int NilZero.string_of_int].
  unfold NilZero.string_of_uint.
  pose proof (DecimalPos.Unsigned.to_uint_nonnil p).
  by destruct (Pos.to_uint p).
Qed.

(** The shape of [strconv.FormatInt(n, 10)]. *)
Lemma FormatInt_shape n :
  ∃ c rest,
    bytes_of (FormatInt n) = c :: rest
    ∧ (is_digit c = true ∨ (c = "-"%char ∧ rest ≠ []))
    ∧ Forall (λ c, is_digit c = true) rest
    ∧ has_leading_zero (c :: rest) = false
    ∧ is_negative_zero (c :: rest) = false.
Proof.
  destruct n as [|p|p].
  - exists "0"%char, []. by vm_compute; auto.
  - rewrite FormatInt_pos.
    destruct (to_uint_digits p) as (c & rest & -> & Hc & Hz & Hr).
    exists c, rest. split_and!; [done|by left|done|..].
    + destruct rest; [done|]. cbn. by apply Ascii.eqb_neq.
    + destruct rest; [done|]. cbn.
      destruct (byte_eqb c "-") eqn:E; [|done].
      apply Ascii.eqb_eq in E as ->. done.
  - rewrite FormatInt_neg. cbn [bytes_of list_ascii_of_string].
    destruct (to_uint_digits p) as (c & rest & -> & Hc & Hz & Hr).
    exists "-"%char, (c :: rest). split_and!; [done|by right|by constructor|..].
    + done.
    + cbn. by apply Ascii.eqb_neq.
Qed.

(** [strconv.ParseInt] and [strconv.Atoi] read back what [FormatInt] and
    [Itoa] print. *)
Lemma ParseInt_as_FormatInt fn n :
  MinInt64 ≤ n ≤ MaxInt64 → ParseInt_as fn (FormatInt n) = (n, None).
Proof.
  intros Hn. destruct n as [|p|p]; [done|..].
  - rewrite FormatInt_pos. unfold ParseInt_as.
    destruct (to_uint_digits p) as (c & rest & E & Hc & Hz & Hr). rewrite E.
    assert (byte_eqb c "+" = false ∧ byte_eqb c "-" = false) as [-> ->].
    { split; apply Ascii.eqb_neq; intros ->; done. }
    cbn [orb].
    change (ParseUint (c :: rest)) with (ParseUint_loop (c :: rest) 0).
    rewrite <- E.
    rewrite ParseUint_loop_digits, to_uint_val;
      [|done|rewrite to_uint_val; unfold MaxInt64, MaxUint64 in *; lia].
    cbn [negb andb].
    unfold MaxInt64 in *. decide_test (2 ^ 63 <=? Z.pos p) false. done.
  - rewrite FormatInt_neg. unfold ParseInt_as.
    cbn [list_ascii_of_string].
    change (byte_eqb "-" "-") with true. change (byte_eqb "-" "+") with false.
    cbn [orb negb andb].
    destruct (to_uint_digits p) as (c & rest & E & Hc & Hz & Hr).
    rewrite E.
    change (ParseUint (c :: rest)) with (ParseUint_loop (c :: rest) 0).
    rewrite <- E.
    rewrite ParseUint_loop_digits, to_uint_val;
      [|done|rewrite to_uint_val; unfold MinInt64, MaxUint64 in *; lia].
    unfold MinInt64 in *.
    decide_test (2 ^ 63 <? Z.pos p) false. f_equal. unfold wrap64.
    change (- Z.pos p) with (Z.neg p).
    rewrite Z.mod_small; lia.
Qed.

End StrconvFacts.

(* ===================================================================== *)
(** * Encoding, then decoding                                           *)
(* ===================================================================== *)

Module RoundTripFacts.

Import GoFacts BinaryFacts BencodeFacts EncoderFacts StrconvFacts.

Lemma FormatInt_no_stop n stop :
  is_digit stop = false → stop ≠ "-"%char → stop ∉ bytes_of (FormatInt n).
Proof.
  intros Hd Hm.
  destruct (FormatInt_shape n) as (c & rest & -> & Hc & Hr & _).
  intros [->|Hin]%elem_of_cons.
  - destruct Hc as [Hc|[-> _]]; congruence.
  - rewrite Forall_forall in Hr. specialize (Hr _ Hin). congruence.
Qed.

Lemma Itoa_head n :
  0 ≤ n → ∃ c rest, bytes_of (Itoa n) = c :: rest ∧ is_digit c = true.
Proof.
  intros Hn. destruct n as [|p|p]; [by exists "0"%char, []| |lia].
  unfold Itoa. rewrite FormatInt_pos.
  destruct (to_uint_digits p) as (c & rest & -> & Hc & _). eauto.
Qed.

Lemma decodeString_write_string s rest :
  Z.of_nat (length (write_string s)) ≤ MaxInt64 →
  decodeString (write_string s ++ rest) =
    Return (s, Z.of_nat (length (write_string s)), None).
Proof.
  unfold write_string. set (n := Z.of_nat (String.length s)).
  set (digits := bytes_of (Itoa n)). intros Hlen.
  rewrite length_app in Hlen. cbn [length] in Hlen.
  rewrite bytes_of_length in Hlen. fold n in Hlen.
  assert (":"%char ∉ digits) as Hstop by (by apply FormatInt_no_stop).
  unfold decodeString. rewrite <- app_assoc. cbn [app].
  rewrite scan_absent by done. cbn [Nat.add].
  rewrite !length_app. cbn [length]. rewrite length_app, bytes_of_length.
  decide_test (length digits + S (String.length s + length rest)
               <=? length digits)%nat false.
  rewrite take_app_length.
  unfold digits at 1. rewrite string_of_bytes_of.
  unfold Atoi, Itoa. rewrite ParseInt_as_FormatInt
    by (unfold MinInt64, MaxInt64 in *; lia).
  assert (wrap64 (Z.of_nat (length digits) + 1 + n)
          = Z.of_nat (length digits) + 1 + n) as ->.
  { unfold wrap64, MaxInt64 in *. rewrite Z.mod_small; lia. }
  decide_test (Z.of_nat (length digits + S (String.length s + length rest))
               <? Z.of_nat (length digits) + 1 + n) false.
  replace (digits ++ ":"%char :: bytes_of s ++ rest)
    with ((digits ++ [":"%char]) ++ bytes_of s ++ rest)
    by (by rewrite <- app_assoc).
  rewrite (slice_app_mid (digits ++ [":"%char]) (bytes_of s) rest)
    by (rewrite ?length_app, ?bytes_of_length; cbn [length]; lia).
  rewrite string_of_bytes_of. do 3 f_equal. lia.
Qed.

Lemma decodeInteger_FormatInt n rest :
  MinInt64 ≤ n ≤ MaxInt64 →
  decodeInteger ("i"%char :: bytes_of (FormatInt n) ++ "e"%char :: rest) =
    (n, Z.of_nat (length ("i"%char :: bytes_of (FormatInt n) ++ ["e"%char])),
     None).
Proof.
  intros Hn.
  assert ("e"%char ∉ bytes_of (FormatInt n)) as Hstop
    by (by apply FormatInt_no_stop).
  assert (has_leading_zero (bytes_of (FormatInt n)) = false
          ∧ is_negative_zero (bytes_of (FormatInt n)) = false) as [Hlz Hnz].
  { destruct (FormatInt_shape n) as (c & digits & -> & _ & _ & ? & ?).
    done. }
  set (body := bytes_of (FormatInt n)) in *.
  unfold decodeInteger.
  destruct (body ++ "e"%char :: rest) as [|x tl] eqn:Eb;
    [by destruct body|].
  change (byte_eqb "i" "i") with true. cbn [negb]. cbv zeta.
  change (drop 1 ("i"%char :: ?l)) with l. rewrite <- Eb.
  rewrite scan_absent by done.
  cbn [length]. rewrite length_app. cbn [length].
  decide_test (S (length body + S (length rest)) <=? 1 + length body)%nat
    false.
  replace (1 + length body - 1)%nat with (length body) by lia.
  rewrite take_app_length, Hlz, Hnz.
  unfold body at 1. rewrite string_of_bytes_of. unfold ParseInt.
  rewrite ParseInt_as_FormatInt by done.
  rewrite length_app. cbn [length]. do 2 f_equal. lia.
Qed.

Lemma encode_items_concat items :
  Forall (λ v, (encodeValue v).2 = None) items →
  encode_items encodeValue items =
    (concat ((λ v, (encodeValue v).1) <$> items), None).
Proof.
  induction 1 as [|v items Hv _ IH]; [done|].
  cbn [encode_items fmap list_fmap concat]. fold (encode_items encodeValue).
  destruct (encodeValue v) as [w e]. cbn in Hv. subst e.
  by rewrite IH.
Qed.

(** The loop of [decodeList] over the encodings of items that decode back,
    up to the closing ['e']. *)
Lemma decodeList_loop_items items pre acc k rest :
  Forall (λ v,
    (∃ c tl, (encodeValue v).1 = c :: tl ∧ c ≠ "e"%char)
    ∧ ∀ rest, Decode ((encodeValue v).1 ++ rest)
              = Return (v, Z.of_nat (length (encodeValue v).1), None)) items →
  (length items < k)%nat →
  decodeList_loop Decode
    (pre ++ concat ((λ v, (encodeValue v).1) <$> items) ++ "e"%char :: rest)
    k (Z.of_nat (length pre)) acc =
  Return (acc ++ items,
          Z.of_nat (length pre
                    + length (concat ((λ v, (encodeValue v).1) <$> items)))
          + 1, None).
Proof.
  intros H. revert pre acc k.
  induction H as [|v items [(c & tl & Ec & Hc) Hv] _ IH]; intros pre acc k Hk.
  - destruct k as [|k]; [lia|]. cbn [decodeList_loop fmap list_fmap concat app].
    rewrite length_app. cbn [length].
    decide_test (Z.of_nat (length pre)
                 <? Z.of_nat (length pre + S (length rest))) true.
    unfold index. decide_test (Z.of_nat (length pre) <? 0) false.
    rewrite Nat2Z.id, lookup_app_r, Nat.sub_diag by done.
    cbn [lookup list_lookup]. change (byte_eqb "e" "e") with true.
    cbn [negb]. rewrite app_nil_r, Nat.add_0_r. done.
  - destruct k as [|k]; [cbn in Hk; lia|].
    cbn [fmap list_fmap concat]. rewrite <- (app_assoc _ _ ("e"%char :: rest)).
    set (tail := concat _ ++ "e"%char :: rest).
    cbn [decodeList_loop].
    rewrite !length_app.
    assert (0 < length (encodeValue v).1)%nat by (rewrite Ec; cbn; lia).
    decide_test (Z.of_nat (length pre)
       <? Z.of_nat (length pre + (length (encodeValue v).1 + length tail)))
      true.
    unfold index. decide_test (Z.of_nat (length pre) <? 0) false.
    rewrite Nat2Z.id, lookup_app_r, Nat.sub_diag by done.
    rewrite Ec at 1. cbn [app lookup list_lookup].
    assert (byte_eqb c "e" = false) as -> by (by apply Ascii.eqb_neq).
    cbn [negb].
    pose proof (slice_suffix (pre ++ (encodeValue v).1 ++ tail)
                  (Z.of_nat (length pre))) as Hs.
    rewrite !length_app in Hs. rewrite Hs by lia. clear Hs.
    rewrite Nat2Z.id, drop_app_length, Hv. cbn [bind].
    rewrite (app_assoc pre).
    replace (Z.of_nat (length pre) + Z.of_nat (length (encodeValue v).1))
      with (Z.of_nat (length (pre ++ (encodeValue v).1)))
      by (rewrite length_app; lia).
    subst tail. rewrite IH by (cbn in Hk; lia).
    rewrite <- app_assoc. cbn [app]. rewrite !length_app. do 3 f_equal. lia.
Qed.

Lemma concat_length_ge {A} (ls : list (list A)) :
  Forall (λ l, 0 < length l)%nat ls → (length ls ≤ length (concat ls))%nat.
Proof.
  induction 1 as [|l ls Hl _ IH]; [done|]. cbn. rewrite length_app. lia.
Qed.

(** Induction on the values that [plain] accepts. *)
Lemma plain_ind (P : value → Prop) :
  (∀ s, P (VString s)) →
  (∀ n, MinInt64 ≤ n ≤ MaxInt64 → P (VInt64 n)) →
  (∀ items, Forall (λ v, plain v = true ∧ P v) items → P (VList items)) →
  ∀ v, plain v = true → P v.
Proof.
  intros HS HI HL. fix IH 1. intros [| s | n | n | items | m | l | ] Hp;
    try discriminate Hp.
  - apply HS.
  - apply HI. cbn in Hp. apply andb_true_iff in Hp as [?%Z.leb_le ?%Z.leb_le].
    lia.
  - apply HL. cbn [plain] in Hp. revert Hp.
    induction items as [|v items IHitems]; intros Hp; constructor.
    + cbn in Hp. apply andb_true_iff in Hp as [Hv _]. split; [done|].
      by apply IH.
    + apply IHitems. cbn in Hp. by apply andb_true_iff in Hp as [_ ?].
Qed.

Lemma plain_encodes v : plain v = true → (encodeValue v).2 = None.
Proof.
  revert v. apply (plain_ind (λ v, (encodeValue v).2 = None)); [done|done|].
  intros items H. apply encodeValue_list_ok.
  eapply Forall_impl; [exact H|]. by intros v [_ ?].
Qed.

Lemma encodeValue_list items :
  Forall (λ v, plain v = true) items →
  encodeValue (VList items) =
    ("l"%char :: concat ((λ v, (encodeValue v).1) <$> items) ++ ["e"%char],
     None).
Proof.
  intros H. cbn [encodeValue]. rewrite encode_items_concat; [done|].
  eapply Forall_impl; [exact H|]. intros v. apply plain_encodes.
Qed.

Lemma concat_elem_length {A} (l : list A) (ls : list (list A)) :
  l ∈ ls → (length l ≤ length (concat ls))%nat.
Proof.
  induction 1 as [l ls|l l' ls _ IH]; cbn; rewrite length_app; lia.
Qed.

Lemma plain_round_trip v :
  plain v = true →
  Z.of_nat (length (encodeValue v).1) ≤ MaxInt64 →
  (∃ c tl, (encodeValue v).1 = c :: tl ∧ c ≠ "e"%char)
  ∧ ∀ rest, Decode ((encodeValue v).1 ++ rest)
            = Return (v, Z.of_nat (length (encodeValue v).1), None).
Proof.
  revert v.
  apply (plain_ind (λ v,
    Z.of_nat (length (encodeValue v).1) ≤ MaxInt64 →
    (∃ c tl, (encodeValue v).1 = c :: tl ∧ c ≠ "e"%char)
    ∧ ∀ rest, Decode ((encodeValue v).1 ++ rest)
              = Return (v, Z.of_nat (length (encodeValue v).1), None))).
  - intros s Hlen. cbn [encodeValue fst] in *.
    destruct (Itoa_head (Z.of_nat (String.length s))) as (c & tl & E & Hc);
      [lia|].
    split.
    + unfold write_string. rewrite E. exists c. eexists. split; [done|].
      by intros ->.
    + intros rest. rewrite Decode_unfold.
      assert (∃ data', write_string s ++ rest = c :: data') as [data' Ed]
        by (unfold write_string; rewrite E; by eexists).
      rewrite Ed. cbv iota. rewrite Hc, <- Ed.
      by rewrite decodeString_write_string.
  - intros n Hn Hlen. cbn [encodeValue fst] in *. split; [by eauto|].
    intros rest. rewrite Decode_unfold. cbn [app].
    change (is_digit "i") with false. change (byte_eqb "i" "i") with true.
    cbv iota. rewrite <- app_assoc. cbn [app].
    by rewrite decodeInteger_FormatInt.
  - intros items H Hlen.
    assert (Forall (λ v, plain v = true) items) as Hplain
      by (eapply Forall_impl; [exact H|]; by intros v [? _]).
    rewrite encodeValue_list in * by done. cbn [fst] in *.
    split; [by eauto|]. intros rest. rewrite Decode_unfold. cbn [app].
    change (is_digit "l") with false. change (byte_eqb "l" "i") with false.
    change (byte_eqb "l" "l") with true. cbv iota.
    rewrite <- app_assoc. cbn [app].
    set (body := concat _) in *.
    assert (Forall (λ v,
      (∃ c tl, (encodeValue v).1 = c :: tl ∧ c ≠ "e"%char)
      ∧ ∀ rest, Decode ((encodeValue v).1 ++ rest)
                = Return (v, Z.of_nat (length (encodeValue v).1), None))
      items) as Hitems.
    { apply Forall_forall. intros v Hv.
      rewrite Forall_forall in H. destruct (H v Hv) as [_ HP]. apply HP.
      assert (length (encodeValue v).1 ≤ length body)%nat.
      { apply concat_elem_length. apply list_elem_of_fmap. eauto. }
      cbn [length] in Hlen. rewrite length_app in Hlen. lia. }
    unfold decodeList.
    destruct (body ++ "e"%char :: rest) as [|x tl] eqn:Eb;
      [by destruct body|].
    change (byte_eqb "l" "l") with true. cbn [negb]. rewrite <- Eb.
    pose proof (decodeList_loop_items items ["l"%char] []
                  (length ("l"%char :: body ++ "e"%char :: rest)) rest
                  Hitems) as Hloop.
    cbn [app] in Hloop. fold body in Hloop.
    change (Z.of_nat (length ["l"%char])) with 1 in Hloop. rewrite Hloop.
    + cbn [bind boxed length app]. rewrite length_app. cbn [length].
      do 3 f_equal. lia.
    + cbn [length]. rewrite length_app.
      assert (length items ≤ length body)%nat; [|lia].
      subst body. etransitivity; [|apply concat_length_ge].
      * by rewrite length_fmap.
      * apply Forall_fmap. eapply Forall_impl; [exact Hitems|].
        intros v [(c & tl' & E & _) _]. unfold compose. rewrite E.
        cbn [length]. lia.
Qed.

(** X16.  Every value made of strings, [int64]s and lists of those is
    encoded without error, and [Decode] of the encoding, whatever bytes
    follow it, gives back the value and the length of the encoding (for
    encodings of at most [MaxInt64] bytes, the lengths that an [int] holds). *)
Theorem Decode_encodeValue v rest :
  plain v = true →
  Z.of_nat (length (encodeValue v).1) ≤ MaxInt64 →
  (encodeValue v).2 = None
  ∧ Decode ((encodeValue v).1 ++ rest)
    = Return (v, Z.of_nat (length (encodeValue v).1), None).
Proof.
  intros Hp Hlen. split; [by apply plain_encodes|].
  by apply plain_round_trip.
Qed.

Lemma Decode_encodeValue_witness :
  (encodeValue (VList [VString "spam"; VInt64 (-42); VList []])).2 = None
  ∧ Decode (bytes_of "l4:spami-42elee" ++ bytes_of "4:tail")
    = Return (VList [VString "spam"; VInt64 (-42); VList []], 15, None).
Proof.
  apply (Decode_encodeValue (VList [VString "spam"; VInt64 (-42); VList []])
           (bytes_of "4:tail")).
  - by vm_compute.
  - by vm_compute.
Defined.

End RoundTripFacts.

(* ===================================================================== *)
(** * Parsing a torrent file and hashing its info dictionary            *)
(* ===================================================================== *)

Module ParseFacts.

Import Torrent GoFacts BencodeFacts EncoderFacts TorrentFacts.

(** [Decode] has no dictionary case: what it returns is never a
    dictionary. *)
Lemma Decode_not_dict data v n err :
  Decode data = Return (v, n, err) → as_dict (Some v) = None.
Proof.
  rewrite Decode_unfold. destruct data as [|c data']; [by intros [= <- _ _]|].
  destruct (is_digit c).
  { destruct (decodeString _) as [[[s k] e]| |]; [|done..].
    by intros [= <- _ _]. }
  destruct (byte_eqb c "i").
  { destruct (decodeInteger _) as [[s k] e]. by intros [= <- _ _]. }
  destruct (byte_eqb c "l"); [|by intros [= <- _ _]].
  destruct (decodeList _ _) as [[[s k] e]| |]; [|done..].
  by intros [= <- _ _].
Qed.

(** X17.  [Parse] returns a torrent for no input at all: it panics where
    [Decode] does, returns the error of [Decode], or, whenever [Decode]
    succeeds, fails with "torrent file is not a dictionary", because
    [Decode] never produces a dictionary. *)
Theorem Parse_rejects data :
  Parse data = Panic
  ∨ (∃ err, Parse data = Return (inr (ErrDecode err)))
  ∨ Parse data = Return (inr ErrNotDictionary).
Proof.
  unfold Parse. pose proof (Decode_total data) as Hfuel.
  destruct (Decode data) as [[[v n] [err|]]| |] eqn:E; cbn [bind]; eauto.
  - apply Decode_not_dict in E. rewrite E. auto.
  - done.
Qed.

Lemma as_string_Some entry s :
  as_string entry = Some s → entry = Some (VString s).
Proof. destruct entry as [[]|]; naive_solver. Qed.
Lemma as_int64_Some entry n :
  as_int64 entry = Some n → entry = Some (VInt64 n).
Proof. destruct entry as [[]|]; naive_solver. Qed.
Lemma as_list_Some entry l :
  as_list entry = Some l → entry = Some (VList l).
Proof. destruct entry as [[]|]; naive_solver. Qed.
Lemma as_dict_Some entry m :
  as_dict entry = Some m → entry = Some (VDict m).
Proof. destruct entry as [[]|]; naive_solver. Qed.

(** What a successful [Parse_dict] has found in the info dictionary. *)
Lemma Parse_dict_info dict t :
  Parse_dict dict = inl t →
  ∃ info,
    dict !! "info" = Some (VDict info)
    ∧ info !! "piece length" = Some (VInt64 (TorrentInfo.PieceLength (Info t)))
    ∧ info !! "pieces" = Some (VString (TorrentInfo.Pieces (Info t)))
    ∧ info !! "name" = Some (VString (TorrentInfo.Name (Info t)))
    ∧ TorrentInfo.Private (Info t) = default 0 (as_int64 (info !! "private"))
    ∧ ((info !! "length" = Some (VInt64 (TorrentInfo.Length (Info t)))
        ∧ TorrentInfo.Files (Info t) = [])
       ∨ (as_int64 (info !! "length") = None
          ∧ TorrentInfo.Length (Info t) = 0
          ∧ ∃ files, info !! "files" = Some (VList files)
                     ∧ parse_files files = inl (TorrentInfo.Files (Info t)))).
Proof.
  unfold Parse_dict.
  destruct (as_string (dict !! "announce")) as [announce|]; [|done].
  destruct (as_dict (dict !! "info")) as [info|] eqn:Ei; [|done].
  destruct (as_int64 (info !! "piece length")) as [pl|] eqn:Epl; [|done].
  destruct (as_string (info !! "pieces")) as [pieces|] eqn:Ep; [|done].
  destruct (as_string (info !! "name")) as [name|] eqn:En; [|done].
  apply as_dict_Some in Ei. apply as_int64_Some in Epl.
  apply as_string_Some in Ep, En.
  cbv zeta.
  destruct (as_int64 (info !! "length")) as [length|] eqn:El.
  { apply as_int64_Some in El. intros [= <-]. exists info. cbn. auto 10. }
  destruct (as_list (info !! "files")) as [files|] eqn:Ef; [|done].
  apply as_list_Some in Ef.
  destruct (parse_files files) as [fileInfos|] eqn:Epf; [|done].
  intros [= <-]. exists info. cbn. split_and!; try done.
  right. eauto.
Qed.

Lemma InfoHash_encoded sha1_Sum t :
  InfoHash sha1_Sum t = (sha1_Sum (EncodeDict (infoDict t)).1, None).
Proof.
  unfold InfoHash. by rewrite (EncodeDict_ok _ (infoDict_encodes t)).
Qed.

(** ** The keys of the hashed dictionary *)

(** C4, as stated, fails on a single-file torrent of length 0.  [Parse] takes
    its single-file branch on any integer [length] (the dictionary has no
    [files] key and the torrent gets no files), but [InfoHash] tells the modes
    apart by [t.Info.Length > 0]: the dictionary it hashes has the key
    [files], with an empty list, and no key [length]. *)
Lemma InfoHash_zero_length :
  ∃ t,
    Parse_dict (sample_dict (<["length" := VInt64 0]> sample_info)) = inl t
    ∧ (<["length" := VInt64 0]> sample_info) !! "files" = None
    ∧ TorrentInfo.Length (Info t) = 0
    ∧ TorrentInfo.Files (Info t) = []
    ∧ infoDict t !! "length" = None
    ∧ infoDict t !! "files" = Some (VList [])
    ∧ EncodeDict (infoDict t) =
        (bytes_of ("d5:filesle4:name5:a.txt12:piece lengthi4e6:pieces40:"
                   ++ "hhhhhhhhhhhhhhhhhhhhhhhhhhhhhhhhhhhhhhhhe"), None)
    ∧ EncodeDict (<["length" := VInt64 0]> sample_info) =
        (bytes_of ("d6:lengthi0e4:name5:a.txt12:piece lengthi4e6:pieces40:"
                   ++ "hhhhhhhhhhhhhhhhhhhhhhhhhhhhhhhhhhhhhhhhe"), None).
Proof.
  eexists. split; [by vm_compute|]. split_and!; by vm_compute.
Qed.

(** C4, amended.  [InfoHash] is the SHA-1 sum of the canonical encoding of
    [infoDict] (the keys in ascending order, each followed by its value,
    between ['d'] and ['e']), which never fails to encode.  The keys of
    [infoDict] are exactly ["piece length"], ["pieces"] and ["name"], plus
    ["length"] exactly when the [Length] field is positive and ["files"]
    exactly when it is zero or negative, plus ["private"] exactly when the
    private field is not 0.  The values are those of the torrent; ["files"]
    holds, per file and in order, a dictionary with exactly the keys
    ["length"] and ["path"].  For a torrent that [Parse] built from a
    dictionary, the [Length] field is positive exactly when the info
    dictionary holds an integer [length] that is positive; a single-file
    torrent whose [length] is zero or negative is hashed with an empty
    ["files"] list and without the key ["length"]. *)
Theorem InfoHash_dictionary sha1_Sum t :
  let info := Info t in
  dom (infoDict t) =
    {["piece length"; "pieces"; "name"]}
    ∪ (if 0 <? TorrentInfo.Length info then {["length"]} else {["files"]})
    ∪ (if TorrentInfo.Private info =? 0 then ∅ else {["private"]})
  ∧ infoDict t !! "piece length" = Some (VInt64 (TorrentInfo.PieceLength info))
  ∧ infoDict t !! "pieces" = Some (VString (TorrentInfo.Pieces info))
  ∧ infoDict t !! "name" = Some (VString (TorrentInfo.Name info))
  ∧ (0 < TorrentInfo.Length info →
     infoDict t !! "length" = Some (VInt64 (TorrentInfo.Length info)))
  ∧ (TorrentInfo.Length info ≤ 0 →
     infoDict t !! "files" =
       Some (VList (map (λ file, VDict (fileDict file))
                        (TorrentInfo.Files info))))
  ∧ (∀ file, dom (fileDict file) = {["length"; "path"]}
             ∧ fileDict file !! "length" = Some (VInt64 (FileInfo.Length file))
             ∧ fileDict file !! "path" = Some (VStrings (FileInfo.Path file)))
  ∧ (TorrentInfo.Private info ≠ 0 →
     infoDict t !! "private" = Some (VInt64 (TorrentInfo.Private info)))
  ∧ (let encoded :=
       "d"%char ::
         concat (map (λ key, write_string key
                             ++ (encodeValue (default VNil (infoDict t !! key))).1)
                     (sorted_keys (infoDict t)))
         ++ ["e"%char] in
     EncodeDict (infoDict t) = (encoded, None)
     ∧ InfoHash sha1_Sum t = (sha1_Sum encoded, None))
  ∧ (∀ dict, Parse_dict dict = inl t →
       ∃ parsed,
         dict !! "info" = Some (VDict parsed)
         ∧ (0 < TorrentInfo.Length info ↔
            ∃ n, parsed !! "length" = Some (VInt64 n) ∧ 0 < n)
         ∧ (∀ n, parsed !! "length" = Some (VInt64 n) → n ≤ 0 →
              infoDict t !! "length" = None
              ∧ infoDict t !! "files" = Some (VList []))).
Proof.
  intros info. split_and!.
  - apply infoDict_dom.
  - unfold infoDict; fold info.
    destruct (_ =? 0), (single_file t); by simplify_map_eq.
  - unfold infoDict; fold info.
    destruct (_ =? 0), (single_file t); by simplify_map_eq.
  - unfold infoDict; fold info.
    destruct (_ =? 0), (single_file t); by simplify_map_eq.
  - intros H. unfold infoDict, single_file. fold info.
    decide_test (0 <? TorrentInfo.Length info) true.
    destruct (_ =? 0); by simplify_map_eq.
  - intros H. unfold infoDict, single_file. fold info.
    decide_test (0 <? TorrentInfo.Length info) false.
    destruct (_ =? 0); by simplify_map_eq.
  - intros file. split; [apply fileDict_dom|].
    unfold fileDict. by simplify_map_eq.
  - intros Hp. unfold infoDict. fold info.
    destruct (_ =? 0) eqn:E; [lia|]. by simplify_map_eq.
  - pose proof (EncodeDict_ok _ (infoDict_encodes t)) as H.
    split; [exact H|]. unfold InfoHash. by rewrite H.
  - intros dict Hparse.
    destruct (Parse_dict_info dict t Hparse)
      as (parsed & Hinfo & _ & _ & _ & _ & Hmode).
    exists parsed. fold info in Hmode. split_and!; [done| |].
    + split.
      * intros Hpos. destruct Hmode as [[Hl _]|[_ [H0 _]]]; [eauto|lia].
      * intros (n & Hn & Hpos).
        destruct Hmode as [[Hl _]|[Hl _]]; [|by rewrite Hn in Hl].
        assert (TorrentInfo.Length info = n) as -> by congruence. done.
    + intros n Hn Hle.
      destruct Hmode as [[Hl Hf]|[Hl _]]; [|by rewrite Hn in Hl].
      assert (TorrentInfo.Length info = n) as HL by congruence.
      unfold infoDict, single_file. fold info. rewrite HL, Hf.
      decide_test (0 <? n) false.
      destruct (_ =? 0); by simplify_map_eq.
Qed.

(** The single-file torrent parsed from [sample_dict sample_info], and
    [sample_torrent]: multi-file and private. *)
Lemma InfoHash_dictionary_witness :
  (∃ t, Parse_dict (sample_dict sample_info) = inl t
        ∧ 0 < TorrentInfo.Length (Info t)
        ∧ dom (infoDict t)
          = {["piece length"; "pieces"; "name"]} ∪ {["length"]} ∪ ∅
        ∧ infoDict t !! "length" = Some (VInt64 7))
  ∧ TorrentInfo.Length (Info sample_torrent) ≤ 0
  ∧ dom (infoDict sample_torrent)
    = {["piece length"; "pieces"; "name"]} ∪ {["files"]} ∪ {["private"]}
  ∧ infoDict sample_torrent !! "private" = Some (VInt64 1)
  ∧ infoDict sample_torrent !! "files"
    = Some (VList [ VDict (fileDict {| FileInfo.Length := 5;
                                       FileInfo.Path := ["a"; "b"] |});
                    VDict (fileDict {| FileInfo.Length := 2;
                                       FileInfo.Path := ["c"] |}) ]).
Proof.
  split.
  - destruct (Parse_dict (sample_dict sample_info)) as [t|] eqn:E;
      [|by vm_compute in E].
    exists t. split; [done|].
    destruct (InfoHash_dictionary (λ encoded, encoded) t)
      as (H1 & _ & _ & _ & H5 & _ & _ & _ & _ & H10).
    destruct (H10 _ E) as (parsed & Hinfo & Hpos & _).
    unfold sample_dict in Hinfo.
    rewrite lookup_insert_ne, lookup_insert_eq in Hinfo by done.
    injection Hinfo as <-.
    assert (0 < TorrentInfo.Length (Info t)) as Hlen
      by (apply Hpos; exists 7; split; [done|lia]).
    split_and!; [exact Hlen| |].
    + rewrite H1. apply Z.ltb_lt in Hlen. rewrite Hlen.
      vm_compute in E. injection E as <-. done.
    + rewrite (H5 Hlen). vm_compute in E. injection E as <-. done.
  - destruct (InfoHash_dictionary (λ encoded, encoded) sample_torrent)
      as (H1 & _ & _ & _ & _ & H6 & _ & H8 & _).
    split_and!.
    + by vm_compute.
    + exact H1.
    + apply H8. by vm_compute.
    + apply H6. by vm_compute.
Defined.

(** X18.  For a single-file torrent whose info dictionary holds only the
    keys [piece length], [pieces], [name], [length] and [private], with a
    positive length and a private flag that is absent or a non-zero integer,
    the dictionary that [InfoHash] rebuilds from the result of [Parse] is
    the original info dictionary, so [InfoHash] is the SHA-1 sum of its
    encoding. *)
Theorem Parse_dict_infoDict sha1_Sum dict info t :
  Parse_dict dict = inl t →
  dict !! "info" = Some (VDict info) →
  (∃ length, info !! "length" = Some (VInt64 length) ∧ 0 < length) →
  (∀ p, info !! "private" = Some p → ∃ n, p = VInt64 n ∧ n ≠ 0) →
  dom info ⊆ {["piece length"; "pieces"; "name"; "length"; "private"]} →
  infoDict t = info
  ∧ InfoHash sha1_Sum t = (sha1_Sum (EncodeDict info).1, None).
Proof.
  intros Hparse Hinfo (length & Hlen & Hpos) Hpriv Hdom.
  cut (infoDict t = info).
  { intros E. split; [done|]. by rewrite InfoHash_encoded, E. }
  destruct (Parse_dict_info dict t Hparse)
    as (info' & Hinfo' & Hpl & Hp & Hn & Hprivate & Hmode).
  assert (info' = info) as -> by congruence.
  destruct Hmode as [[Hl _]|[Hl _]]; [|by rewrite Hlen in Hl].
  assert (TorrentInfo.Length (Info t) = length) as HL by congruence.
  apply map_eq. intros k. unfold infoDict, single_file. rewrite HL.
  decide_test (0 <? length) true.
  assert (info !! k = None ∨ k ∈ ["piece length"; "pieces"; "name"; "length";
                                  "private"]) as [Hk|Hk].
  { destruct (info !! k) eqn:E; [right|by left].
    assert (k ∈ dom info) as Hin by (apply elem_of_dom; eauto).
    apply Hdom in Hin.
    repeat (apply elem_of_union in Hin as [Hin|Hin]);
      apply elem_of_singleton in Hin as ->; rewrite !elem_of_cons; auto 10. }
  - assert (k ∉ ["piece length"; "pieces"; "name"; "length"]) as Hne.
    { intros Hin. repeat (apply elem_of_cons in Hin as [->|Hin]);
        try congruence. by apply elem_of_nil in Hin. }
    assert (k = "private" → TorrentInfo.Private (Info t) = 0) as Hp0
      by (intros ->; by rewrite Hprivate, Hk).
    rewrite Hk. destruct (_ =? 0) eqn:E0.
    + rewrite !lookup_insert_ne, lookup_empty; [done|set_solver..].
    + apply Z.eqb_neq in E0.
      rewrite !lookup_insert_ne, lookup_empty; [done|set_solver..|].
      intros <-. auto.
  - destruct (info !! "private") as [p|] eqn:Ep.
    + destruct (Hpriv p eq_refl) as (n & -> & Hn0). cbn in Hprivate.
      rewrite Hprivate. decide_test (n =? 0) false.
      repeat (apply elem_of_cons in Hk as [->|Hk]);
        [..|by apply elem_of_nil in Hk]; by simplify_map_eq.
    + cbn in Hprivate. rewrite Hprivate. cbn [Z.eqb].
      repeat (apply elem_of_cons in Hk as [->|Hk]);
        [..|by apply elem_of_nil in Hk]; by simplify_map_eq.
Qed.

Lemma Parse_dict_infoDict_witness :
  ∃ t, Parse_dict (sample_dict sample_info) = inl t
       ∧ infoDict t = sample_info.
Proof.
  destruct (Parse_dict (sample_dict sample_info)) as [t|] eqn:E;
    [|by vm_compute in E].
  exists t. split; [done|].
  apply (Parse_dict_infoDict (λ _, []) (sample_dict sample_info)
           sample_info t E).
  - done.
  - exists 7. split; [done|lia].
  - intros p Hp. by vm_compute in Hp.
  - apply (bool_decide_unpack _). by vm_compute.
Defined.

(** X19.  When the info dictionary of a parsed torrent has a key outside
    [piece length], [pieces], [name], [length], [files] and [private], or a
    [length] that is not positive, or a [private] flag of 0, the dictionary
    that [InfoHash] rebuilds has another key set than the original: such a
    key is dropped, and a zero length is replaced by an empty [files] list. *)
Theorem Parse_dict_infoDict_keys dict info t :
  Parse_dict dict = inl t →
  dict !! "info" = Some (VDict info) →
  (∃ k, k ∈ dom info
        ∧ k ∉ ["piece length"; "pieces"; "name"; "length"; "files";
               "private"])
  ∨ (∃ n, info !! "length" = Some (VInt64 n) ∧ n ≤ 0)
  ∨ info !! "private" = Some (VInt64 0) →
  dom (infoDict t) ≠ dom info.
Proof.
  intros Hparse Hinfo Hcase.
  destruct (Parse_dict_info dict t Hparse)
    as (info' & Hinfo' & Hpl & Hp & Hn & Hprivate & Hmode).
  assert (info' = info) as -> by congruence.
  rewrite infoDict_dom. intros Hdom.
  destruct Hcase as [(k & Hk & Hstd)|[(n & Hlen & Hn0)|Hpriv]].
  - rewrite <- Hdom in Hk. apply Hstd.
    destruct (single_file t), (_ =? 0);
      repeat (apply elem_of_union in Hk as [Hk|Hk]);
      try (by apply elem_of_empty in Hk);
      apply elem_of_singleton in Hk as ->; rewrite !elem_of_cons; auto 10.
  - assert ("length" ∈ dom info) as Hin by (apply elem_of_dom; eauto).
    rewrite <- Hdom in Hin.
    assert (single_file t = false) as Hs.
    { unfold single_file.
      destruct Hmode as [[Hl _]|[_ [-> _]]]; [|done].
      assert (TorrentInfo.Length (Info t) = n) as -> by congruence.
      by apply Z.ltb_ge. }
    rewrite Hs in Hin.
    destruct (_ =? 0);
      repeat (apply elem_of_union in Hin as [Hin|Hin]);
      try (by apply elem_of_empty in Hin);
      by apply elem_of_singleton in Hin.
  - assert ("private" ∈ dom info) as Hin by (apply elem_of_dom; eauto).
    rewrite <- Hdom in Hin. rewrite Hpriv in Hprivate. cbn in Hprivate.
    rewrite Hprivate in Hin. cbn [Z.eqb] in Hin.
    destruct (single_file t);
      repeat (apply elem_of_union in Hin as [Hin|Hin]);
      try (by apply elem_of_empty in Hin);
      by apply elem_of_singleton in Hin.
Qed.

Lemma Parse_dict_infoDict_keys_witness :
  ∃ t, Parse_dict (sample_dict (<["length" := VInt64 0]> sample_info)) = inl t
       ∧ dom (infoDict t) ≠ dom (<["length" := VInt64 0]> sample_info).
Proof.
  destruct (Parse_dict (sample_dict (<["length" := VInt64 0]> sample_info)))
    as [t|] eqn:E; [|by vm_compute in E].
  exists t. split; [done|].
  apply (Parse_dict_infoDict_keys
           (sample_dict (<["length" := VInt64 0]> sample_info)) _ t E).
  - done.
  - right. left. exists 0. split; [done|lia].
Defined.

(** A [[]string] is written like the [[]interface{}] of its strings. *)
Lemma encodeValue_strings items :
  encodeValue (VStrings items) = encodeValue (VList (VString <$> items)).
Proof.
  cbn [encodeValue].
  assert (encode_items encodeValue (VString <$> items)
          = (concat (map write_string items), None)) as ->; [|done].
  induction items as [|s items IH]; [done|].
  cbn [fmap list_fmap encode_items encodeValue map concat].
  fold (encode_items encodeValue). fold (fmap (M:=list) VString items).
  by rewrite IH.
Qed.

Lemma strings_of_strings items : strings_of (VString <$> items) = items.
Proof.
  unfold strings_of. induction items as [|s items IH]; [done|].
  cbn [fmap list_fmap omap list_omap as_string]. f_equal. exact IH.
Qed.

Lemma encode_items_ext l1 l2 :
  Forall2 (λ a b, encodeValue a = encodeValue b) l1 l2 →
  encode_items encodeValue l1 = encode_items encodeValue l2.
Proof.
  induction 1 as [|a b l1 l2 Hab _ IH]; [done|].
  cbn [encode_items]. fold (encode_items encodeValue). by rewrite Hab, IH.
Qed.

(** The dictionary that [InfoHash] builds for a file is written like the
    dictionary that [Parse] read the file from. *)
Lemma fileDict_encodeValue l path :
  encodeValue (VDict (fileDict {| FileInfo.Length := l;
                                  FileInfo.Path := path |})) =
  encodeValue (VDict (<["path" := VList (VString <$> path)]>
                        (<["length" := VInt64 l]> ∅))).
Proof.
  cbn [encodeValue]. do 2 f_equal.
  unfold fileDict. cbn [FileInfo.Length FileInfo.Path].
  rewrite !fmap_insert. by rewrite encodeValue_strings.
Qed.

Lemma parse_files_encodeValue files :
  Forall (λ f, ∃ l path,
            f = VDict (<["path" := VList (VString <$> path)]>
                         (<["length" := VInt64 l]> ∅))) files →
  ∃ fileInfos,
    parse_files files = inl fileInfos
    ∧ encodeValue (VList (map (λ file, VDict (fileDict file)) fileInfos))
      = encodeValue (VList files).
Proof.
  intros H.
  cut (∃ fileInfos,
         parse_files files = inl fileInfos
         ∧ Forall2 (λ a b, encodeValue a = encodeValue b)
             (map (λ file, VDict (fileDict file)) fileInfos) files).
  { intros (fileInfos & ? & HF). exists fileInfos. split; [done|].
    cbn [encodeValue]. by rewrite (encode_items_ext _ _ HF). }
  induction H as [|f files (l & path & ->) _ (fileInfos & IH & HF)].
  - exists []. split; [done|constructor].
  - eexists. cbn [parse_files as_dict].
    rewrite lookup_insert_ne, lookup_insert_eq by done.
    rewrite lookup_insert_eq. cbn [as_int64 as_list]. rewrite IH.
    split; [done|]. cbn [map]. constructor; [|done].
    rewrite strings_of_strings. apply fileDict_encodeValue.
Qed.

(** X20.  For a multi-file torrent whose info dictionary holds only the keys
    [piece length], [pieces], [name], [files] and [private], whose files are
    dictionaries of exactly an integer [length] and a [path] list of
    strings, and whose private flag is absent or a non-zero integer,
    [InfoHash] is the SHA-1 sum of the encoding of the original info
    dictionary. *)
Theorem Parse_dict_infoDict_files sha1_Sum dict info t files :
  Parse_dict dict = inl t →
  dict !! "info" = Some (VDict info) →
  info !! "files" = Some (VList files) →
  Forall (λ f, ∃ l path,
            f = VDict (<["path" := VList (VString <$> path)]>
                         (<["length" := VInt64 l]> ∅))) files →
  (∀ p, info !! "private" = Some p → ∃ n, p = VInt64 n ∧ n ≠ 0) →
  dom info ⊆ {["piece length"; "pieces"; "name"; "files"; "private"]} →
  EncodeDict (infoDict t) = EncodeDict info
  ∧ InfoHash sha1_Sum t = (sha1_Sum (EncodeDict info).1, None).
Proof.
  intros Hparse Hinfo Hfiles Hshape Hpriv Hdom.
  cut (EncodeDict (infoDict t) = EncodeDict info).
  { intros E. split; [done|]. by rewrite InfoHash_encoded, E. }
  destruct (Parse_dict_info dict t Hparse)
    as (info' & Hinfo' & Hpl & Hp & Hn & Hprivate & Hmode).
  assert (info' = info) as -> by congruence.
  assert (info !! "length" = None) as Hnolen.
  { apply not_elem_of_dom. intros Hin%Hdom.
    repeat (apply elem_of_union in Hin as [Hin|Hin]);
      by apply elem_of_singleton in Hin. }
  destruct Hmode as [[Hl _]|(_ & HL & files' & Hf & Hpf)];
    [by rewrite Hnolen in Hl|].
  assert (files' = files) as -> by congruence.
  destruct (parse_files_encodeValue files Hshape) as (fileInfos & Hpf' & Henc).
  assert (TorrentInfo.Files (Info t) = fileInfos) as HF by congruence.
  unfold EncodeDict. f_equal.
  apply map_eq. intros k. rewrite !lookup_fmap.
  unfold infoDict, single_file. rewrite HL, HF. cbn [Z.ltb Z.compare].
  assert (info !! k = None ∨ k ∈ ["piece length"; "pieces"; "name"; "files";
                                  "private"]) as [Hk|Hk].
  { destruct (info !! k) eqn:E; [right|by left].
    assert (k ∈ dom info) as Hin by (apply elem_of_dom; eauto).
    apply Hdom in Hin.
    repeat (apply elem_of_union in Hin as [Hin|Hin]);
      apply elem_of_singleton in Hin as ->; rewrite !elem_of_cons; auto 10. }
  - assert (k ∉ ["piece length"; "pieces"; "name"; "files"]) as Hne.
    { intros Hin. repeat (apply elem_of_cons in Hin as [->|Hin]);
        try congruence. by apply elem_of_nil in Hin. }
    assert (k = "private" → TorrentInfo.Private (Info t) = 0) as Hp0
      by (intros ->; by rewrite Hprivate, Hk).
    rewrite Hk. destruct (_ =? 0) eqn:E0.
    + rewrite !lookup_insert_ne, lookup_empty; [done|set_solver..].
    + apply Z.eqb_neq in E0.
      rewrite !lookup_insert_ne, lookup_empty; [done|set_solver..|].
      intros <-. auto.
  - destruct (info !! "private") as [p|] eqn:Ep.
    + destruct (Hpriv p eq_refl) as (n & -> & Hn0). cbn in Hprivate.
      rewrite Hprivate. decide_test (n =? 0) false.
      repeat (apply elem_of_cons in Hk as [->|Hk]);
        [..|by apply elem_of_nil in Hk]; simplify_map_eq; try done.
      by rewrite Henc.
    + cbn in Hprivate. rewrite Hprivate. cbn [Z.eqb].
      repeat (apply elem_of_cons in Hk as [->|Hk]);
        [..|by apply elem_of_nil in Hk]; simplify_map_eq; try done.
      by rewrite Henc.
Qed.

Lemma Parse_dict_infoDict_files_witness :
  ∃ t, Parse_dict (sample_dict sample_files_info) = inl t
       ∧ EncodeDict (infoDict t) = EncodeDict sample_files_info.
Proof.
  destruct (Parse_dict (sample_dict sample_files_info)) as [t|] eqn:E;
    [|by vm_compute in E].
  exists t. split; [done|].
  eapply (Parse_dict_infoDict_files (λ _, []) (sample_dict sample_files_info)
            sample_files_info t _ E).
  - done.
  - reflexivity.
  - repeat constructor.
    + by exists 3, ["a"].
    + by exists 4, ["b"; "c"].
  - intros p Hp. by vm_compute in Hp.
  - apply (bool_decide_unpack _). by vm_compute.
Defined.

End ParseFacts.

(* ===================================================================== *)
(** * The tracker response                                              *)
(* ===================================================================== *)

Module ResponseFacts.

Import Tracker GoFacts BencodeFacts ParseFacts.

(** X21.  [parseTrackerResponse] accepts no response body at all: it panics
    where [Decode] does, returns the error of [Decode], or fails with
    "tracker response is not a dictionary", because [Decode] never produces
    a dictionary. *)
Theorem parseTrackerResponse_rejects body :
  parseTrackerResponse body = Panic
  ∨ (∃ err, parseTrackerResponse body = Return (inr (ErrDecode err)))
  ∨ parseTrackerResponse body = Return (inr ErrNotDictionary).
Proof.
  unfold parseTrackerResponse. pose proof (Decode_total body) as Hfuel.
  destruct (Decode body) as [[[v n] [err|]]| |] eqn:E; cbn [bind]; eauto.
  - apply Decode_not_dict in E. rewrite E. auto.
  - done.
Qed.

End ResponseFacts.

(* ===================================================================== *)
(** * The errors of the encoder                                         *)
(* ===================================================================== *)

Module EncoderErrorFacts.

Import GoFacts EncoderFacts.

(** The loop, when a value fails: no bytes, and the error of the first key,
    in the order of the loop, whose value fails. *)
Lemma EncodeDict_loop_error values missing keys buf out err :
  EncodeDict_loop values missing keys buf = (out, Some err) →
  out = []
  ∧ ∃ before key after w,
      keys = before ++ key :: after
      ∧ default missing (values !! key) = (w, Some err)
      ∧ Forall (λ k, (default missing (values !! k)).2 = None) before.
Proof.
  revert buf. induction keys as [|key keys IH]; intros buf; [done|].
  cbn [EncodeDict_loop].
  destruct (default missing (values !! key)) as [w [e|]] eqn:E.
  - intros [= <- <-]. split; [done|]. by exists [], key, keys, w.
  - intros (-> & before & key' & after & w' & -> & Hk & Hb)%IH.
    split; [done|]. exists (key :: before), key', after, w'.
    split_and!; [done|done|]. constructor; [by rewrite E|done].
Qed.

(** X22.  [EncodeDict] succeeds exactly when every value of the dictionary
    encodes. When it fails it returns no bytes at all, and its error is the
    one of the first key, in ascending order, whose value does not encode. *)
Theorem EncodeDict_error dict :
  match EncodeDict dict with
  | (_, None) => map_Forall (λ _ v, (encodeValue v).2 = None) dict
  | (out, Some err) =>
      out = []
      ∧ ∃ key v,
          dict !! key = Some v ∧ (encodeValue v).2 = Some err
          ∧ ∀ key' v', dict !! key' = Some v' →
              (encodeValue v').2 ≠ None → String.le key key'
  end.
Proof.
  destruct (EncodeDict dict) as [out [err|]] eqn:E.
  - unfold EncodeDict, EncodeDict_values in E.
    apply EncodeDict_loop_error
      in E as (-> & before & key & after & w & Hkeys & Hk & Hb).
    rewrite sorted_keys_fmap in Hkeys.
    assert (key ∈ sorted_keys dict) as Hin
      by (rewrite Hkeys; apply elem_of_app; right; constructor).
    apply sorted_keys_elem in Hin as [v Hv].
    rewrite lookup_fmap, Hv in Hk. cbn in Hk.
    split; [done|]. exists key, v. split_and!; [done|by rewrite Hk|].
    intros key' v' Hv' Herr.
    assert (key' ∈ sorted_keys dict) as Hin'
      by (apply sorted_keys_elem; eauto).
    rewrite Hkeys in Hin'.
    pose proof (sorted_keys_sorted dict) as Hsorted. rewrite Hkeys in Hsorted.
    apply elem_of_app in Hin' as [Hin'|Hin'].
    + rewrite Forall_forall in Hb. specialize (Hb _ Hin').
      rewrite lookup_fmap, Hv' in Hb. done.
    + apply StronglySorted_app_1_r in Hsorted.
      apply elem_of_cons in Hin' as [->|Hin'].
      * reflexivity.
      * apply StronglySorted_inv in Hsorted as [_ Hall].
        rewrite Forall_forall in Hall. by apply Hall.
  - intros key v Hv.
    destruct (encodeValue v) as [w [e|]] eqn:Ev; [|done]. exfalso.
    unfold EncodeDict, EncodeDict_values in E.
    assert (∀ keys buf out,
              key ∈ keys →
              EncodeDict_loop (encodeValue <$> dict)
                (encodeValue VNil) keys buf ≠ (out, None)) as Hloop.
    { clear E. induction keys as [|k keys IH]; intros buf out' Hin.
      - by apply elem_of_nil in Hin.
      - cbn [EncodeDict_loop].
        destruct (default _ ((encodeValue <$> dict) !! k)) as [w' [e'|]] eqn:Ek;
          [done|].
        apply elem_of_cons in Hin as [->|Hin]; [|by apply IH].
        rewrite lookup_fmap, Hv in Ek. cbn in Ek. congruence. }
    eapply Hloop; [|exact E].
    apply sorted_keys_elem. rewrite lookup_fmap, Hv. by eexists.
Qed.

End EncoderErrorFacts.

(* ===================================================================== *)
(** * Lengths of the content and of the pieces                          *)
(* ===================================================================== *)

Module LengthFacts.

Import Torrent GoFacts.

Lemma wrap64_small z : MinInt64 ≤ z ≤ MaxInt64 → wrap64 z = z.
Proof.
  unfold wrap64, MinInt64, MaxInt64. intros H. rewrite Z.mod_small; lia.
Qed.

Lemma foldl_total files acc :
  Forall (λ file, 0 ≤ FileInfo.Length file) files →
  0 ≤ acc →
  acc + foldr Z.add 0 (FileInfo.Length <$> files) ≤ MaxInt64 →
  foldl (λ totalLength file, wrap64 (totalLength + FileInfo.Length file))
        acc files
  = acc + foldr Z.add 0 (FileInfo.Length <$> files).
Proof.
  intros H. revert acc. induction H as [|file files Hf Hfs IH]; intros acc.
  - cbn. lia.
  - cbn [foldl fmap list_fmap foldr]. intros Hacc Hsum.
    assert (0 ≤ foldr Z.add 0 (FileInfo.Length <$> files)) as Hnn.
    { clear -Hfs. induction Hfs; cbn; lia. }
    rewrite wrap64_small by (unfold MinInt64, MaxInt64 in *; lia).
    rewrite IH; lia.
Qed.

(** X23.  In the multi-file mode (a [Length] that is not positive),
    [TotalLength] is the sum of the lengths of the files, when no length is
    negative and the sum fits an [int64]. *)
Theorem TotalLength_sum t :
  TorrentInfo.Length (Info t) ≤ 0 →
  Forall (λ file, 0 ≤ FileInfo.Length file) (TorrentInfo.Files (Info t)) →
  foldr Z.add 0 (FileInfo.Length <$> TorrentInfo.Files (Info t)) ≤ MaxInt64 →
  TotalLength t
  = foldr Z.add 0 (FileInfo.Length <$> TorrentInfo.Files (Info t)).
Proof.
  intros Hlen Hfiles Hsum. unfold TotalLength, single_file.
  decide_test (0 <? TorrentInfo.Length (Info t)) false.
  rewrite foldl_total; [lia|done|lia|lia].
Qed.

Lemma TotalLength_sum_witness :
  TotalLength sample_torrent = 7.
Proof.
  apply (TotalLength_sum sample_torrent).
  - by vm_compute.
  - repeat constructor; by vm_compute.
  - by vm_compute.
Defined.

(** X24.  When the number of pieces matches the content (the pieces before
    the last do not cover [TotalLength()], all pieces do), piece [index] has
    the length of the content from offset [index * pieceLength] to the end,
    cut at [pieceLength]: the pieces split the content without a gap or an
    overlap. *)
Theorem PieceLength_span t index :
  let pieceLength := TorrentInfo.PieceLength (Info t) in
  0 < pieceLength →
  (NumPieces t - 1) * pieceLength < TotalLength t ≤ NumPieces t * pieceLength →
  0 ≤ index < NumPieces t →
  PieceLength t index
  = Return (Z.min pieceLength (TotalLength t - index * pieceLength)).
Proof.
  intros pl Hpl Htotal Hindex. unfold PieceLength. fold pl.
  decide_test ((index <? 0) || (NumPieces t <=? index)) false.
  set (N := NumPieces t) in *. set (total := TotalLength t) in *.
  destruct (index =? N - 1) eqn:E.
  - apply Z.eqb_eq in E. subst index. unfold rem.
    decide_test (pl =? 0) false. cbn [bind].
    assert (0 ≤ total) by nia.
    rewrite Z.rem_mod_nonneg by lia.
    destruct (total mod pl =? 0) eqn:E0.
    + apply Z.eqb_eq in E0. f_equal.
      assert (total = N * pl); [|lia].
      apply Z.mod_divide in E0 as [q Hq]; [|lia]. clearbody total pl N.
      assert (N - 1 < q) by nia. assert (q ≤ N) by nia.
      assert (q = N) as -> by lia. done.
    + apply Z.eqb_neq in E0. decide_test (pl =? 0) false. f_equal.
      assert (total mod pl = total - (N - 1) * pl); [|lia].
      symmetry. apply Z.mod_unique_pos with (q := N - 1); [|lia].
      assert (total ≠ N * pl); [|lia].
      intros ->. by rewrite Z.mod_mul in E0 by lia.
  - apply Z.eqb_neq in E. f_equal. nia.
Qed.

Lemma PieceLength_span_witness :
  PieceLength sample_torrent 1 = Return 3.
Proof.
  apply (PieceLength_span sample_torrent 1); by vm_compute.
Defined.

(** X25.  [PieceLength] panics (integer division by zero) exactly on the
    last piece of a torrent whose piece length is 0; no check of [Parse] or
    of [PieceLength] excludes such a piece length. *)
Theorem PieceLength_panics t index :
  PieceLength t index = Panic ↔
  TorrentInfo.PieceLength (Info t) = 0 ∧ 0 < NumPieces t
  ∧ index = NumPieces t - 1.
Proof.
  unfold PieceLength. split.
  - destruct ((index <? 0) || (NumPieces t <=? index)) eqn:E; [done|].
    apply orb_false_iff in E as [?%Z.ltb_ge ?%Z.leb_gt].
    destruct (index =? NumPieces t - 1) eqn:E1; [|done].
    apply Z.eqb_eq in E1. unfold rem.
    destruct (TorrentInfo.PieceLength (Info t) =? 0) eqn:E0.
    + apply Z.eqb_eq in E0. intros _. lia.
    + cbn [bind]. destruct (Z.rem _ _ =? 0); intros [=].
  - intros (H0 & HN & ->).
    decide_test ((NumPieces t - 1 <? 0) || (NumPieces t <=? NumPieces t - 1))
      false.
    rewrite Z.eqb_refl. unfold rem. by rewrite H0.
Qed.

End LengthFacts.

(* ===================================================================== *)
(** * What follows a value, and what is missing from it                 *)
(* ===================================================================== *)

Module PrefixFacts.

Import GoFacts BinaryFacts BencodeFacts.

(** Where the scan stops short of the end, the input splits at the first
    [stop]. *)
Lemma scan_split stop data i :
  (scan stop data i < i + length data)%nat →
  ∃ body rest,
    data = body ++ stop :: rest ∧ (stop ∉ body)
    ∧ scan stop data i = (i + length body)%nat.
Proof.
  revert i. induction data as [|c data IH]; intros i; cbn [scan length].
  { lia. }
  destruct (byte_eqb c stop) eqn:E.
  - apply Ascii.eqb_eq in E as ->. intros _. exists [], data.
    split_and!; [done|apply not_elem_of_nil|cbn; lia].
  - apply Ascii.eqb_neq in E. intros H.
    destruct (IH (S i)) as (body & rest & -> & Hb & Hs); [lia|].
    exists (c :: body), rest. split_and!; [done| |cbn [length]; lia].
    intros [->|?]%elem_of_cons; done.
Qed.

Lemma slice_app_l {A} (data rest : list A) lo hi :
  hi ≤ Z.of_nat (length data) →
  slice (data ++ rest) lo hi = slice data lo hi.
Proof.
  intros H. unfold slice. rewrite length_app.
  destruct (decide (0 ≤ lo ∧ lo ≤ hi)) as [[? ?]|Hn].
  - decide_test ((0 <=? lo) && (lo <=? hi)
                 && (hi <=? Z.of_nat (length data + length rest))) true.
    decide_test ((0 <=? lo) && (lo <=? hi)
                 && (hi <=? Z.of_nat (length data))) true.
    f_equal. rewrite drop_app_le by lia.
    rewrite take_app_le; [done|]. rewrite length_drop. lia.
  - assert ((0 <=? lo) && (lo <=? hi) = false) as ->; [|done].
    apply andb_false_iff. rewrite Z.leb_gt, Z.leb_gt. lia.
Qed.

Lemma slice_take {A} (data : list A) lo hi :
  slice data lo hi
  = Some (take (Z.to_nat (hi - lo)) (drop (Z.to_nat lo) data)) →
  slice (take (Z.to_nat hi) data) lo hi = slice data lo hi.
Proof.
  intros (? & ? & ? & _)%slice_Some. unfold slice.
  rewrite length_take.
  decide_test ((0 <=? lo) && (lo <=? hi)
               && (hi <=? Z.of_nat (Z.to_nat hi `min` length data))) true.
  decide_test ((0 <=? lo) && (lo <=? hi)
               && (hi <=? Z.of_nat (length data))) true.
  f_equal. rewrite skipn_firstn_comm, take_take.
  f_equal. lia.
Qed.

Lemma decodeString_prefix data s n rest :
  decodeString data = Return (s, n, None) →
  decodeString (take (Z.to_nat n) data ++ rest) = Return (s, n, None).
Proof.
  unfold decodeString.
  destruct (length data <=? scan ":" data 0)%nat eqn:Ei; [done|].
  apply Nat.leb_gt in Ei.
  destruct (scan_split ":" data 0) as (body & tail & -> & Hb & Hs); [lia|].
  rewrite Hs. cbn [Nat.add]. rewrite take_app_length.
  destruct (Atoi (string_of body)) as [len [err|]] eqn:EA; [done|].
  cbv zeta. set (hi := wrap64 _).
  destruct (Z.of_nat _ <? hi) eqn:Eh; [done|]. apply Z.ltb_ge in Eh.
  destruct (slice _ _ hi) as [result|] eqn:Es; [|done].
  pose proof (slice_Some _ _ _ _ Es) as (_ & Hlo & _ & Hr).
  subst result. intros [= <- <-].
  assert (Z.to_nat hi = (length body + S (Z.to_nat hi - length body - 1))%nat)
    as Hhi by lia.
  assert (take (Z.to_nat hi) (body ++ ":"%char :: tail)
          = body ++ ":"%char :: take (Z.to_nat hi - length body - 1) tail)
    as Htake.
  { rewrite Hhi at 1. rewrite take_app_add. done. }
  rewrite Htake, <- app_assoc. cbn [app].
  rewrite scan_absent by done. cbn [Nat.add].
  rewrite take_app_length, EA. fold hi.
  replace (body ++ ":"%char
             :: take (Z.to_nat hi - length body - 1) tail ++ rest)
    with (take (Z.to_nat hi) (body ++ ":"%char :: tail) ++ rest)
    by (by rewrite Htake, <- app_assoc).
  rewrite length_app, length_take.
  decide_test (Z.of_nat
                 (Z.to_nat hi `min` length (body ++ ":"%char :: tail)
                  + length rest) <? hi) false.
  rewrite slice_app_l by (rewrite length_take; lia).
  decide_test (Z.to_nat hi `min` length (body ++ ":"%char :: tail)
               + length rest <=? length body)%nat false.
  rewrite (slice_take _ _ _ Es). by rewrite Es.
Qed.

Lemma decodeInteger_prefix data num n rest :
  decodeInteger data = (num, n, None) →
  decodeInteger (take (Z.to_nat n) data ++ rest) = (num, n, None).
Proof.
  unfold decodeInteger.
  destruct data as [|c0 [|c1 tl]]; [done..|].
  destruct (byte_eqb c0 "i") eqn:E0; [|done]. cbn [negb]. cbv zeta.
  change (drop 1 (c0 :: ?l)) with l.
  destruct (length _ <=? _)%nat eqn:Ee; [done|]. apply Nat.leb_gt in Ee.
  cbn [length] in Ee.
  destruct (scan_split "e" (c1 :: tl) 1) as (body & tail & Eb & Hb & Hs);
    [cbn [length]; lia|].
  rewrite Hs, Eb in *. clear Hs.
  replace (1 + length body - 1)%nat with (length body) by lia.
  rewrite take_app_length.
  destruct (has_leading_zero body) eqn:Hlz; [done|].
  destruct (is_negative_zero body) eqn:Hnz; [done|].
  destruct (ParseInt (string_of body)) as [v [err|]] eqn:EP; [done|].
  intros [= <- <-].
  assert (take (Z.to_nat (Z.of_nat (S (length body)) + 1))
            (c0 :: body ++ "e"%char :: tail) = c0 :: body ++ ["e"%char]) as ->.
  { replace (Z.to_nat _) with (S (length body + 1)) by lia.
    cbn [take firstn]. by rewrite take_app_add. }
  cbn [app].
  destruct ((body ++ ["e"%char]) ++ rest) as [|x tl'] eqn:Ex;
    [by destruct body|].
  rewrite E0. cbn [negb]. change (drop 1 (c0 :: ?l)) with l.
  rewrite <- Ex, <- app_assoc. cbn [app].
  rewrite scan_absent by done.
  cbn [length]. rewrite length_app. cbn [length].
  decide_test (S (length body + S (length rest)) <=? 1 + length body)%nat
    false.
  replace (1 + length body - 1)%nat with (length body) by lia.
  by rewrite take_app_length, Hlz, Hnz, EP.
Qed.

Section Loop.

Variable D : bytes → outcome (decoded value).
Hypothesis D_consumed : ∀ rest, consumed_ok zero_value (length rest) (D rest).

(** More fuel does not change what the loop returns. *)
Lemma decodeList_loop_more data k k' pos acc :
  decodeList_loop D data k pos acc ≠ OutOfFuel → (k ≤ k')%nat →
  decodeList_loop D data k' pos acc = decodeList_loop D data k pos acc.
Proof.
  revert k' pos acc. induction k as [|k IH]; intros k' pos acc; [done|].
  intros H Hk. destruct k' as [|k']; [lia|]. revert H.
  cbn [decodeList_loop].
  destruct (pos <? _); [|done].
  destruct (index data pos) as [c|]; [|done].
  destruct (negb _); [|done].
  destruct (slice _ _ _) as [d|]; [|done].
  destruct (D d) as [[[item m] [e|]]| |]; cbn [bind]; try done.
  intros H. apply IH; [done|lia].
Qed.

(** A successful loop ends after the position it started at. *)
Lemma decodeList_loop_pos data k pos acc l n :
  1 ≤ pos →
  decodeList_loop D data k pos acc = Return (l, n, None) →
  pos < n ≤ Z.of_nat (length data).
Proof.
  revert pos acc. induction k as [|k IH]; intros pos acc Hpos; [done|].
  cbn [decodeList_loop].
  destruct (pos <? _) eqn:Hlt; [|done]. apply Z.ltb_lt in Hlt.
  destruct (index data pos) as [c|]; [|done].
  destruct (negb _).
  2:{ intros [= <- <-]. lia. }
  destruct (slice _ _ _) as [d|] eqn:Es; [|done].
  pose proof (D_consumed d) as Hc.
  destruct (D d) as [[[item m] [e|]]| |]; cbn [bind]; try done.
  cbn in Hc. intros H%IH; lia.
Qed.

End Loop.

Section LoopPrefix.

Variable D : bytes → outcome (decoded value).
Variable data : bytes.
Hypothesis D_consumed : ∀ rest, consumed_ok zero_value (length rest) (D rest).
Hypothesis D_prefix : ∀ d item m rest,
  (length d < length data)%nat → D d = Return (item, m, None) →
  D (take (Z.to_nat m) d ++ rest) = Return (item, m, None).

Lemma decodeList_loop_prefix k pos acc l n rest :
  1 ≤ pos →
  decodeList_loop D data k pos acc = Return (l, n, None) →
  decodeList_loop D (take (Z.to_nat n) data ++ rest) k pos acc
  = Return (l, n, None).
Proof.
  revert pos acc. induction k as [|k IH]; intros pos acc Hpos H; [done|].
  pose proof (decodeList_loop_pos D D_consumed _ _ _ _ _ _ Hpos H) as Hn.
  revert H. cbn [decodeList_loop].
  decide_test (pos <? Z.of_nat (length data)) true.
  rewrite length_app, length_take.
  decide_test (pos <? Z.of_nat (Z.to_nat n `min` length data + length rest))
    true.
  unfold index. decide_test (pos <? 0) false.
  rewrite lookup_app_l by (rewrite length_take; lia).
  rewrite lookup_take_lt by lia.
  destruct (data !! Z.to_nat pos) as [c|]; [|done].
  destruct (negb (byte_eqb c "e")); [|done].
  rewrite slice_suffix by lia.
  pose proof (slice_suffix (take (Z.to_nat n) data ++ rest) pos) as Hs.
  rewrite length_app, length_take in Hs. rewrite Hs by lia. clear Hs.
  set (d := drop (Z.to_nat pos) data).
  pose proof (D_consumed d) as Hc.
  destruct (D d) as [[[item m] [e|]]| |] eqn:ED; cbn [bind]; try done.
  unfold consumed_ok in Hc. intros H.
  assert (1 ≤ pos + m) as Hpm by lia.
  pose proof (decodeList_loop_pos D D_consumed _ _ _ _ _ _ Hpm H) as Hn'.
  assert (drop (Z.to_nat pos) (take (Z.to_nat n) data ++ rest)
          = take (Z.to_nat m) d
              ++ (take (Z.to_nat (n - pos - m)) (drop (Z.to_nat m) d) ++ rest))
    as ->.
  { rewrite drop_app_le by (rewrite length_take; lia).
    rewrite app_assoc. f_equal. rewrite skipn_firstn_comm. fold d.
    rewrite <- (take_drop (Z.to_nat m) (take _ d)).
    rewrite take_take, skipn_firstn_comm. f_equal; f_equal; lia. }
  rewrite (D_prefix d item m) by (done || (subst d; rewrite length_drop; lia)).
  cbn [bind]. apply IH; [lia|done].
Qed.

End LoopPrefix.

Lemma Decode_consumed_ok rest :
  consumed_ok zero_value (length rest) (Decode rest).
Proof. apply Decode_fuel_consumed. Qed.

Lemma Decode_take_app data v n rest :
  Decode data = Return (v, n, None) →
  Decode (take (Z.to_nat n) data ++ rest) = Return (v, n, None).
Proof.
  remember (length data) as len eqn:Hlen. revert data Hlen v n rest.
  induction len as [len IH] using lt_wf_ind. intros data -> v n rest H.
  pose proof (Decode_consumed_ok data) as Hc. rewrite H in Hc.
  unfold consumed_ok in Hc.
  revert H. rewrite !Decode_unfold.
  destruct data as [|c data']; [done|].
  assert (∃ tl, take (Z.to_nat n) (c :: data') ++ rest = c :: tl) as [tl Etl].
  { destruct (Z.to_nat n) as [|k] eqn:E; [lia|]. cbn. eauto. }
  rewrite Etl. cbv iota. rewrite <- Etl. clear tl Etl.
  set (data := c :: data') in *.
  destruct (is_digit c).
  { destruct (decodeString data) as [[[s k] [e|]]| |] eqn:E; try done.
    cbn [bind boxed]. intros [= <- <-].
    by rewrite (decodeString_prefix _ _ _ _ E). }
  destruct (byte_eqb c "i").
  { destruct (decodeInteger data) as [[s k] [e|]] eqn:E; try done.
    cbn [boxed]. intros [= <- <-].
    by rewrite (decodeInteger_prefix _ _ _ _ E). }
  destruct (byte_eqb c "l") eqn:El; [|done].
  destruct (decodeList Decode data) as [[[l k] [e|]]| |] eqn:E; try done.
  cbn [bind boxed]. intros [= <- <-].
  cut (decodeList Decode (take (Z.to_nat k) data ++ rest)
       = Return (l, k, None)); [by intros ->|].
  revert E. unfold decodeList. subst data.
  destruct data' as [|c1 data']; [done|]. rewrite El. cbn [negb].
  set (data := c :: c1 :: data') in *. intros E.
  assert (1 ≤ 1) as H1 by lia.
  pose proof (decodeList_loop_pos Decode Decode_consumed_ok _ _ _ _ _ _
                H1 E) as Hk.
  assert (∃ x y tl, take (Z.to_nat k) data ++ rest = x :: y :: tl
                    ∧ byte_eqb x "l" = true) as (x & y & tl & Etl & Hx).
  { destruct (Z.to_nat k) as [|[|j]] eqn:Ek; [lia|lia|].
    cbn. eauto. }
  rewrite Etl, Hx. cbn [negb]. rewrite <- Etl. clear Etl Hx.
  set (data2 := take (Z.to_nat k) data ++ rest).
  assert (decodeList_loop Decode data2 (length data) 1 []
          = Return (l, k, None)) as E2.
  { apply decodeList_loop_prefix;
      [apply Decode_consumed_ok| |lia|done].
    intros d item m rest' Hd HD. eapply IH; [|done|done]. done. }
  pose proof (decodeList_loop_fuel Decode Decode_consumed_ok data2
                (length data2) 1 []) as Hfuel.
  assert (2 ≤ length data2)%nat.
  { subst data2. rewrite length_app, length_take. lia. }
  specialize (Hfuel ltac:(intros; apply Decode_total) ltac:(lia) ltac:(lia)).
  destruct (Nat.le_ge_cases (length data) (length data2)).
  - rewrite (decodeList_loop_more Decode data2 (length data)); [done| |done].
    by rewrite E2.
  - rewrite <- (decodeList_loop_more Decode data2 (length data2) (length data));
      done.
Qed.

(** X26.  What [Decode] returns depends only on the bytes that it reports as
    consumed: when it decodes a value from [data] and reports [n] bytes, it
    decodes the same value, with the same count, from the first [n] bytes of
    [data] followed by any other bytes. *)
Theorem Decode_prefix data v n rest :
  Decode data = Return (v, n, None) →
  Decode (take (Z.to_nat n) data ++ rest) = Return (v, n, None).
Proof. apply Decode_take_app. Qed.

Lemma Decode_prefix_witness :
  Decode (take 3 (bytes_of "i5e4:spam") ++ bytes_of "le")
  = Return (VInt64 5, 3, None).
Proof.
  apply (Decode_prefix (bytes_of "i5e4:spam") (VInt64 5) 3 (bytes_of "le")).
  by vm_compute.
Defined.

(** X27.  [Decode] never takes a truncated value for a value: when it
    decodes a value of [n] bytes from [data], it returns no value for the
    first [k < n] bytes of [data] alone. *)
Theorem Decode_truncated data v n k :
  Decode data = Return (v, n, None) → (k < Z.to_nat n)%nat →
  match Decode (take k data) with
  | Return (_, _, None) => False
  | _ => True
  end.
Proof.
  intros H Hk.
  destruct (Decode (take k data)) as [[[v' n'] [e|]]| |] eqn:E; try done.
  pose proof (Decode_consumed_ok (take k data)) as Hc. rewrite E in Hc.
  unfold consumed_ok in Hc. rewrite length_take in Hc.
  pose proof (Decode_take_app _ _ _ (drop (Z.to_nat n') data) E) as E'.
  rewrite take_take in E'.
  replace (Z.to_nat n' `min` k)%nat with (Z.to_nat n') in E' by lia.
  rewrite take_drop in E'. rewrite H in E'. injection E' as _ ->. lia.
Qed.

Lemma Decode_truncated_witness :
  match Decode (take 5 (bytes_of "l4:spame")) with
  | Return (_, _, None) => False
  | _ => True
  end.
Proof.
  apply (Decode_truncated (bytes_of "l4:spame") (VList [VString "spam"]) 8 5).
  - by vm_compute.
  - vm_compute. lia.
Defined.

End PrefixFacts.
